(** * LingoMate: the live voice session of [src/components/LiveConversation.tsx]

    The component keeps its state in React state variables and in refs, and
    drives three browser collaborators: the Web Audio contexts, the
    microphone stream and the remote live session.  This development embeds
    the component's handlers ([cleanupAudio], [startSession], [stopSession],
    [onopen], [onaudioprocess], [onmessage], [onclose], [onerror]) as
    state-passing functions over a [World]: the component's own fields plus
    a log of the calls it makes on its collaborators.

    Conventions.
    - Times on the output timeline ([ctx.currentTime], [AudioBuffer.duration],
      [nextStartTimeRef.current]) are counted in sample frames of the output
      context (24000 per second), so that they are integers; the rounding of
      JavaScript doubles is not modelled.
    - Browser objects (contexts, nodes, tracks, sources, promises) are
      identified by natural numbers; [nextObject] allocates them.  An audio
      node belongs to the context that created it, and connecting nodes of
      two contexts throws.
    - A JavaScript [throw] or a rejected [await] is an [Abrupt] completion;
      [tryCatch] is [try { ... } catch (e) { ... }].
    - An [await] splits a handler in two: what runs before it and the
      continuation that runs when the awaited promise settles.  How the
      promise settles is supplied by the environment. *)

From Stdlib Require Import ZArith Lia.
From stdpp Require Import base gmap sets list strings.

Local Open Scope Z_scope.

(** ** Data *)

(** [MediaStream]: only its tracks matter to the component. *)
Record MediaStream := { getTracks : list nat }.

(** The [Blob] of [@google/genai] passed to [sendRealtimeInput]. *)
Record Blob := { data : string; mimeType : string }.

(** The two fields of a [LiveServerMessage] that [onmessage] reads:
    [message.serverContent?.modelTurn?.parts?.[0]?.inlineData?.data]
    ([None] when the optional chain yields [undefined]) and
    [message.serverContent?.interrupted]. *)
Record Message := { base64Audio : option string; interrupted : bool }.

(** What an [onmessage] invocation holds while it is suspended at
    [await decodeAudioData(...)]: its message and the [ctx] it captured. *)
Record Suspended := { heldMessage : Message; heldCtx : nat }.

(** A [GainNode].  An audio node belongs to the context that created it
    ([AudioNode.context]) for as long as it lives. *)
Record GainNode := { nodeId : nat; nodeContext : nat }.

(** What can be thrown, or be the reason of a rejected promise. *)
Inductive Exn :=
| InvalidStateError
| InvalidAccessError
| TypeError
| NotAllowedError
| EncodingError
| SessionError.

(** Calls made on the collaborators, in the order they are made. *)
Inductive HostCall :=
| NewAudioContext (c : nat) (sampleRate : Z)
| ContextClose (c : nat)
| NodeDisconnect (n : nat)
| GetUserMedia
| TrackStop (t : nat)
| LiveConnect (p : nat)
| SessionClose (p : nat)
| SendRealtimeInput (p : nat) (media : Blob)
| SourceStart (u : nat) (when : Z) (duration : Z)
| SourceStop (u : nat)
| ConsoleLog (text : string)
| ConsoleError (text : string) (e : Exn).

(** The state variables and refs declared at the top of [LiveConversation]. *)
Record Component := {
  isConnected : bool;
  isTalking : bool;
  error : option string;
  inputAudioContextRef : option nat;
  outputAudioContextRef : option nat;
  outputNodeRef : option GainNode;
  streamRef : option MediaStream;
  processorRef : option nat;
  sourceRef : option nat;
  inputAnalyserRef : option nat;
  outputAnalyserRef : option nat;
  sessionRef : option nat;
  nextStartTimeRef : Z;
  sourcesRef : gset nat
}.

(** The component together with its environment: the log of host calls, the
    object allocator, the [onmessage] invocations suspended at their decode,
    and the sources on which [stop()] raises. *)
Record World := {
  comp :> Component;
  hostCalls : list HostCall;
  nextObject : nat;
  awaitingDecode : gmap nat Suspended;
  nextInvocation : nat;
  stopRaises : gset nat
}.

Definition setIsConnected (v : bool) (c : Component) : Component :=
  Build_Component v (isTalking c) (error c) (inputAudioContextRef c)
    (outputAudioContextRef c) (outputNodeRef c) (streamRef c) (processorRef c)
    (sourceRef c) (inputAnalyserRef c) (outputAnalyserRef c) (sessionRef c)
    (nextStartTimeRef c) (sourcesRef c).

Definition setIsTalking (v : bool) (c : Component) : Component :=
  Build_Component (isConnected c) v (error c) (inputAudioContextRef c)
    (outputAudioContextRef c) (outputNodeRef c) (streamRef c) (processorRef c)
    (sourceRef c) (inputAnalyserRef c) (outputAnalyserRef c) (sessionRef c)
    (nextStartTimeRef c) (sourcesRef c).

Definition setError (v : option string) (c : Component) : Component :=
  Build_Component (isConnected c) (isTalking c) v (inputAudioContextRef c)
    (outputAudioContextRef c) (outputNodeRef c) (streamRef c) (processorRef c)
    (sourceRef c) (inputAnalyserRef c) (outputAnalyserRef c) (sessionRef c)
    (nextStartTimeRef c) (sourcesRef c).

Definition set_inputAudioContextRef (v : option nat) (c : Component) : Component :=
  Build_Component (isConnected c) (isTalking c) (error c) v (outputAudioContextRef
    c) (outputNodeRef c) (streamRef c) (processorRef c) (sourceRef c)
    (inputAnalyserRef c) (outputAnalyserRef c) (sessionRef c) (nextStartTimeRef c)
    (sourcesRef c).

Definition set_outputAudioContextRef (v : option nat) (c : Component) : Component :=
  Build_Component (isConnected c) (isTalking c) (error c) (inputAudioContextRef c) v
    (outputNodeRef c) (streamRef c) (processorRef c) (sourceRef c) (inputAnalyserRef
    c) (outputAnalyserRef c) (sessionRef c) (nextStartTimeRef c) (sourcesRef c).

Definition set_outputNodeRef (v : option GainNode) (c : Component) : Component :=
  Build_Component (isConnected c) (isTalking c) (error c) (inputAudioContextRef c)
    (outputAudioContextRef c) v (streamRef c) (processorRef c) (sourceRef c)
    (inputAnalyserRef c) (outputAnalyserRef c) (sessionRef c) (nextStartTimeRef c)
    (sourcesRef c).

Definition set_streamRef (v : option MediaStream) (c : Component) : Component :=
  Build_Component (isConnected c) (isTalking c) (error c) (inputAudioContextRef c)
    (outputAudioContextRef c) (outputNodeRef c) v (processorRef c) (sourceRef c)
    (inputAnalyserRef c) (outputAnalyserRef c) (sessionRef c) (nextStartTimeRef c)
    (sourcesRef c).

Definition set_processorRef (v : option nat) (c : Component) : Component :=
  Build_Component (isConnected c) (isTalking c) (error c) (inputAudioContextRef c)
    (outputAudioContextRef c) (outputNodeRef c) (streamRef c) v (sourceRef c)
    (inputAnalyserRef c) (outputAnalyserRef c) (sessionRef c) (nextStartTimeRef c)
    (sourcesRef c).

Definition set_sourceRef (v : option nat) (c : Component) : Component :=
  Build_Component (isConnected c) (isTalking c) (error c) (inputAudioContextRef c)
    (outputAudioContextRef c) (outputNodeRef c) (streamRef c) (processorRef c) v
    (inputAnalyserRef c) (outputAnalyserRef c) (sessionRef c) (nextStartTimeRef c)
    (sourcesRef c).

Definition set_inputAnalyserRef (v : option nat) (c : Component) : Component :=
  Build_Component (isConnected c) (isTalking c) (error c) (inputAudioContextRef c)
    (outputAudioContextRef c) (outputNodeRef c) (streamRef c) (processorRef c)
    (sourceRef c) v (outputAnalyserRef c) (sessionRef c) (nextStartTimeRef c)
    (sourcesRef c).

Definition set_outputAnalyserRef (v : option nat) (c : Component) : Component :=
  Build_Component (isConnected c) (isTalking c) (error c) (inputAudioContextRef c)
    (outputAudioContextRef c) (outputNodeRef c) (streamRef c) (processorRef c)
    (sourceRef c) (inputAnalyserRef c) v (sessionRef c) (nextStartTimeRef c)
    (sourcesRef c).

Definition set_sessionRef (v : option nat) (c : Component) : Component :=
  Build_Component (isConnected c) (isTalking c) (error c) (inputAudioContextRef c)
    (outputAudioContextRef c) (outputNodeRef c) (streamRef c) (processorRef c)
    (sourceRef c) (inputAnalyserRef c) (outputAnalyserRef c) v (nextStartTimeRef c)
    (sourcesRef c).

Definition set_nextStartTimeRef (v : Z) (c : Component) : Component :=
  Build_Component (isConnected c) (isTalking c) (error c) (inputAudioContextRef c)
    (outputAudioContextRef c) (outputNodeRef c) (streamRef c) (processorRef c)
    (sourceRef c) (inputAnalyserRef c) (outputAnalyserRef c) (sessionRef c) v
    (sourcesRef c).

Definition set_sourcesRef (v : gset nat) (c : Component) : Component :=
  Build_Component (isConnected c) (isTalking c) (error c) (inputAudioContextRef c)
    (outputAudioContextRef c) (outputNodeRef c) (streamRef c) (processorRef c)
    (sourceRef c) (inputAnalyserRef c) (outputAnalyserRef c) (sessionRef c)
    (nextStartTimeRef c) v.

Definition set_comp (v : Component) (w : World) : World :=
  Build_World v (hostCalls w) (nextObject w) (awaitingDecode w) (nextInvocation w)
    (stopRaises w).

Definition set_hostCalls (v : list HostCall) (w : World) : World :=
  Build_World (comp w) v (nextObject w) (awaitingDecode w) (nextInvocation w)
    (stopRaises w).

Definition set_nextObject (v : nat) (w : World) : World :=
  Build_World (comp w) (hostCalls w) v (awaitingDecode w) (nextInvocation w)
    (stopRaises w).

Definition set_awaitingDecode (v : gmap nat Suspended) (w : World) : World :=
  Build_World (comp w) (hostCalls w) (nextObject w) v (nextInvocation w) (stopRaises
    w).

Definition set_nextInvocation (v : nat) (w : World) : World :=
  Build_World (comp w) (hostCalls w) (nextObject w) (awaitingDecode w) v (stopRaises
    w).


(** ** Completions and actions *)

Inductive Completion :=
| Normal (w : World)
| Abrupt (e : Exn) (w : World).

Definition Action := World → Completion.

Definition world_of (r : Completion) : World :=
  match r with Normal w => w | Abrupt _ w => w end.

Definition andThen (a b : Action) : Action := λ w,
  match a w with
  | Normal w' => b w'
  | Abrupt e w' => Abrupt e w'
  end.

Notation "a >>> b" := (andThen a b) (at level 62, right associativity).

Definition skip : Action := Normal.
Definition raise (e : Exn) : Action := Abrupt e.
Definition effect (f : World → World) : Action := λ w, Normal (f w).

(** [ref.current = v] and the React setters. *)
Definition store (f : Component → Component) : Action :=
  effect (λ w, set_comp (f (comp w)) w).

Definition host (h : HostCall) : Action :=
  effect (λ w, set_hostCalls (hostCalls w ++ [h]) w).

Definition tryCatch (body : Action) (handler : Exn → Action) : Action := λ w,
  match body w with
  | Normal w' => Normal w'
  | Abrupt e w' => handler e w'
  end.

(** [if (ref.current) { body(ref.current) }] *)
Definition ifSome {A} (read : Component → option A) (body : A → Action) : Action := λ w,
  match read (comp w) with
  | Some a => body a w
  | None => Normal w
  end.

Fixpoint forEach {A} (l : list A) (body : A → Action) : Action :=
  match l with
  | [] => skip
  | x :: l' => body x >>> forEach l' body
  end.

(** ** Teardown *)

(** [source.stop()] on an [AudioBufferSourceNode]. *)
Definition source_stop (u : nat) : Action := λ w,
  if decide (u ∈ stopRaises w) then Abrupt InvalidStateError w
  else host (SourceStop u) w.

(** [sourcesRef.current.forEach(s => { try { s.stop(); } catch (e) {} })] *)
Definition stopSources : Action := λ w,
  forEach (elements (sourcesRef w))
          (λ u, tryCatch (source_stop u) (λ _, skip)) w.

Definition cleanupAudio : Action :=
  ifSome processorRef (λ n,
    host (NodeDisconnect n) >>> store (set_processorRef None)) >>>
  ifSome sourceRef (λ n,
    host (NodeDisconnect n) >>> store (set_sourceRef None)) >>>
  ifSome streamRef (λ s,
    forEach (getTracks s) (λ t, host (TrackStop t)) >>> store (set_streamRef None)) >>>
  ifSome inputAudioContextRef (λ c,
    host (ContextClose c) >>> store (set_inputAudioContextRef None)) >>>
  ifSome outputAudioContextRef (λ c,
    host (ContextClose c) >>> store (set_outputAudioContextRef None)) >>>
  stopSources >>>
  store (set_sourcesRef ∅).

(** ** Lifecycle *)

(** The initial values of the state variables and refs. *)
Definition initial : World :=
  {| comp := {| isConnected := false; isTalking := false; error := None;
                inputAudioContextRef := None; outputAudioContextRef := None;
                outputNodeRef := None; streamRef := None; processorRef := None;
                sourceRef := None; inputAnalyserRef := None;
                outputAnalyserRef := None; sessionRef := None;
                nextStartTimeRef := 0; sourcesRef := ∅ |};
     hostCalls := []; nextObject := O; awaitingDecode := ∅;
     nextInvocation := O; stopRaises := ∅ |}.

(** Creating a browser object yields an identity not used before. *)
Definition fresh (k : nat → Action) : Action := λ w,
  k (nextObject w) (set_nextObject (S (nextObject w)) w).

(** How [await navigator.mediaDevices.getUserMedia({ audio: true })] settles. *)
Inductive Acquisition := Granted (s : MediaStream) | Denied.

(** [startSession] up to its [await]: the error is cleared, both contexts
    and the output gain and analyser nodes are created, the microphone is
    requested.  The gain node is created by the output context just stored
    ([outputAudioContextRef.current.createGain()]).  (The constructors are
    taken not to throw.) *)
Definition startSession_begin : Action :=
  store (setError None) >>>
  fresh (λ c, host (NewAudioContext c 16000) >>>
              store (set_inputAudioContextRef (Some c))) >>>
  fresh (λ c, host (NewAudioContext c 24000) >>>
              store (set_outputAudioContextRef (Some c)) >>>
              fresh (λ g, store (set_outputNodeRef
                                   (Some {| nodeId := g; nodeContext := c |})))) >>>
  fresh (λ a, store (set_outputAnalyserRef (Some a))) >>>
  fresh (λ a, store (set_inputAnalyserRef (Some a))) >>>
  host GetUserMedia.

(** The rest of [startSession], run when the microphone request settles:
    the remainder of the [try] block, and the [catch] block. *)
Definition startSession_resume (a : Acquisition) : Action :=
  tryCatch
    match a with
    | Denied => raise NotAllowedError
    | Granted s =>
        store (set_streamRef (Some s)) >>>
        fresh (λ p, host (LiveConnect p) >>> store (set_sessionRef (Some p)))
    end
    (λ err,
       host (ConsoleError "" err) >>>
       store (setError (Some "Failed to access microphone or connect to AI.")) >>>
       cleanupAudio).

Definition startSession (a : Acquisition) : Action :=
  startSession_begin >>> startSession_resume a.

(** How [await sessionRef.current] settles in [stopSession], and whether
    [session.close()] then throws.  The promise is taken to settle: while
    it has not, [stopSession] stays suspended at its [await]. *)
Inductive Settled := Resolved (closeRaises : bool) | Rejected.

(** The body of the [try] in [stopSession]. *)
Definition closeSession (p : nat) (o : Settled) : Action :=
  match o with
  | Rejected => raise SessionError
  | Resolved true => raise InvalidStateError
  | Resolved false => host (SessionClose p)
  end.

Definition stopSession (o : Settled) : Action :=
  ifSome sessionRef (λ p,
    tryCatch (closeSession p o)
             (λ e, host (ConsoleError "Error closing session" e)) >>>
    store (set_sessionRef None)) >>>
  cleanupAudio >>>
  store (setIsConnected false) >>>
  store (setIsTalking false).

(** The continuation of [stopSession] after its [await]: whatever other
    handlers did to the component in the meantime, this is what runs when
    the promise [p] read before the [await] settles. *)
Definition stopSession_resume (p : nat) (o : Settled) : Action :=
  tryCatch (closeSession p o)
           (λ e, host (ConsoleError "Error closing session" e)) >>>
  store (set_sessionRef None) >>>
  cleanupAudio >>>
  store (setIsConnected false) >>>
  store (setIsTalking false).

(** [stopSession] as far as it runs in the turn that calls it.  With a
    session promise in [sessionRef] it is suspended at its [await], before
    anything is released, and [stopSession_resume] is the rest; with none
    there is no [await] and it runs to its end. *)
Definition stopSession_begin : Action := λ w,
  match sessionRef w with
  | Some _ => Normal w
  | None => (cleanupAudio >>>
             store (setIsConnected false) >>>
             store (setIsTalking false)) w
  end.

(** ** Session callbacks *)

Definition onopen : Action :=
  host (ConsoleLog "Session connected") >>>
  store (setIsConnected true) >>>
  store (setIsTalking true) >>>
  λ w, match inputAudioContextRef w, streamRef w with
       | Some _, Some _ =>
           (fresh (λ source,
              store (set_sourceRef (Some source)) >>>
              λ w, match inputAnalyserRef w with
                   | Some _ => Normal w
                   | None => Abrupt TypeError w
                   end) >>>
            fresh (λ processor, store (set_processorRef (Some processor)))) w
       | _, _ => Normal w
       end.

Definition onclose : Action :=
  host (ConsoleLog "Session closed") >>>
  store (setIsConnected false) >>>
  store (setIsTalking false).

Definition onerror (err : Exn) : Action :=
  host (ConsoleError "" err) >>>
  store (setError (Some "Connection error. Please try again.")) >>>
  store (setIsConnected false).

(** ** Capture *)

(** How [sessionPromise.then(session => session.sendRealtimeInput(...))]
    goes for one frame. *)
Inductive SendOutcome := Delivered | SendFails (e : Exn).

Section Capture.
(** [Float32Array] frames, and [createBlob] of [../utils/audioUtils],
    taken as a parameter. *)
Variable Frame : Type.
Variable createBlob : Frame → Blob.

(** [processor.onaudioprocess], for the session promise [p] it closes over. *)
Definition onaudioprocess (p : nat) (inputData : Frame) (o : SendOutcome) : Action :=
  let pcmBlob := createBlob inputData in
  tryCatch
    match o with
    | Delivered => host (SendRealtimeInput p pcmBlob)
    | SendFails e => raise e
    end
    (λ e, host (ConsoleError "Error sending audio input:" e)).

(** The capture device fires [onaudioprocess] once per frame. *)
Definition capture (p : nat) (frames : list (Frame * SendOutcome)) : Action :=
  forEach frames (λ fo, onaudioprocess p (fst fo) (snd fo)).

End Capture.

(** ** Playback scheduling and interruption *)

(** JavaScript truthiness of [base64Audio]: [undefined] and the empty
    string are falsy. *)
Definition truthy (s : option string) : bool :=
  match s with
  | Some s => negb (String.eqb s "")
  | None => false
  end.

(** The condition of the first [if] of [onmessage]; yields the [ctx] the
    handler binds. *)
Definition audioGuard (m : Message) (c : Component) : option nat :=
  if truthy (base64Audio m) then
    match outputAudioContextRef c, outputNodeRef c with
    | Some ctx, Some _ => Some ctx
    | _, _ => None
    end
  else None.

(** The second [if] of [onmessage]. *)
Definition handleInterruption (m : Message) : Action :=
  if interrupted m then
    stopSources >>>
    store (set_sourcesRef ∅) >>>
    store (set_nextStartTimeRef 0)
  else skip.

(** [nextStartTimeRef.current = Math.max(nextStartTimeRef.current, ctx.currentTime)] *)
Definition clampCursor (currentTime : Z) : Action :=
  store (λ c, set_nextStartTimeRef (Z.max (nextStartTimeRef c) currentTime) c).

(** How [await decodeAudioData(base64ToArrayBuffer(base64Audio), ctx, 24000, 1)]
    settles.  Both helpers are those of [../utils/audioUtils]; what they
    yield is supplied by the environment.  A throw of [base64ToArrayBuffer]
    leaves the handler at the same point as a rejected decode. *)
Inductive Decoded := AudioBuffer (duration : Z) | DecodeFails.

(** [source.connect(outputNodeRef.current)], for a source created by the
    context [ctx]: connecting nodes of two different contexts throws
    [InvalidAccessError], and [connect(null)] throws [TypeError]. *)
Definition connectToOutput (ctx : nat) : Action := λ w,
  match outputNodeRef w with
  | Some g => if decide (nodeContext g = ctx) then Normal w
              else Abrupt InvalidAccessError w
  | None => Abrupt TypeError w
  end.

(** The handler after its [await], for the invocation that was suspended
    as [k]: the source is created by the [ctx] bound before the [await],
    the gain node is the one [outputNodeRef] holds now. *)
Definition onmessage_resume (k : Suspended) (r : Decoded) : Action :=
  match r with
  | DecodeFails => raise EncodingError
  | AudioBuffer duration =>
      fresh (λ source,
        connectToOutput (heldCtx k) >>>
        (λ w, host (SourceStart source (nextStartTimeRef w) duration) w) >>>
        store (λ c, set_nextStartTimeRef (nextStartTimeRef c + duration) c) >>>
        store (λ c, set_sourcesRef ({[source]} ∪ sourcesRef c) c)) >>>
      handleInterruption (heldMessage k)
  end.

(** The whole handler when nothing else runs between its two halves. *)
Definition onmessage (m : Message) (currentTime : Z) (r : Decoded) : Action := λ w,
  match audioGuard m w with
  | Some ctx =>
      (clampCursor currentTime >>>
       onmessage_resume {| heldMessage := m; heldCtx := ctx |} r) w
  | None => handleInterruption m w
  end.

(** The ['ended'] listener of a source: [sourcesRef.current.delete(source)]. *)
Definition onended (u : nat) : Action :=
  store (λ c, set_sourcesRef (sourcesRef c ∖ {[u]}) c).

(** ** The event loop *)

Inductive Event :=
| Arrive (m : Message) (currentTime : Z)
| Settle (h : nat) (r : Decoded)
| SourceEnded (u : nat).

Definition suspend (k : Suspended) (w : World) : World :=
  set_nextInvocation (S (nextInvocation w))
    (set_awaitingDecode (<[nextInvocation w := k]> (awaitingDecode w)) w).

(** One turn of the loop.  A handler that completes abruptly is a rejected
    promise nobody awaits: the loop goes on from the state it left. *)
Definition step (w : World) (e : Event) : World :=
  match e with
  | Arrive m currentTime =>
      match audioGuard m w with
      | Some ctx =>
          suspend {| heldMessage := m; heldCtx := ctx |}
                  (world_of (clampCursor currentTime w))
      | None => world_of (handleInterruption m w)
      end
  | Settle h r =>
      match awaitingDecode w !! h with
      | Some k =>
          world_of (onmessage_resume k r
                      (set_awaitingDecode (delete h (awaitingDecode w)) w))
      | None => w
      end
  | SourceEnded u => world_of (onended u w)
  end.

Definition run (es : list Event) (w : World) : World := foldl step w es.

(** Messages handled one after the other, each decode settling before the
    next message arrives. *)
Definition deliver (w : World) (x : Message * Z * Decoded) : World :=
  world_of (onmessage x.1.1 x.1.2 x.2 w).

Definition deliverAll (xs : list (Message * Z * Decoded)) (w : World) : World :=
  foldl deliver w xs.

(** ** Observations *)

(** A [PlaybackUnit]: a started source, its start time and its duration. *)
Record PlaybackUnit := { unitSource : nat; unitStart : Z; unitDuration : Z }.

Definition unitEnd (u : PlaybackUnit) : Z := unitStart u + unitDuration u.

Definition timing (u : PlaybackUnit) : Z * Z := (unitStart u, unitDuration u).

Definition asUnit (h : HostCall) : option PlaybackUnit :=
  match h with
  | SourceStart u s d => Some {| unitSource := u; unitStart := s; unitDuration := d |}
  | _ => None
  end.

(** The units scheduled so far, in the order of their [start] calls. *)
Definition scheduled (w : World) : list PlaybackUnit := omap asUnit (hostCalls w).

(** The units scheduled between two worlds of one run. *)
Definition newUnits (before after : World) : list PlaybackUnit :=
  drop (length (scheduled before)) (scheduled after).

Definition contextClosed (c : nat) (w : World) : Prop := ContextClose c ∈ hostCalls w.
Definition trackStopped (t : nat) (w : World) : Prop := TrackStop t ∈ hostCalls w.

(** [Idle]: not connected, no session handle, no input stream, no audio
    context, no capture node, nothing in the Active Playback Set. *)
Definition Idle (w : World) : Prop :=
  isConnected w = false ∧ isTalking w = false ∧ sessionRef w = None ∧
  streamRef w = None ∧ inputAudioContextRef w = None ∧
  outputAudioContextRef w = None ∧ processorRef w = None ∧
  sourceRef w = None ∧ sourcesRef w = ∅.

(** What a completed teardown leaves of the resources held [before]. *)
Definition Released (before after : World) : Prop :=
  (∀ s t, streamRef before = Some s → t ∈ getTracks s → trackStopped t after) ∧
  (∀ c, inputAudioContextRef before = Some c → contextClosed c after) ∧
  (∀ c, outputAudioContextRef before = Some c → contextClosed c after).

(** The two refs the audio branch of [onmessage] needs, as [startSession]
    sets them: an output context and a gain node of that context.  (The
    component never holds an output context with the gain node of another:
    see [Reachable_Ready].) *)
Definition Ready (w : World) : Prop :=
  ∃ ctx g, outputAudioContextRef w = Some ctx ∧ outputNodeRef w = Some g ∧
           nodeContext g = ctx.

(** The gain node [outputNodeRef] holds is a node of the context the
    suspended invocation [k] bound: its source can be connected. *)
Definition Connects (k : Suspended) (w : World) : Prop :=
  ∃ g, outputNodeRef w = Some g ∧ nodeContext g = heldCtx k.

(** ** The handlers in closed form

    What the handlers above compute, written as plain functions of the
    world; the lemmas below relate each to the handler it describes. *)

(** The [stop()] calls that get through when every source of the Active
    Playback Set is stopped inside [try]/[catch]. *)
Definition stops (w : World) : list HostCall :=
  SourceStop <$> filter (λ u, u ∉ stopRaises w) (elements (sourcesRef w)).

(** The calls [cleanupAudio] makes, read off the refs it finds. *)
Definition releases (w : World) : list HostCall :=
  from_option (λ n, [NodeDisconnect n]) [] (processorRef w) ++
  from_option (λ n, [NodeDisconnect n]) [] (sourceRef w) ++
  from_option (λ s, TrackStop <$> getTracks s) [] (streamRef w) ++
  from_option (λ c, [ContextClose c]) [] (inputAudioContextRef w) ++
  from_option (λ c, [ContextClose c]) [] (outputAudioContextRef w) ++
  stops w.

(** The refs [cleanupAudio] leaves behind. *)
Definition cleared (c : Component) : Component :=
  set_sourcesRef ∅
    (set_outputAudioContextRef None
       (set_inputAudioContextRef None
          (set_streamRef None (set_sourceRef None (set_processorRef None c))))).

(** The world after the interruption branch has run. *)
Definition reset (w : World) : World :=
  set_comp (set_nextStartTimeRef 0 (set_sourcesRef ∅ w))
           (set_hostCalls (hostCalls w ++ stops w) w).

(** The world after the cursor has been clamped to the output clock. *)
Definition clamped (currentTime : Z) (w : World) : World :=
  set_comp (set_nextStartTimeRef (Z.max (nextStartTimeRef w) currentTime) w) w.

(** The same world with another value of the Timeline Cursor. *)
Definition withCursor (c : Z) (w : World) : World :=
  set_comp (set_nextStartTimeRef c w) w.

(** The unit a continuation creates in world [w] from a buffer of
    duration [d]. *)
Definition unitAt (d : Z) (w : World) : PlaybackUnit :=
  {| unitSource := nextObject w; unitStart := nextStartTimeRef w; unitDuration := d |}.

(** The world after the block from [createBufferSource] to
    [sourcesRef.current.add(source)] has run. *)
Definition committed (d : Z) (w : World) : World :=
  set_comp (set_sourcesRef ({[nextObject w]} ∪ sourcesRef w)
              (set_nextStartTimeRef (nextStartTimeRef w + d) w))
           (set_hostCalls (hostCalls w ++ [SourceStart (nextObject w) (nextStartTimeRef w) d])
              (set_nextObject (S (nextObject w)) w)).

(** The world after the suspended invocation [h] has been taken off. *)
Definition resumed (h : nat) (w : World) : World :=
  set_awaitingDecode (delete h (awaitingDecode w)) w.

(** The call one capture frame results in. *)
Definition frameCall {Frame} (createBlob : Frame → Blob) (p : nat)
    (fo : Frame * SendOutcome) : HostCall :=
  match snd fo with
  | Delivered => SendRealtimeInput p (createBlob (fst fo))
  | SendFails e => ConsoleError "Error sending audio input:" e
  end.

(** ** Enqueues and schedules *)

(** An enqueue request: payload, output-clock reading at arrival, and the
    duration of the buffer its decode yields. *)
Record Request := { payload : string; arrival : Z; duration : Z }.

Definition audioMessage (s : string) : Message :=
  {| base64Audio := Some s; interrupted := false |}.

Definition interruption : Message :=
  {| base64Audio := None; interrupted := true |}.

Definition enqueue (r : Request) : Message * Z * Decoded :=
  (audioMessage (payload r), arrival r, AudioBuffer (duration r)).

(** The schedule in the words of the specification: a new unit starts at
    [max(cursor, currentOutputClock)], then [cursor += duration]. *)
Fixpoint plan (cursor : Z) (rs : list Request) : list (Z * Z) :=
  match rs with
  | [] => []
  | r :: rs' =>
      let start := Z.max cursor (arrival r) in
      (start, duration r) :: plan (start + duration r) rs'
  end.

(** The cursor once the plan has been carried out. *)
Definition planEnd (cursor : Z) (rs : list Request) : Z :=
  foldl (λ c r, Z.max c (arrival r) + duration r) cursor rs.

(** No unit starts before the one scheduled just before it has ended. *)
Definition Chained (us : list PlaybackUnit) : Prop :=
  ∀ i a b, us !! i = Some a → us !! S i = Some b → unitEnd a ≤ unitStart b.

(** The invariant of a run without interruption: the units scheduled so
    far are chained and the cursor is not before the end of the last. *)
Definition ChainedUpTo (us : list PlaybackUnit) (cursor : Z) : Prop :=
  Chained us ∧ ∀ u, last us = Some u → unitEnd u ≤ cursor.

(** A run in which no interruption is handled: no arriving message and
    no suspended invocation carries the flag. *)
Definition quiet (e : Event) : bool :=
  match e with
  | Arrive m _ => negb (interrupted m)
  | _ => true
  end.

Definition Uninterrupted (es : list Event) (w : World) : Prop :=
  Forall (λ e, quiet e = true) es ∧
  ∀ h k, awaitingDecode w !! h = Some k → interrupted (heldMessage k) = false.

(** Two worlds that differ at most in the Timeline Cursor, and whose
    cursors no output-clock reading from [t] on can tell apart. *)
Definition cursorEquivalent (t : Z) (w1 w2 : World) : Prop :=
  ∃ c, w2 = withCursor c w1 ∧ Z.max (nextStartTimeRef w1) t = Z.max c t.

(** ** Sample worlds and runs *)

(** A world in which the session is still connecting: [startSession] has
    run with the microphone granted (one track, numbered 100), [onopen]
    has not. *)
Definition connectingWorld : World :=
  world_of (startSession (Granted {| getTracks := [100%nat] |}) initial).

(** A world in the middle of a live session: [onopen] has run. *)
Definition liveWorld : World := world_of (onopen connectingWorld).

(** A world in which the live session has reported an error. *)
Definition erroredWorld : World := world_of (onerror SessionError liveWorld).

(** The scenario of the specification: payload A (1.0 s) arrives at output
    clock 0.0, payload B (0.5 s) at 0.2. *)
Definition scenarioAB : list Request :=
  [ {| payload := "QQ=="; arrival := 0; duration := 24000 |};
    {| payload := "Qg=="; arrival := 4800; duration := 12000 |} ].

(** A world in which an interruption has just been handled after one unit
    was scheduled. *)
Definition interruptedWorld : World :=
  deliverAll [enqueue {| payload := "QQ=="; arrival := 0; duration := 24000 |};
              (interruption, 7200, DecodeFails)] liveWorld.

(** Payload A arrives, then payload B; B's decode settles first. *)
Definition lateDecode : list Event :=
  [ Arrive (audioMessage "QQ==") 0; Arrive (audioMessage "Qg==") 0;
    Settle 1 (AudioBuffer 12000); Settle 0 (AudioBuffer 24000) ].

(** Payload A arrives; an interruption arrives while A's decode is
    pending; then the decode settles. *)
Definition interruptedWhileDecoding : list Event :=
  [ Arrive (audioMessage "QQ==") 0; Arrive interruption 7200;
    Settle 0 (AudioBuffer 24000) ].

(** Payload A arrives at 0.0; a payload whose decode will fail arrives at
    0.1 while A's decode is pending; A's decode settles; payload B arrives
    at 0.2.  And the same run without the failing payload. *)
Definition failureWhileDecoding : list Event :=
  [ Arrive (audioMessage "QQ==") 0; Arrive (audioMessage "!!") 2400;
    Settle 1 DecodeFails; Settle 0 (AudioBuffer 24000);
    Arrive (audioMessage "Qg==") 4800; Settle 2 (AudioBuffer 12000) ].

Definition withoutFailure : list Event :=
  [ Arrive (audioMessage "QQ==") 0; Settle 0 (AudioBuffer 24000);
    Arrive (audioMessage "Qg==") 4800; Settle 1 (AudioBuffer 12000) ].

(** One frame whose send fails, followed by one that is delivered. *)
Definition framesAroundFailure : list (string * SendOutcome) :=
  [ ("frame 1", SendFails InvalidStateError); ("frame 2", Delivered) ].

(** ** The component as a whole

    Every piece of code of the component that can run in one turn of the
    browser's event loop: the two halves of [startSession] and of
    [stopSession] (End Call, or the cleanup of the unmount effect), the
    session callbacks, the capture callback and the turns of the scheduler
    above.  [onaudioprocess] is given the frame as [createBlob] encodes it. *)
Inductive Handler :=
| StartBegins
| StartResumes (a : Acquisition)
| Stops (o : Settled)
| StopResumes (p : nat) (o : Settled)
| Opens
| Closes
| Errors (err : Exn)
| Captures (p : nat) (pcmBlob : Blob) (o : SendOutcome)
| Turn (e : Event).

Definition handle (w : World) (h : Handler) : World :=
  match h with
  | StartBegins => world_of (startSession_begin w)
  | StartResumes a => world_of (startSession_resume a w)
  | Stops o => world_of (stopSession o w)
  | StopResumes p o => world_of (stopSession_resume p o w)
  | Opens => world_of (onopen w)
  | Closes => world_of (onclose w)
  | Errors err => world_of (onerror err w)
  | Captures p pcmBlob o => world_of (onaudioprocess Blob id p pcmBlob o w)
  | Turn e => step w e
  end.

Definition handleAll (hs : list Handler) (w : World) : World := foldl handle w hs.

(** What the platform guarantees of the values it hands to the component:
    [ctx.currentTime] and [AudioBuffer.duration] are not negative. *)
Definition Physical (h : Handler) : Prop :=
  match h with
  | Turn (Arrive _ currentTime) => 0 ≤ currentTime
  | Turn (Settle _ (AudioBuffer d)) => 0 ≤ d
  | _ => True
  end.

(** A freshly mounted component, in an environment where [stop()] raises
    on the sources of [raising]. *)
Definition boot (raising : gset nat) : World :=
  {| comp := comp initial; hostCalls := []; nextObject := O; awaitingDecode := ∅;
     nextInvocation := O; stopRaises := raising |}.

(** A live session in which payload A (1.0 s) arrived at output clock 0.0
    and was scheduled (its source, 8, is playing and the cursor is at its
    end), and payload B arrived at 0.2 and is suspended at its decode. *)
Definition playingWorld : World :=
  handleAll [ StartBegins; StartResumes (Granted {| getTracks := [100%nat] |}); Opens;
              Turn (Arrive (audioMessage "QQ==") 0); Turn (Settle 0 (AudioBuffer 24000));
              Turn (Arrive (audioMessage "Qg==") 4800) ] (boot ∅).

(** End Call and a new Start while payload B is still suspended. *)
Definition restartedWorld : World :=
  handleAll [ Stops (Resolved false); StartBegins;
              StartResumes (Granted {| getTracks := [101%nat] |}); Opens ] playingWorld.

(** The worlds the component can get into, in any order of its handlers. *)
Inductive Reachable : World → Prop :=
| reach_boot (raising : gset nat) : Reachable (boot raising)
| reach_handle (w : World) (h : Handler) :
    Reachable w → Physical h → Reachable (handle w h).

(** What the component keeps true of its refs and of its schedule. *)
Definition Invariant (w : World) : Prop :=
  (∀ c, outputAudioContextRef w = Some c →
        (c < nextObject w)%nat ∧ ∃ g, outputNodeRef w = Some g ∧ nodeContext g = c) ∧
  (∀ h k, awaitingDecode w !! h = Some k →
          (heldCtx k < nextObject w)%nat ∧ is_Some (outputNodeRef w)) ∧
  (is_Some (inputAudioContextRef w) → is_Some (inputAnalyserRef w)) ∧
  (∀ u, u ∈ sourcesRef w →
        (u < nextObject w)%nat ∧ ∃ s d, SourceStart u s d ∈ hostCalls w) ∧
  0 ≤ nextStartTimeRef w ∧
  (∀ u, u ∈ scheduled w → 0 ≤ unitStart u).

(** The handlers that neither ask for a session nor resume what
    [stopSession] does not cancel: every handler but a start request, the
    continuation of a start request whose microphone is granted, [onopen],
    and the settling of a decode that yields a buffer. *)
Definition Dormant (h : Handler) : Prop :=
  match h with
  | StartBegins | StartResumes (Granted _) | Opens | Turn (Settle _ (AudioBuffer _)) => False
  | _ => True
  end.

(** The world [stopSession] leaves, [pre] being what its [try]/[catch]
    called. *)
Definition stopped (pre : list HostCall) (w : World) : World :=
  set_comp (setIsTalking false (setIsConnected false (cleared (set_sessionRef None w))))
           (set_hostCalls (hostCalls w ++ pre ++ releases w) w).

(** The call the [try]/[catch] of [stopSession] results in. *)
Definition closing (p : nat) (o : Settled) : HostCall :=
  match o with
  | Resolved false => SessionClose p
  | Resolved true => ConsoleError "Error closing session" InvalidStateError
  | Rejected => ConsoleError "Error closing session" SessionError
  end.

(** The world [startSession] leaves at its [await]. *)
Definition acquiring (w : World) : World :=
  set_comp
    (set_inputAnalyserRef (Some (S (S (S (S (nextObject w))))))
       (set_outputAnalyserRef (Some (S (S (S (nextObject w)))))
          (set_outputNodeRef (Some {| nodeId := S (S (nextObject w));
                                      nodeContext := S (nextObject w) |})
             (set_outputAudioContextRef (Some (S (nextObject w)))
                (set_inputAudioContextRef (Some (nextObject w)) (setError None w))))))
    (set_hostCalls
       (hostCalls w ++ [NewAudioContext (nextObject w) 16000;
                        NewAudioContext (S (nextObject w)) 24000; GetUserMedia])
       (set_nextObject (S (S (S (S (S (nextObject w)))))) w)).

(** The world the rest of [startSession] leaves when the microphone is
    granted. *)
Definition connecting (s : MediaStream) (w : World) : World :=
  set_comp (set_sessionRef (Some (nextObject w)) (set_streamRef (Some s) w))
           (set_hostCalls (hostCalls w ++ [LiveConnect (nextObject w)])
              (set_nextObject (S (nextObject w)) w)).

(** [w'] comes from [w] by a handler that schedules nothing: refs to
    nodes are kept, objects are only created, calls are only added and none
    of them starts a source, the Active Playback Set does not grow; an
    output context is one that was there, with the gain node that was
    there, or a new one with a gain node of its own; a suspended invocation
    is one that was there, or a new one that bound an existing context. *)
Definition Extends (w w' : World) : Prop :=
  (is_Some (outputNodeRef w) → is_Some (outputNodeRef w')) ∧
  (is_Some (inputAnalyserRef w) → is_Some (inputAnalyserRef w')) ∧
  (∀ c, outputAudioContextRef w' = Some c →
        (outputAudioContextRef w = Some c ∧ outputNodeRef w' = outputNodeRef w) ∨
        ((c < nextObject w')%nat ∧ ∃ g, outputNodeRef w' = Some g ∧ nodeContext g = c)) ∧
  (is_Some (inputAudioContextRef w') →
   is_Some (inputAudioContextRef w) ∨ is_Some (inputAnalyserRef w')) ∧
  (∀ h k, awaitingDecode w' !! h = Some k →
          awaitingDecode w !! h = Some k ∨
          ((heldCtx k < nextObject w')%nat ∧ is_Some (outputNodeRef w'))) ∧
  (nextObject w ≤ nextObject w')%nat ∧
  (∃ l, hostCalls w' = hostCalls w ++ l ∧ omap asUnit l = []) ∧
  sourcesRef w' ⊆ sourcesRef w ∧
  (0 ≤ nextStartTimeRef w → 0 ≤ nextStartTimeRef w').

(** Every context the component has created is closed or still held. *)
Definition Accounted (w : World) : Prop :=
  ∀ c rate, NewAudioContext c rate ∈ hostCalls w →
            contextClosed c w ∨ inputAudioContextRef w = Some c ∨
            outputAudioContextRef w = Some c.

(** [w'] comes from [w] by a handler that creates no context and keeps
    both context refs. *)
Definition KeepsContexts (w w' : World) : Prop :=
  inputAudioContextRef w' = inputAudioContextRef w ∧
  outputAudioContextRef w' = outputAudioContextRef w ∧
  ∃ l, hostCalls w' = hostCalls w ++ l ∧ ∀ c rate, NewAudioContext c rate ∉ l.

(** A run in which [startSession] is only entered when no context is
    held. *)
Fixpoint Orderly (w : World) (hs : list Handler) : Prop :=
  match hs with
  | [] => True
  | h :: hs' =>
      (h = StartBegins →
       inputAudioContextRef w = None ∧ outputAudioContextRef w = None) ∧
      Orderly (handle w h) hs'
  end.

(** ** The application shell ([src/App.tsx]) *)

Inductive AppMode := LIVE_CONVERSATION | SMART_CHAT | PRACTICE_TOOLS.

(** What [App] returns: the configuration error, or the shell with the
    component of the active tab. *)
Inductive Screen := ConfigurationError | TabOf (mode : AppMode).

(** [apiKey] is [process.env.API_KEY || '']; [liveConversation] is the
    mounted instance of [LiveConversation], if any; [unmounted] are the
    instances that were unmounted, in the order they were: React runs the
    cleanup of their effect and forgets them, but the handlers they had
    suspended at an [await] and the callbacks of their session and audio
    nodes still run, on the refs they closed over. *)
Record App := {
  apiKey : string;
  activeTab : AppMode;
  liveConversation : option World;
  unmounted : list World
}.

Definition render (a : App) : Screen :=
  if String.eqb (apiKey a) "" then ConfigurationError else TabOf (activeTab a).

Definition showsLive (key : string) (tab : AppMode) : bool :=
  match (if String.eqb key "" then ConfigurationError else TabOf tab) with
  | TabOf LIVE_CONVERSATION => true
  | _ => false
  end.

(** The first render: [useState(AppMode.LIVE_CONVERSATION)]. *)
Definition launch (key : string) (raising : gset nat) : App :=
  {| apiKey := key; activeTab := LIVE_CONVERSATION;
     liveConversation := if showsLive key LIVE_CONVERSATION then Some (boot raising) else None;
     unmounted := [] |}.

(** The refs of an instance are plain objects and are written whether or
    not it is mounted; React drops the updates of the state variables of an
    instance that is being, or has been, unmounted.  No handler reads a
    state variable. *)
Definition keepState (before : World) (after : World) : World :=
  set_comp (setError (error before)
              (setIsTalking (isTalking before)
                 (setIsConnected (isConnected before) after))) after.

(** A handler run for an instance that is no longer mounted. *)
Definition handleUnmounted (w : World) (h : Handler) : World := keepState w (handle w h).

Definition handleAllUnmounted (hs : list Handler) (w : World) : World :=
  foldl handleUnmounted w hs.

(** [setActiveTab(tab)] and the render that follows.  When
    [LiveConversation] leaves the screen, the cleanup of its effect calls
    [stopSession()], which runs up to its [await]; when it enters, a new
    instance is mounted. *)
Definition setActiveTab (tab : AppMode) (raising : gset nat) (a : App) : App :=
  match liveConversation a, showsLive (apiKey a) tab with
  | Some w, false =>
      {| apiKey := apiKey a; activeTab := tab; liveConversation := None;
         unmounted := unmounted a ++ [keepState w (world_of (stopSession_begin w))] |}
  | None, true =>
      {| apiKey := apiKey a; activeTab := tab; liveConversation := Some (boot raising);
         unmounted := unmounted a |}
  | live, _ =>
      {| apiKey := apiKey a; activeTab := tab; liveConversation := live;
         unmounted := unmounted a |}
  end.

(** What can still run for an instance that is no longer on the screen:
    everything but the handlers of its buttons. *)
Definition background (h : Handler) : bool :=
  match h with
  | StartBegins | Stops _ => false
  | _ => true
  end.

(** The callbacks of the session and of the audio nodes. *)
Definition Callback (h : Handler) : Prop :=
  match h with
  | Opens | Closes | Errors _ | Captures _ _ _ | Turn _ => True
  | _ => False
  end.

(** What can happen to the application: a tab is selected, a handler of
    the mounted [LiveConversation] runs, or something still runs for the
    instance that was unmounted as number [i]. *)
Inductive AppEvent :=
| SelectTab (tab : AppMode) (raising : gset nat)
| InLive (h : Handler)
| InUnmounted (i : nat) (h : Handler).

Definition appStep (a : App) (e : AppEvent) : App :=
  match e with
  | SelectTab tab raising => setActiveTab tab raising a
  | InLive h =>
      {| apiKey := apiKey a; activeTab := activeTab a;
         liveConversation := (λ w, handle w h) <$> liveConversation a;
         unmounted := unmounted a |}
  | InUnmounted i h =>
      {| apiKey := apiKey a; activeTab := activeTab a;
         liveConversation := liveConversation a;
         unmounted := if background h then alter (λ w, handleUnmounted w h) i (unmounted a)
                      else unmounted a |}
  end.

Definition appRun (es : list AppEvent) (a : App) : App := foldl appStep a es.

(** The calls that release something: a track, a session, a context, a
    node. *)
Definition releasing (c : HostCall) : bool :=
  match c with
  | TrackStop _ | SessionClose _ | ContextClose _ | NodeDisconnect _ => true
  | _ => false
  end.

(** The refs of a component that holds nothing: no session, no stream, no
    context, no capture node, nothing in the Active Playback Set. *)
Definition Torn (w : World) : Prop :=
  sessionRef w = None ∧ streamRef w = None ∧ inputAudioContextRef w = None ∧
  outputAudioContextRef w = None ∧ processorRef w = None ∧ sourceRef w = None ∧
  sourcesRef w = ∅.

(** [w'] comes from [w] by handlers that release nothing: the stream and
    the session are kept, and none of the calls made releases anything. *)
Definition KeepsSession (w w' : World) : Prop :=
  streamRef w' = streamRef w ∧ sessionRef w' = sessionRef w ∧
  ∃ l, hostCalls w' = hostCalls w ++ l ∧ Forall (λ c, releasing c = false) l.

(** ** The visualizer ([AudioVisualizer])

    One run of the effect of [AudioVisualizer] and the animation loop it
    starts.  The geometry of the bars is computed in floating point from
    the index of the bar and the byte sampled for it; a bar is recorded
    with these two. *)
Inductive CanvasCall :=
| ClearRect
| Bar (index : nat) (byte : Z).

(** The props and what the effect finds: [canvasRef.current] and
    [canvas.getContext('2d')] non-null or not, [analyser] with its
    [frequencyBinCount] or null, [isActive]. *)
Record VisualizerProps := {
  canvasMounted : bool;
  context2d : bool;
  analyser : option nat;
  isActive : bool
}.

(** The variables of one run of the effect and the frame requests it has
    outstanding with the browser. *)
Record Visualizer := {
  animationId : option nat;
  requested : gset nat;
  nextRequest : nat;
  samples : nat;
  canvasCalls : list CanvasCall
}.

Definition idleVisualizer : Visualizer :=
  {| animationId := None; requested := ∅; nextRequest := O; samples := O;
     canvasCalls := [] |}.

(** [draw]: request the next frame, sample, clear, draw one bar per bin. *)
Definition draw (bufferLength : nat) (dataArray : nat → Z) (v : Visualizer) : Visualizer :=
  {| animationId := Some (nextRequest v);
     requested := {[nextRequest v]} ∪ requested v;
     nextRequest := S (nextRequest v);
     samples := S (samples v);
     canvasCalls := canvasCalls v ++
                    ClearRect :: ((λ i, Bar i (dataArray i)) <$> seq 0 bufferLength) |}.

(** The body of the effect; the boolean tells whether a cleanup is
    returned. *)
Definition runEffect (props : VisualizerProps) (dataArray : nat → Z) (v : Visualizer)
  : Visualizer * bool :=
  match canvasMounted props, analyser props, isActive props with
  | true, Some bufferLength, true =>
      if context2d props then (draw bufferLength dataArray v, true) else (v, false)
  | _, _, _ => (v, false)
  end.

(** The browser runs the callback of an outstanding request. *)
Definition frame (bufferLength : nat) (v : Visualizer) (f : nat * (nat → Z)) : Visualizer :=
  if decide (f.1 ∈ requested v) then
    draw bufferLength f.2
      {| animationId := animationId v; requested := requested v ∖ {[f.1]};
         nextRequest := nextRequest v; samples := samples v;
         canvasCalls := canvasCalls v |}
  else v.

Definition frames (bufferLength : nat) (fs : list (nat * (nat → Z))) (v : Visualizer)
  : Visualizer := foldl (frame bufferLength) v fs.

(** The cleanup of the effect:
    [cancelAnimationFrame(animationId); ctx.clearRect(...)]. *)
Definition cleanupEffect (v : Visualizer) : Visualizer :=
  {| animationId := animationId v;
     requested := match animationId v with
                  | Some id => requested v ∖ {[id]}
                  | None => requested v
                  end;
     nextRequest := nextRequest v; samples := samples v;
     canvasCalls := canvasCalls v ++ [ClearRect] |}.

(** ** The chat ([src/components/SmartChat.tsx])

    JavaScript strings the user types or the model returns are sequences of
    UTF-16 code units.  A geolocation position is identified by a number:
    its latitude and longitude are copied into the request as they are.
    [handleSend] is taken as one step: the only state anything else can
    change while it awaits ([useThinking], by the toggle) is state it does
    not read again. *)
Module SmartChat.

Definition JsString := list N.

(** The code units [String.prototype.trim] removes: WhiteSpace and
    LineTerminator of ECMAScript. *)
Definition isWhiteSpace (c : N) : bool :=
  (bool_decide (c ∈ [9; 10; 11; 12; 13; 32; 160; 5760; 8232; 8233; 8239; 8287;
                   12288; 65279]%N)
   || ((8192 <=? c) && (c <=? 8202)))%N.

Fixpoint trimStart (s : JsString) : JsString :=
  match s with
  | c :: s' => if isWhiteSpace c then trimStart s' else s
  | [] => []
  end.

Definition trim (s : JsString) : JsString := rev (trimStart (rev (trimStart s))).

(** A string literal of the source, all of whose characters are ASCII. *)
Definition js (s : string) : JsString :=
  (λ a, N.of_nat (Ascii.nat_of_ascii a)) <$> String.list_ascii_of_string s.

Inductive Sender := USER | MODEL.

Record GroundingChunk := { web : option (JsString * JsString); maps : bool }.

Record GroundingMetadata := { groundingChunks : option (list GroundingChunk) }.

Record ChatMessage := {
  id : Z;
  role : Sender;
  text : JsString;
  timestamp : Z;
  isThinking : option bool;
  groundingMetadata : option GroundingMetadata
}.

Record State := {
  messages : list ChatMessage;
  input : JsString;
  isLoading : bool;
  useThinking : bool
}.

(** [useState] initial values, [now] being [Date.now()] at the first render. *)
Definition initialState (now : Z) : State :=
  {| messages :=
       [ {| id := 1; role := MODEL;
            text := js "Namaste! Ask me anything. I can check Google Maps for places or Search for news.";
            timestamp := now; isThinking := None; groundingMetadata := None |} ];
     input := []; isLoading := false; useThinking := false |}.

Inductive Tool := googleSearch | googleMaps.

Record Config := {
  thinkingBudget : option Z;
  tools : option (list Tool);
  latLng : option nat
}.

Record Request := {
  model : string;
  contents : list (string * JsString);
  config : Config
}.

Inductive Call :=
| GetCurrentPosition
| GenerateContent (request : Request)
| ConsoleWarn
| ConsoleError.

(** What [response.text] and
    [response.candidates?.[0]?.groundingMetadata] yield. *)
Record Response := {
  responseText : option JsString;
  responseGrounding : option GroundingMetadata
}.

(** What one [handleSend] gets from its environment: the four readings of
    [Date.now()]; whether [navigator.geolocation] is there and, if so, the
    position obtained or none when the request fails or times out; the
    response of [generateContent], or none when the call fails.  (The
    constructor of the client is taken not to throw.) *)
Record Env := {
  userIdTime : Z;
  userTime : Z;
  replyIdTime : Z;
  replyTime : Z;
  geolocation : option (option nat);
  response : option Response
}.

Definition toContent (m : ChatMessage) : string * JsString :=
  (match role m with USER => "user" | MODEL => "model" end, text m).

(** The model, the config and the calls made to build it. *)
Definition prepare (thinking : bool) (e : Env) : string * Config * list Call :=
  if thinking then
    ("gemini-3-pro-preview",
     {| thinkingBudget := Some 32768; tools := None; latLng := None |}, [])
  else
    match geolocation e with
    | None =>
        ("gemini-2.5-flash",
         {| thinkingBudget := None; tools := Some [googleSearch; googleMaps];
            latLng := None |}, [])
    | Some (Some pos) =>
        ("gemini-2.5-flash",
         {| thinkingBudget := None; tools := Some [googleSearch; googleMaps];
            latLng := Some pos |}, [GetCurrentPosition])
    | Some None =>
        ("gemini-2.5-flash",
         {| thinkingBudget := None; tools := Some [googleSearch; googleMaps];
            latLng := None |}, [GetCurrentPosition; ConsoleWarn])
    end.

(** [response.text || "I couldn't generate a text response."] *)
Definition replyText (r : Response) : JsString :=
  match responseText r with
  | Some (c :: t) => c :: t
  | _ => js "I couldn't generate a text response."
  end.

Definition handleSend (e : Env) (s : State) : State * list Call :=
  if bool_decide (trim (input s) = []) || isLoading s then (s, [])
  else
    let userMsg := {| id := userIdTime e; role := USER; text := input s;
                      timestamp := userTime e; isThinking := None;
                      groundingMetadata := None |} in
    let '(model, config, calls) := prepare (useThinking s) e in
    let request := {| model := model; contents := toContent <$> messages s;
                      config := config |} in
    match response e with
    | Some r =>
        let modelMsg := {| id := replyIdTime e + 1; role := MODEL; text := replyText r;
                           timestamp := replyTime e; isThinking := Some (useThinking s);
                           groundingMetadata := responseGrounding r |} in
        ({| messages := messages s ++ [userMsg; modelMsg]; input := [];
            isLoading := false; useThinking := useThinking s |},
         calls ++ [GenerateContent request])
    | None =>
        let errorMsg := {| id := replyIdTime e + 1; role := MODEL;
                           text := js "Sorry, something went wrong. Please try again.";
                           timestamp := replyTime e; isThinking := None;
                           groundingMetadata := None |} in
        ({| messages := messages s ++ [userMsg; errorMsg]; input := [];
            isLoading := false; useThinking := useThinking s |},
         calls ++ [GenerateContent request; ConsoleError])
    end.

(** What the user can do: type, toggle the thinking mode, send. *)
Inductive Action :=
| SetInput (value : JsString)
| ToggleThinking
| Send (e : Env).

Definition act (sc : State * list Call) (a : Action) : State * list Call :=
  let s := sc.1 in
  match a with
  | SetInput value =>
      ({| messages := messages s; input := value; isLoading := isLoading s;
          useThinking := useThinking s |}, sc.2)
  | ToggleThinking =>
      ({| messages := messages s; input := input s; isLoading := isLoading s;
          useThinking := negb (useThinking s) |}, sc.2)
  | Send e => ((handleSend e s).1, sc.2 ++ (handleSend e s).2)
  end.

Definition session (now : Z) (actions : list Action) : State * list Call :=
  foldl act (initialState now, []) actions.

(** The roles of a history that starts with the greeting and goes on in
    turns. *)
Fixpoint turns (n : nat) : list string :=
  match n with
  | O => ["model"]
  | S n' => turns n' ++ ["user"; "model"]
  end.

(** What [renderGroundingSource] renders: nothing, or the Sources block
    with one link (uri, title) per chunk that has [web]. *)
Definition renderGroundingSource (metadata : GroundingMetadata)
  : option (list (JsString * JsString)) :=
  match groundingChunks metadata with
  | None => None
  | Some chunks =>
      let searchChunks := filter (λ c, is_Some (web c)) chunks in
      let mapChunks := filter (λ c, maps c = true) chunks in
      if bool_decide (length searchChunks = O ∧ length mapChunks = O) then None
      else Some (omap web searchChunks)
  end.

End SmartChat.

(** The roles of a history, as they are sent. *)
Definition rolesOf (ms : list SmartChat.ChatMessage) : list string :=
  (λ m, (SmartChat.toContent m).1) <$> ms.

(** Every request of a list of calls. *)
Definition requestsOf (calls : list SmartChat.Call) : list SmartChat.Request :=
  omap (λ c, match c with SmartChat.GenerateContent r => Some r | _ => None end) calls.

(** The roles of the contents of a request. *)
Definition requestRoles (r : SmartChat.Request) : list string :=
  fst <$> SmartChat.contents r.

(** After [n] accepted sends: the history is the greeting and [n] turns,
    no send is in progress, and the request of the send number [i] (from 0)
    carries the greeting and [i] turns. *)
Definition ChatAfter (n : nat) (sc : SmartChat.State * list SmartChat.Call) : Prop :=
  rolesOf (SmartChat.messages sc.1) = SmartChat.turns n ∧
  SmartChat.isLoading sc.1 = false ∧
  requestRoles <$> requestsOf sc.2 = SmartChat.turns <$> seq 0 n.

(** ** The recording of [src/components/PracticeTools.tsx]

    [base64data.split(',')[1]], which takes the data URL produced by the
    [FileReader] apart. *)
Module PracticeTools.

(** [s.split(sep)] for a separator of one code unit. *)
Fixpoint split (sep : N) (s : list N) : list (list N) :=
  match s with
  | [] => [[]]
  | c :: s' =>
      if (c =? sep)%N then [] :: split sep s'
      else match split sep s' with
           | part :: parts => (c :: part) :: parts
           | [] => [[c]]
           end
  end.

(** The comma. *)
Definition comma : N := 44%N.

(** [base64data.split(',')[1]]: [None] is [undefined]. *)
Definition base64Content (base64data : list N) : option (list N) :=
  split comma base64data !! 1%nat.

End PracticeTools.

(** * Properties *)

(** ** Teardown in closed form *)

Lemma set_hostCalls_nil w : set_hostCalls (hostCalls w ++ []) w = w.
Proof. destruct w; unfold set_hostCalls; simpl. by rewrite app_nil_r. Qed.

Lemma forEach_host {A} (f : A → HostCall) (l : list A) (w : World) :
  forEach l (λ x, host (f x)) w
  = Normal (set_hostCalls (hostCalls w ++ (f <$> l)) w).
Proof.
  revert w; induction l as [|x l IH]; intros w; simpl.
  - unfold skip. by rewrite set_hostCalls_nil.
  - unfold andThen, host, effect. rewrite IH. simpl.
    unfold set_hostCalls; simpl. by rewrite <- app_assoc.
Qed.

Lemma forEach_stop (us : list nat) (w : World) :
  forEach us (λ u, tryCatch (source_stop u) (λ _, skip)) w
  = Normal (set_hostCalls
              (hostCalls w ++ (SourceStop <$> filter (λ u, u ∉ stopRaises w) us)) w).
Proof.
  revert w; induction us as [|u us IH]; intros w; simpl.
  - unfold skip. by rewrite set_hostCalls_nil.
  - unfold andThen, tryCatch, source_stop. rewrite filter_cons.
    destruct (decide (u ∈ stopRaises w)) as [Hin|Hout].
    + rewrite decide_False by (intros Hn; by apply Hn). unfold skip. apply IH.
    + rewrite decide_True by done. unfold host, effect. rewrite IH. simpl.
      unfold set_hostCalls; simpl. by rewrite <- app_assoc.
Qed.

Lemma host_eq (h : HostCall) (w : World) :
  host h w = Normal (set_hostCalls (hostCalls w ++ [h]) w).
Proof. reflexivity. Qed.

(** Reduce projections of updated records, and nothing else. *)
Ltac fields :=
  cbn [comp hostCalls nextObject awaitingDecode nextInvocation stopRaises
       isConnected isTalking error inputAudioContextRef outputAudioContextRef
       outputNodeRef streamRef processorRef sourceRef inputAnalyserRef
       outputAnalyserRef sessionRef nextStartTimeRef sourcesRef
       set_comp set_hostCalls set_nextObject set_awaitingDecode set_nextInvocation
       setIsConnected setIsTalking setError set_inputAudioContextRef
       set_outputAudioContextRef set_outputNodeRef set_streamRef set_processorRef
       set_sourceRef set_inputAnalyserRef set_outputAnalyserRef set_sessionRef
       set_nextStartTimeRef set_sourcesRef from_option world_of] in *.

(** Split a membership in a list given by its elements. *)
Ltac members H :=
  repeat (apply elem_of_cons in H as [H|H]); [..|by apply elem_of_nil in H].

(** Evaluate an action on a world whose refs are known. *)
Ltac eval_action :=
  fields;
  repeat (first [ rewrite host_eq | rewrite forEach_host | rewrite forEach_stop ];
          fields).

Lemma cleanupAudio_spec (w : World) :
  cleanupAudio w
  = Normal (set_comp (cleared w) (set_hostCalls (hostCalls w ++ releases w) w)).
Proof.
  destruct w as [c calls nobj aw ninv sr].
  destruct c as [ic it er iac oac onr st pr so ian oan se nx srcs].
  unfold cleanupAudio, releases, stops, cleared, stopSources, andThen, ifSome, store, effect.
  destruct pr as [pr|], so as [so|], st as [st|], iac as [iac|], oac as [oac|];
    eval_action; rewrite <- ?app_assoc; cbn [app]; rewrite ?app_nil_r; reflexivity.
Qed.

(** The one call the [try]/[catch] of [stopSession] results in. *)
Lemma closeSession_caught (p : nat) (o : Settled) (w : World) :
  ∃ h, tryCatch (closeSession p o)
                (λ e, host (ConsoleError "Error closing session" e)) w
       = Normal (set_hostCalls (hostCalls w ++ [h]) w).
Proof. destruct o as [[|]|]; eexists; reflexivity. Qed.

Lemma cleanupAudio_idle_fixpoint (w : World) :
  processorRef w = None → sourceRef w = None → streamRef w = None →
  inputAudioContextRef w = None → outputAudioContextRef w = None →
  sourcesRef w = ∅ →
  cleanupAudio w = Normal w.
Proof.
  intros Hp Hs Hst Hi Ho Hsrc. rewrite cleanupAudio_spec.
  unfold releases, stops, cleared. rewrite Hp, Hs, Hst, Hi, Ho, Hsrc.
  rewrite elements_empty. fields. cbn [app filter fmap list_fmap list_filter].
  destruct w as [c calls nobj aw ninv sr].
  destruct c as [ic it er iac oac onr st pr so ian oan se nx srcs].
  fields. subst. by rewrite app_nil_r.
Qed.

Lemma stopSession_idle_fixpoint (o : Settled) (w : World) :
  Idle w → stopSession o w = Normal w.
Proof.
  intros (Hc & Ht & Hse & Hst & Hi & Ho & Hp & Hs & Hsrc).
  unfold stopSession, andThen, ifSome. rewrite Hse.
  rewrite cleanupAudio_idle_fixpoint by done.
  unfold store, effect.
  destruct w as [c calls nobj aw ninv sr].
  destruct c as [ic it er iac oac onr st pr so ian oan se nx srcs].
  fields. by subst.
Qed.

(** What runs after the [try]/[catch]: identical in [stopSession] and in
    its continuation. *)
Lemma teardown_spec (w : World) :
  ∃ w', (store (set_sessionRef None) >>> cleanupAudio >>>
         store (setIsConnected false) >>> store (setIsTalking false)) w = Normal w' ∧
        Idle w' ∧
        hostCalls w' = hostCalls w ++ releases w.
Proof.
  unfold andThen, store, effect. rewrite cleanupAudio_spec.
  eexists; split; [reflexivity|]. unfold Idle, cleared, releases. fields.
  repeat split; reflexivity.
Qed.

Lemma releases_Released (w w' : World) :
  (∃ pre, hostCalls w' = pre ++ releases w) → Released w w'.
Proof.
  intros [pre Hcalls].
  unfold Released, trackStopped, contextClosed. rewrite Hcalls. unfold releases.
  repeat split.
  - intros s t Hs Ht. rewrite Hs. cbn [from_option].
    rewrite !elem_of_app. right; right; right; left.
    apply list_elem_of_fmap. by exists t.
  - intros c Hc. rewrite Hc. cbn [from_option].
    rewrite !elem_of_app. right; right; right; right; left. apply list_elem_of_here.
  - intros c Hc. rewrite Hc. cbn [from_option].
    rewrite !elem_of_app. do 5 right. left. apply list_elem_of_here.
Qed.

Lemma stopSession_resume_spec (p : nat) (o : Settled) (w : World) :
  ∃ w', stopSession_resume p o w = Normal w' ∧ Idle w' ∧ Released w w'.
Proof.
  unfold stopSession_resume.
  destruct (closeSession_caught p o w) as [h Hh].
  destruct (teardown_spec (set_hostCalls (hostCalls w ++ [h]) w)) as (w' & Hrun & Hidle & Hcalls).
  exists w'. unfold andThen at 1. rewrite Hh. split; [exact Hrun|]. split; [exact Hidle|].
  apply releases_Released. exists (hostCalls w ++ [h]). exact Hcalls.
Qed.

Lemma stopSession_spec (o : Settled) (w : World) :
  ∃ w', stopSession o w = Normal w' ∧ Idle w' ∧ Released w w'.
Proof.
  unfold stopSession, andThen at 1. unfold ifSome.
  destruct (sessionRef w) as [p|] eqn:Hse.
  - destruct (closeSession_caught p o w) as [h Hh].
    unfold andThen at 1. rewrite Hh. unfold store at 1, effect.
    destruct (stopSession_resume_spec p o w) as (w' & Hrun & Hidle & Hrel).
    exists w'. split; [|done].
    unfold stopSession_resume, andThen at 1 in Hrun. rewrite Hh in Hrun. exact Hrun.
  - destruct (teardown_spec w) as (w' & Hrun & Hidle & Hcalls).
    exists w'. split; [|split; [done|]].
    + unfold andThen at 1, store at 1, effect in Hrun.
      replace (set_comp (set_sessionRef None w) w) with w in Hrun; [exact Hrun|].
      destruct w as [c calls nobj aw ninv sr].
      destruct c as [ic it er iac oac onr st pr so ian oan se nx srcs].
      fields. by subst.
    + apply releases_Released. by exists (hostCalls w).
Qed.

(** ** The scheduler, step by step *)

Lemma stopSources_spec (w : World) :
  stopSources w = Normal (set_hostCalls (hostCalls w ++ stops w) w).
Proof. unfold stopSources. by rewrite forEach_stop. Qed.

Lemma handleInterruption_spec (m : Message) (w : World) :
  handleInterruption m w = Normal (if interrupted m then reset w else w).
Proof.
  unfold handleInterruption. destruct (interrupted m); [|reflexivity].
  unfold andThen. by rewrite stopSources_spec.
Qed.

Lemma clampCursor_spec (t : Z) (w : World) :
  clampCursor t w = Normal (clamped t w).
Proof. reflexivity. Qed.

Lemma onmessage_resume_spec (k : Suspended) (d : Z) (w : World) :
  Connects k w →
  onmessage_resume k (AudioBuffer d) w
  = Normal (if interrupted (heldMessage k) then reset (committed d w) else committed d w).
Proof.
  intros (g & Hg & Hctx). unfold onmessage_resume, fresh, andThen at 1.
  unfold andThen at 1, connectToOutput. fields. rewrite Hg, decide_True by done.
  unfold andThen at 1. rewrite host_eq.
  unfold andThen at 1, store at 1, effect. unfold store, effect. fields.
  rewrite handleInterruption_spec. reflexivity.
Qed.

(** The source is created, and [connect] throws: nothing is started, the
    cursor and the Active Playback Set stay, the interruption branch is not
    reached. *)
Lemma onmessage_resume_foreign (k : Suspended) (d : Z) (w : World) (g : GainNode) :
  outputNodeRef w = Some g → nodeContext g ≠ heldCtx k →
  onmessage_resume k (AudioBuffer d) w
  = Abrupt InvalidAccessError (set_nextObject (S (nextObject w)) w).
Proof.
  intros Hg Hctx. unfold onmessage_resume, fresh, andThen, connectToOutput. fields.
  by rewrite Hg, decide_False.
Qed.

Lemma onmessage_resume_unconnected (k : Suspended) (d : Z) (w : World) :
  outputNodeRef w = None →
  onmessage_resume k (AudioBuffer d) w
  = Abrupt TypeError (set_nextObject (S (nextObject w)) w).
Proof.
  intros Hg. unfold onmessage_resume, fresh, andThen, connectToOutput. fields.
  by rewrite Hg.
Qed.

Lemma Connects_dec (k : Suspended) (w : World) : Decision (Connects k w).
Proof.
  destruct (outputNodeRef w) as [g|] eqn:Hg.
  - destruct (decide (nodeContext g = heldCtx k)) as [Heq|Hne].
    + left. by exists g.
    + right. intros (g' & Hg' & Hctx). congruence.
  - right. intros (g' & Hg' & _). congruence.
Defined.

Lemma onmessage_resume_fails (k : Suspended) (w : World) :
  onmessage_resume k DecodeFails w = Abrupt EncodingError w.
Proof. reflexivity. Qed.

(** In a [Ready] world the guard passes for a truthy payload, and the
    source of the invocation can be connected as long as [outputNodeRef] is
    not changed. *)
Lemma audioGuard_Ready (m : Message) (w : World) :
  Ready w → truthy (base64Audio m) = true →
  ∃ ctx, audioGuard m w = Some ctx ∧ outputAudioContextRef w = Some ctx ∧
         ∀ v : World, outputNodeRef v = outputNodeRef w →
                      Connects {| heldMessage := m; heldCtx := ctx |} v.
Proof.
  intros (ctx & g & Hctx & Hg & Hown) Hm. exists ctx.
  unfold audioGuard. rewrite Hm, Hctx, Hg. split; [done|]. split; [done|].
  intros v Hv. exists g. by rewrite Hv.
Qed.

Lemma truthy_audioMessage (s : string) : s ≠ "" → truthy (base64Audio (audioMessage s)) = true.
Proof. intros Hs. cbn. by destruct (String.eqb_spec s ""). Qed.

Lemma audioGuard_audioMessage (s : string) (w : World) :
  Ready w → s ≠ "" → ∃ ctx, audioGuard (audioMessage s) w = Some ctx.
Proof.
  intros Hready Hs.
  destruct (audioGuard_Ready (audioMessage s) w Hready (truthy_audioMessage s Hs))
    as (ctx & Hg & _). by exists ctx.
Qed.

Lemma audioGuard_audioMessage_ctx (s : string) (w : World) :
  Ready w → s ≠ "" → audioGuard (audioMessage s) w = outputAudioContextRef w.
Proof.
  intros Hready Hs.
  destruct (audioGuard_Ready (audioMessage s) w Hready (truthy_audioMessage s Hs))
    as (ctx & Hg & Hctx & _). by rewrite Hg, Hctx.
Qed.

Lemma audioGuard_Some (m : Message) (w : World) (ctx : nat) :
  audioGuard m w = Some ctx →
  truthy (base64Audio m) = true ∧ outputAudioContextRef w = Some ctx ∧
  is_Some (outputNodeRef w).
Proof.
  unfold audioGuard. destruct (truthy (base64Audio m)); [|done].
  destruct (outputAudioContextRef w), (outputNodeRef w); try done.
Qed.

(** One enqueue handled without interleaving. *)
Lemma deliver_enqueue (w : World) (r : Request) :
  Ready w → payload r ≠ "" →
  deliver w (enqueue r) = committed (duration r) (clamped (arrival r) w).
Proof.
  intros Hready Hp. unfold deliver, enqueue, onmessage. cbn [fst snd].
  destruct (audioGuard_Ready (audioMessage (payload r)) w Hready
              (truthy_audioMessage _ Hp)) as (ctx & -> & _ & Hconn).
  unfold andThen. rewrite clampCursor_spec.
  rewrite onmessage_resume_spec by (by apply Hconn). reflexivity.
Qed.

Lemma scheduled_app (w : World) (hs : list HostCall) :
  scheduled (set_hostCalls (hostCalls w ++ hs) w) = scheduled w ++ omap asUnit hs.
Proof. unfold scheduled. fields. apply omap_app. Qed.

Lemma scheduled_committed (d : Z) (w : World) :
  scheduled (committed d w) = scheduled w ++ [unitAt d w].
Proof. unfold scheduled, committed, unitAt. fields. by rewrite omap_app. Qed.

Lemma scheduled_clamped (t : Z) (w : World) : scheduled (clamped t w) = scheduled w.
Proof. reflexivity. Qed.

Lemma scheduled_resumed (h : nat) (w : World) : scheduled (resumed h w) = scheduled w.
Proof. reflexivity. Qed.

Lemma scheduled_suspend (k : Suspended) (w : World) : scheduled (suspend k w) = scheduled w.
Proof. reflexivity. Qed.

Lemma omap_stops (w : World) : omap asUnit (stops w) = [].
Proof. unfold stops. induction (filter _ _) as [|u us IH]; [done|]. exact IH. Qed.

Lemma scheduled_reset (w : World) : scheduled (reset w) = scheduled w.
Proof.
  unfold scheduled, reset. fields. by rewrite omap_app, omap_stops, app_nil_r.
Qed.

Lemma Ready_committed (d : Z) (w : World) : Ready (committed d w) ↔ Ready w.
Proof. reflexivity. Qed.

Lemma Ready_clamped (t : Z) (w : World) : Ready (clamped t w) ↔ Ready w.
Proof. reflexivity. Qed.

Lemma Ready_reset (w : World) : Ready (reset w) ↔ Ready w.
Proof. reflexivity. Qed.

(** ** Enqueues handled one after the other follow the plan *)

Lemma plan_length (c : Z) (rs : list Request) : length (plan c rs) = length rs.
Proof. revert c; induction rs as [|r rs IH]; intros c; simpl; [done|]. by rewrite IH. Qed.

Lemma plan_head (c : Z) (rs : list Request) (sd : Z * Z) (r : Request) :
  plan c rs !! 0%nat = Some sd → rs !! 0%nat = Some r →
  sd = (Z.max c (arrival r), duration r).
Proof. destruct rs as [|r' rs]; simpl; [done|]. by intros [= <-] [= <-]. Qed.

Lemma plan_duration (c : Z) (rs : list Request) (i : nat) (sd : Z * Z) (r : Request) :
  plan c rs !! i = Some sd → rs !! i = Some r → sd.2 = duration r.
Proof.
  revert c i; induction rs as [|r' rs IH]; intros c i; [done|].
  destruct i as [|i]; simpl.
  - by intros [= <-] [= <-].
  - apply IH.
Qed.

Lemma plan_next (c : Z) (rs : list Request) (i : nat) (a b : Z * Z) (r : Request) :
  plan c rs !! i = Some a → plan c rs !! S i = Some b → rs !! S i = Some r →
  b.1 = Z.max (a.1 + a.2) (arrival r).
Proof.
  revert c i; induction rs as [|r' rs IH]; intros c i; [done|].
  destruct i as [|i]; simpl.
  - intros [= <-] Hb Hr. simpl.
    by rewrite (plan_head _ _ _ _ Hb Hr).
  - apply IH.
Qed.

Lemma deliverAll_cons (x : Message * Z * Decoded) xs (w : World) :
  deliverAll (x :: xs) w = deliverAll xs (deliver w x).
Proof. reflexivity. Qed.

Lemma deliverAll_plan (rs : list Request) (w : World) :
  Ready w → Forall (λ r, payload r ≠ "") rs →
  let w' := deliverAll (enqueue <$> rs) w in
  Ready w' ∧
  timing <$> scheduled w' = (timing <$> scheduled w) ++ plan (nextStartTimeRef w) rs ∧
  nextStartTimeRef w' = planEnd (nextStartTimeRef w) rs.
Proof.
  revert w; induction rs as [|r rs IH]; intros w Hready Hrs; cbv zeta.
  - simpl. by rewrite app_nil_r.
  - apply Forall_cons in Hrs as [Hr Hrs].
    rewrite fmap_cons, deliverAll_cons, deliver_enqueue by done.
    set (w1 := committed (duration r) (clamped (arrival r) w)).
    destruct (IH w1) as (Hready' & Hplan & Hend); [done|done|].
    split; [exact Hready'|]. split.
    + rewrite Hplan. unfold w1. rewrite scheduled_committed, scheduled_clamped, fmap_app.
      by rewrite <- app_assoc.
    + exact Hend.
Qed.

Lemma newUnits_plan (rs : list Request) (w : World) :
  Ready w → Forall (λ r, payload r ≠ "") rs →
  timing <$> newUnits w (deliverAll (enqueue <$> rs) w) = plan (nextStartTimeRef w) rs.
Proof.
  intros Hready Hrs. destruct (deliverAll_plan rs w Hready Hrs) as (_ & Hplan & _).
  unfold newUnits. rewrite fmap_drop, Hplan.
  rewrite <- (length_fmap timing). by rewrite drop_app_length.
Qed.

Lemma lookup_timing (us : list PlaybackUnit) (i : nat) (a : PlaybackUnit) :
  us !! i = Some a → (timing <$> us) !! i = Some (unitStart a, unitDuration a).
Proof. intros H. by rewrite list_lookup_fmap, H. Qed.

(** C1, as amended: enqueues processed one after the other are chained
    without overlap.  Every request is scheduled; the first unit starts at
    the maximum of the cursor and the output clock read at arrival; each
    later unit starts at the maximum of the previous unit's end and its own
    clock reading, so it never starts before the previous unit has ended,
    and the gap between them is exactly the time by which the payload
    arrived after that end (zero when it arrived before); the cursor ends
    at the end of the last unit. *)
Theorem enqueue_schedule (w : World) (rs : list Request) :
  Ready w → Forall (λ r, payload r ≠ "") rs →
  let w' := deliverAll (enqueue <$> rs) w in
  let us := newUnits w w' in
  length us = length rs ∧
  (∀ a r, us !! 0%nat = Some a → rs !! 0%nat = Some r →
          unitStart a = Z.max (nextStartTimeRef w) (arrival r)) ∧
  (∀ i a r, us !! i = Some a → rs !! i = Some r → unitDuration a = duration r) ∧
  (∀ i a b r, us !! i = Some a → us !! S i = Some b → rs !! S i = Some r →
              unitStart b = Z.max (unitEnd a) (arrival r) ∧
              unitEnd a ≤ unitStart b ∧
              unitStart b - unitEnd a = Z.max 0 (arrival r - unitEnd a)) ∧
  nextStartTimeRef w' = planEnd (nextStartTimeRef w) rs.
Proof.
  intros Hready Hrs w' us.
  pose proof (newUnits_plan rs w Hready Hrs) as Hplan. fold w' in Hplan. fold us in Hplan.
  split; [|split; [|split; [|split]]].
  - by rewrite <- (length_fmap timing), Hplan, plan_length.
  - intros a r Ha Hr. apply lookup_timing in Ha. rewrite Hplan in Ha.
    by pose proof (plan_head _ _ _ _ Ha Hr) as [= -> _].
  - intros i a r Ha Hr. apply lookup_timing in Ha. rewrite Hplan in Ha.
    exact (plan_duration _ _ _ _ _ Ha Hr).
  - intros i a b r Ha Hb Hr. apply lookup_timing in Ha, Hb. rewrite Hplan in Ha, Hb.
    pose proof (plan_next _ _ _ _ _ _ Ha Hb Hr) as Hn. simpl in Hn.
    unfold unitEnd. lia.
  - by destruct (deliverAll_plan rs w Hready Hrs) as (_ & _ & Hend).
Qed.

(** [Ready], for a world given in full. *)
Ltac ready_by_computation :=
  eexists _, _; split; [vm_compute; reflexivity|];
  split; [vm_compute; reflexivity|reflexivity].

Lemma liveWorld_Ready : Ready liveWorld.
Proof. ready_by_computation. Qed.

Lemma liveWorld_fresh :
  nextStartTimeRef liveWorld = 0 ∧ scheduled liveWorld = [] ∧ sourcesRef liveWorld = ∅ ∧
  awaitingDecode liveWorld = ∅.
Proof. repeat split; vm_compute; reflexivity. Qed.

Lemma scenarioAB_payloads : Forall (λ r, payload r ≠ "") scenarioAB.
Proof. repeat constructor; discriminate. Qed.

(** The scenario of the specification: A is scheduled at 0.0 and B at 1.0
    (not 0.2); the cursor ends at 1.5. *)
Example scenarioAB_schedule :
  timing <$> scheduled (deliverAll (enqueue <$> scenarioAB) liveWorld)
  = [(0, 24000); (24000, 12000)] ∧
  nextStartTimeRef (deliverAll (enqueue <$> scenarioAB) liveWorld) = 36000.
Proof. split; vm_compute; reflexivity. Qed.

Lemma enqueue_schedule_witness :
  Ready liveWorld ∧ Forall (λ r, payload r ≠ "") scenarioAB ∧
  length (newUnits liveWorld (deliverAll (enqueue <$> scenarioAB) liveWorld))
  = length scenarioAB.
Proof.
  split; [exact liveWorld_Ready|]. split; [exact scenarioAB_payloads|].
  exact (proj1 (enqueue_schedule liveWorld scenarioAB liveWorld_Ready scenarioAB_payloads)).
Defined.

(** Two enqueues in a row, in closed form. *)
Lemma two_enqueues (w : World) (r1 r2 : Request) :
  Ready w → payload r1 ≠ "" → payload r2 ≠ "" →
  ∃ a b, newUnits w (deliverAll [enqueue r1; enqueue r2] w) = [a; b] ∧
         unitEnd a = Z.max (nextStartTimeRef w) (arrival r1) + duration r1 ∧
         unitStart b = Z.max (unitEnd a) (arrival r2).
Proof.
  intros Hready H1 H2.
  rewrite !deliverAll_cons, (deliver_enqueue w r1) by done.
  set (w1 := committed (duration r1) (clamped (arrival r1) w)).
  rewrite (deliver_enqueue w1 r2) by done.
  exists (unitAt (duration r1) (clamped (arrival r1) w)),
         (unitAt (duration r2) (clamped (arrival r2) w1)).
  split; [|done].
  unfold newUnits, deliverAll. cbn [foldl].
  rewrite scheduled_committed, scheduled_clamped. unfold w1.
  rewrite scheduled_committed, scheduled_clamped, <- app_assoc.
  by rewrite drop_app_length.
Qed.

(** C1, as stated, fails: no bound on the gap between consecutive units
    holds for all sequences of enqueues.  A payload that arrives after the
    previous unit has ended starts at the output clock, however late. *)
Lemma gap_not_bounded :
  ¬ ∃ epsilon : Z, ∀ (rs : list Request) (i : nat) (a b : PlaybackUnit),
      Forall (λ r, payload r ≠ "") rs →
      newUnits liveWorld (deliverAll (enqueue <$> rs) liveWorld) !! i = Some a →
      newUnits liveWorld (deliverAll (enqueue <$> rs) liveWorld) !! S i = Some b →
      unitStart b - unitEnd a < epsilon.
Proof.
  intros [epsilon Hbound].
  set (r1 := {| payload := "QQ=="; arrival := 0; duration := 24000 |}).
  set (r2 := {| payload := "Qg=="; arrival := 24000 + Z.max epsilon 0; duration := 12000 |}).
  destruct (two_enqueues liveWorld r1 r2 liveWorld_Ready) as (a & b & Hus & Ha & Hb);
    [discriminate|discriminate|].
  destruct liveWorld_fresh as (Hcursor & _).
  rewrite Hcursor in Ha. cbn [r1 r2 arrival duration] in Ha, Hb.
  specialize (Hbound [r1; r2] O a b).
  cbn [fmap list_fmap] in Hbound. rewrite Hus in Hbound.
  specialize (Hbound ltac:(repeat constructor; discriminate) eq_refl eq_refl).
  lia.
Qed.

(** ** Interruption *)

Lemma reset_withCursor (c : Z) (w : World) : reset (withCursor c w) = reset w.
Proof. reflexivity. Qed.


Lemma newUnits_one (w : World) (q : Request) :
  Ready w → payload q ≠ "" →
  newUnits w (deliver w (enqueue q))
  = [ {| unitSource := nextObject w;
         unitStart := Z.max (nextStartTimeRef w) (arrival q);
         unitDuration := duration q |} ].
Proof.
  intros Hready Hq. rewrite deliver_enqueue by done.
  unfold newUnits. rewrite scheduled_committed, scheduled_clamped.
  by rewrite drop_app_length.
Qed.

Lemma stop_logged (u : nat) (w : World) :
  u ∈ sourcesRef w → u ∉ stopRaises w → SourceStop u ∈ stops w.
Proof.
  intros Hin Hok. unfold stops. apply list_elem_of_fmap. exists u. split; [done|].
  apply list_elem_of_filter. split; [done|]. by apply elem_of_elements.
Qed.





Lemma interruptedWorld_Ready : Ready interruptedWorld.
Proof. ready_by_computation. Qed.


(** The third scenario of the specification: A is scheduled, an
    interruption arrives at output clock 0.3 (A is stopped, the set is
    empty, the cursor is 0), then C (0.4 s) is enqueued at 0.3: C starts at
    max(0, 0.3) = 0.3. *)
Example scenario_interruption :
  SourceStop 8 ∈ hostCalls interruptedWorld ∧
  timing <$> newUnits interruptedWorld
               (deliver interruptedWorld
                  (enqueue {| payload := "Qw=="; arrival := 7200; duration := 9600 |}))
  = [(7200, 9600)].
Proof.
  split; [|vm_compute; reflexivity].
  apply list_elem_of_In. vm_compute. auto 10.
Qed.

(** ** The event loop, turn by turn *)

Lemma step_Arrive_audio (m : Message) (t : Z) (w : World) (ctx : nat) :
  audioGuard m w = Some ctx →
  step w (Arrive m t) = suspend {| heldMessage := m; heldCtx := ctx |} (clamped t w).
Proof. intros Hg. unfold step. by rewrite Hg. Qed.

Lemma step_Arrive_other (m : Message) (t : Z) (w : World) :
  audioGuard m w = None →
  step w (Arrive m t) = if interrupted m then reset w else w.
Proof.
  intros Hg. unfold step. rewrite Hg, handleInterruption_spec. reflexivity.
Qed.

Lemma step_Settle_none (h : nat) (r : Decoded) (w : World) :
  awaitingDecode w !! h = None → step w (Settle h r) = w.
Proof. intros Hh. unfold step. by rewrite Hh. Qed.

Lemma step_Settle_fails (h : nat) (k : Suspended) (w : World) :
  awaitingDecode w !! h = Some k → step w (Settle h DecodeFails) = resumed h w.
Proof. intros Hh. unfold step. by rewrite Hh. Qed.

Lemma step_Settle_decoded (h : nat) (k : Suspended) (d : Z) (w : World) :
  awaitingDecode w !! h = Some k → Connects k w →
  step w (Settle h (AudioBuffer d))
  = if interrupted (heldMessage k) then reset (committed d (resumed h w))
    else committed d (resumed h w).
Proof.
  intros Hh Hn. unfold step. rewrite Hh. fold (resumed h w).
  by rewrite onmessage_resume_spec.
Qed.

(** The source of the invocation cannot be connected: [outputNodeRef] is
    null, or holds the gain node of another context.  The source is
    created and [connect] throws. *)
Lemma onmessage_resume_dropped (k : Suspended) (d : Z) (w : World) :
  ¬ Connects k w →
  ∃ e, onmessage_resume k (AudioBuffer d) w
       = Abrupt e (set_nextObject (S (nextObject w)) w).
Proof.
  intros Hnot. destruct (outputNodeRef w) as [g|] eqn:Hg.
  - exists InvalidAccessError. apply (onmessage_resume_foreign _ _ _ g Hg).
    intros Hown. apply Hnot. by exists g.
  - exists TypeError. by apply onmessage_resume_unconnected.
Qed.

Lemma step_Settle_dropped (h : nat) (k : Suspended) (d : Z) (w : World) :
  awaitingDecode w !! h = Some k → ¬ Connects k w →
  step w (Settle h (AudioBuffer d)) = set_nextObject (S (nextObject w)) (resumed h w).
Proof.
  intros Hh Hnot. unfold step. rewrite Hh. fold (resumed h w).
  destruct (onmessage_resume_dropped k d (resumed h w)) as [e ->]; done.
Qed.

Lemma step_SourceEnded (u : nat) (w : World) :
  step w (SourceEnded u) = set_comp (set_sourcesRef (sourcesRef w ∖ {[u]}) w) w.
Proof. reflexivity. Qed.

Lemma run_cons (e : Event) (es : list Event) (w : World) :
  run (e :: es) w = run es (step w e).
Proof. reflexivity. Qed.

(** Handling a message with nothing in between is a run of the loop in
    which the decode settles at once: same component, same host calls. *)
Lemma deliver_as_run (m : Message) (t : Z) (r : Decoded) (w : World) :
  awaitingDecode w !! nextInvocation w = None →
  let w' := run [Arrive m t; Settle (nextInvocation w) r] w in
  comp w' = comp (deliver w (m, t, r)) ∧
  hostCalls w' = hostCalls (deliver w (m, t, r)) ∧
  nextObject w' = nextObject (deliver w (m, t, r)) ∧
  awaitingDecode w' = awaitingDecode w.
Proof.
  intros Hfresh. cbv zeta. rewrite !run_cons. unfold deliver, onmessage. cbn [fst snd].
  destruct (audioGuard m w) as [ctx|] eqn:Hg.
  - rewrite (step_Arrive_audio m t w ctx Hg).
    set (k := {| heldMessage := m; heldCtx := ctx |}).
    assert (awaitingDecode (suspend k (clamped t w)) !! nextInvocation w = Some k) as Hk.
    { unfold suspend, clamped. fields. by rewrite lookup_insert_eq. }
    assert (delete (nextInvocation w) (<[nextInvocation w := k]> (awaitingDecode w))
            = awaitingDecode w) as Hdel.
    { rewrite delete_insert_eq. by apply delete_id. }
    unfold andThen. rewrite clampCursor_spec. destruct r as [d|].
    + destruct (Connects_dec k (clamped t w)) as [Hconn|Hnot].
      * rewrite (step_Settle_decoded _ k) by done.
        rewrite onmessage_resume_spec by done. cbn [k heldMessage run foldl].
        destruct (interrupted m); unfold reset, stops, committed, resumed, suspend, clamped;
          fields; by rewrite Hdel.
      * rewrite (step_Settle_dropped _ k) by done.
        destruct (onmessage_resume_dropped k d (clamped t w) Hnot) as [e ->].
        cbn [run foldl]. unfold resumed, suspend, clamped. fields. by rewrite Hdel.
    + rewrite (step_Settle_fails _ k _ Hk), onmessage_resume_fails.
      cbn [run foldl]. unfold resumed, suspend, clamped. fields. by rewrite Hdel.
  - rewrite (step_Arrive_other m t w Hg), handleInterruption_spec.
    destruct (interrupted m).
    + rewrite step_Settle_none by exact Hfresh. done.
    + rewrite step_Settle_none by exact Hfresh. done.
Qed.

(** ** Chaining in commit order *)

Lemma Chained_snoc (us : list PlaybackUnit) (u : PlaybackUnit) :
  Chained us → (∀ a, last us = Some a → unitEnd a ≤ unitStart u) →
  Chained (us ++ [u]).
Proof.
  intros Hus Hlast i a b Ha Hb.
  destruct (decide (S i < length us)%nat) as [Hlt|Hge].
  - rewrite lookup_app_l in Ha by lia. rewrite lookup_app_l in Hb by lia. eauto.
  - assert (S i = length us) as Hi.
    { apply lookup_lt_Some in Hb. rewrite length_app in Hb. simpl in Hb. lia. }
    rewrite lookup_app_l in Ha by lia.
    rewrite lookup_app_r in Hb by lia.
    replace (S i - length us)%nat with O in Hb by lia. injection Hb as <-.
    apply Hlast. rewrite last_lookup, <- Hi. exact Ha.
Qed.

Lemma ChainedUpTo_later (us : list PlaybackUnit) (c c' : Z) :
  c ≤ c' → ChainedUpTo us c → ChainedUpTo us c'.
Proof. intros Hle [Hch Hlast]. split; [done|]. intros u Hu. specialize (Hlast u Hu). lia. Qed.

Lemma ChainedUpTo_commit (us : list PlaybackUnit) (u : PlaybackUnit) :
  ChainedUpTo us (unitStart u) → ChainedUpTo (us ++ [u]) (unitEnd u).
Proof.
  intros [Hch Hlast]. split.
  - by apply Chained_snoc.
  - intros a. rewrite last_snoc. intros [= <-]. lia.
Qed.

(** What one turn without interruption does to the schedule and the
    cursor: nothing is scheduled and the cursor does not go back, or one
    unit is scheduled at the cursor and the cursor moves to its end. *)
Lemma step_quiet (w : World) (e : Event) :
  Uninterrupted [e] w →
  Uninterrupted [] (step w e) ∧
  ((scheduled (step w e) = scheduled w ∧
    nextStartTimeRef w ≤ nextStartTimeRef (step w e)) ∨
   (∃ u, scheduled (step w e) = scheduled w ++ [u] ∧
         unitStart u = nextStartTimeRef w ∧
         nextStartTimeRef (step w e) = unitEnd u)).
Proof.
  intros [He Hpending]. apply Forall_cons in He as [He _].
  destruct e as [m t|h r|u].
  - simpl in He. apply negb_true_iff in He.
    destruct (audioGuard m w) as [ctx|] eqn:Hg.
    + rewrite (step_Arrive_audio m t w ctx Hg). split.
      * split; [constructor|]. unfold suspend, clamped. fields.
        intros h k. destruct (decide (h = nextInvocation w)) as [->|Hne].
        -- rewrite lookup_insert_eq. by intros [= <-].
        -- rewrite lookup_insert_ne by done. apply Hpending.
      * left. split; [reflexivity|]. unfold suspend, clamped. fields. lia.
    + rewrite (step_Arrive_other m t w Hg), He. split; [by split|]. left. split; [done|lia].
  - destruct (awaitingDecode w !! h) as [k|] eqn:Hh.
    + assert (Uninterrupted [] (resumed h w)) as Hres.
      { split; [constructor|]. unfold resumed. fields. intros h' k' Hk'.
        apply lookup_delete_Some in Hk' as [_ Hk']. eauto. }
      destruct r as [d|].
      * destruct (Connects_dec k w) as [Hconn|Hnot].
        -- rewrite (step_Settle_decoded h k d w Hh Hconn).
           rewrite (Hpending h k Hh). split; [exact Hres|].
           right. exists (unitAt d (resumed h w)). by rewrite scheduled_committed.
        -- rewrite (step_Settle_dropped h k d w Hh Hnot).
           split; [exact Hres|]. left. split; [reflexivity|]. unfold resumed. fields. lia.
      * rewrite (step_Settle_fails h k w Hh). split; [exact Hres|].
        left. split; [reflexivity|]. unfold resumed. fields. lia.
    + rewrite (step_Settle_none h r w Hh). split; [by split|]. left. split; [done|lia].
  - rewrite step_SourceEnded. split; [by split|]. left. split; [reflexivity|]. fields. lia.
Qed.

Lemma run_chained (es : list Event) (w : World) (old new : list PlaybackUnit) :
  Uninterrupted es w → scheduled w = old ++ new →
  ChainedUpTo new (nextStartTimeRef w) →
  ∃ new', scheduled (run es w) = old ++ new' ∧
          ChainedUpTo new' (nextStartTimeRef (run es w)).
Proof.
  revert w new; induction es as [|e es IH]; intros w new [Hes Hpending] Hsched Hinv.
  - by exists new.
  - apply Forall_cons in Hes as [He Hes]. rewrite run_cons.
    destruct (step_quiet w e) as ([_ Hpending'] & Hstep).
    { split; [by repeat constructor|done]. }
    destruct Hstep as [[Hsame Hle]|(u & Hadd & Hstart & Hend)].
    + apply (IH _ new); [by split|by rewrite Hsame|].
      by apply (ChainedUpTo_later _ (nextStartTimeRef w)).
    + apply (IH _ (new ++ [u])); [by split|by rewrite Hadd, Hsched, app_assoc|].
      rewrite Hend. apply ChainedUpTo_commit. by rewrite Hstart.
Qed.

(** Two payloads arrive before either decode has settled. *)
Lemma two_arrivals (w : World) (pA pB : string) (tA tB : Z) (es : list Event) :
  Ready w → pA ≠ "" → pB ≠ "" →
  ∃ ctx,
    (∀ (m : Message) (v : World), outputNodeRef v = outputNodeRef w →
                                  Connects {| heldMessage := m; heldCtx := ctx |} v) ∧
    run (Arrive (audioMessage pA) tA :: Arrive (audioMessage pB) tB :: es) w
    = run es (suspend {| heldMessage := audioMessage pB; heldCtx := ctx |}
                (clamped tB
                   (suspend {| heldMessage := audioMessage pA; heldCtx := ctx |}
                      (clamped tA w)))).
Proof.
  intros Hready HA HB.
  destruct (audioGuard_audioMessage pA w Hready HA) as [ctx Hg].
  exists ctx. split.
  - destruct Hready as (ctx' & g & Hctx & Hgain & Hown). intros m v Hv. exists g.
    rewrite Hv. split; [done|]. cbn [heldCtx].
    rewrite audioGuard_audioMessage_ctx in Hg by (by exists ctx', g || done). congruence.
  - rewrite run_cons, (step_Arrive_audio _ _ _ ctx Hg).
    rewrite run_cons, (step_Arrive_audio _ _ _ ctx); [done|].
    rewrite audioGuard_audioMessage_ctx in Hg by done.
    rewrite audioGuard_audioMessage_ctx by done. exact Hg.
Qed.

Lemma decodes_in_order (w : World) (pA pB : string) (tA tB dA dB : Z) :
  Ready w → pA ≠ "" → pB ≠ "" →
  newUnits w (run [Arrive (audioMessage pA) tA; Arrive (audioMessage pB) tB;
                   Settle (nextInvocation w) (AudioBuffer dA);
                   Settle (S (nextInvocation w)) (AudioBuffer dB)] w)
  = [ {| unitSource := nextObject w;
         unitStart := Z.max (Z.max (nextStartTimeRef w) tA) tB;
         unitDuration := dA |};
      {| unitSource := S (nextObject w);
         unitStart := Z.max (Z.max (nextStartTimeRef w) tA) tB + dA;
         unitDuration := dB |} ].
Proof.
  intros Hready HA HB.
  destruct (two_arrivals w pA pB tA tB
              [Settle (nextInvocation w) (AudioBuffer dA);
               Settle (S (nextInvocation w)) (AudioBuffer dB)] Hready HA HB)
    as (ctx & Hconn & ->).
  set (kA := {| heldMessage := audioMessage pA; heldCtx := ctx |}).
  set (kB := {| heldMessage := audioMessage pB; heldCtx := ctx |}).
  set (w2 := suspend kB (clamped tB (suspend kA (clamped tA w)))).
  rewrite run_cons, (step_Settle_decoded _ kA); [| |by apply Hconn].
  2:{ unfold w2, suspend, clamped. fields. rewrite lookup_insert_ne by lia.
      by rewrite lookup_insert_eq. }
  cbn [kA heldMessage audioMessage interrupted].
  set (w3 := committed dA (resumed (nextInvocation w) w2)).
  rewrite run_cons, (step_Settle_decoded _ kB); [| |by apply Hconn].
  2:{ unfold w3, committed, resumed, w2, suspend, clamped. fields.
      rewrite lookup_delete_ne by lia. by rewrite lookup_insert_eq. }
  cbn [kB heldMessage audioMessage interrupted run foldl].
  unfold newUnits. rewrite scheduled_committed, scheduled_resumed. unfold w3 at 1.
  rewrite scheduled_committed, scheduled_resumed. unfold w2 at 1.
  rewrite !scheduled_suspend, !scheduled_clamped.
  rewrite <- app_assoc, drop_app_length. reflexivity.
Qed.

Lemma decodes_reversed (w : World) (pA pB : string) (tA tB dA dB : Z) :
  Ready w → pA ≠ "" → pB ≠ "" →
  newUnits w (run [Arrive (audioMessage pA) tA; Arrive (audioMessage pB) tB;
                   Settle (S (nextInvocation w)) (AudioBuffer dB);
                   Settle (nextInvocation w) (AudioBuffer dA)] w)
  = [ {| unitSource := nextObject w;
         unitStart := Z.max (Z.max (nextStartTimeRef w) tA) tB;
         unitDuration := dB |};
      {| unitSource := S (nextObject w);
         unitStart := Z.max (Z.max (nextStartTimeRef w) tA) tB + dB;
         unitDuration := dA |} ].
Proof.
  intros Hready HA HB.
  destruct (two_arrivals w pA pB tA tB
              [Settle (S (nextInvocation w)) (AudioBuffer dB);
               Settle (nextInvocation w) (AudioBuffer dA)] Hready HA HB)
    as (ctx & Hconn & ->).
  set (kA := {| heldMessage := audioMessage pA; heldCtx := ctx |}).
  set (kB := {| heldMessage := audioMessage pB; heldCtx := ctx |}).
  set (w2 := suspend kB (clamped tB (suspend kA (clamped tA w)))).
  rewrite run_cons, (step_Settle_decoded _ kB); [| |by apply Hconn].
  2:{ unfold w2, suspend, clamped. fields. by rewrite lookup_insert_eq. }
  cbn [kB heldMessage audioMessage interrupted].
  set (w3 := committed dB (resumed (S (nextInvocation w)) w2)).
  rewrite run_cons, (step_Settle_decoded _ kA); [| |by apply Hconn].
  2:{ unfold w3, committed, resumed, w2, suspend, clamped. fields.
      rewrite lookup_delete_ne by lia. rewrite lookup_insert_ne by lia.
      by rewrite lookup_insert_eq. }
  cbn [kA heldMessage audioMessage interrupted run foldl].
  unfold newUnits. rewrite scheduled_committed, scheduled_resumed. unfold w3 at 1.
  rewrite scheduled_committed, scheduled_resumed. unfold w2 at 1.
  rewrite !scheduled_suspend, !scheduled_clamped.
  rewrite <- app_assoc, drop_app_length. reflexivity.
Qed.

Lemma run_quiet_chained (w : World) (es : list Event) :
  Uninterrupted es w → Chained (newUnits w (run es w)).
Proof.
  intros Hes.
  destruct (run_chained es w (scheduled w) [] Hes) as (new & Hsched & Hch & _).
  - by rewrite app_nil_r.
  - split; [intros i a b Ha; by rewrite lookup_nil in Ha|done].
  - unfold newUnits. by rewrite Hsched, drop_app_length.
Qed.

(** C3, as amended: the cursor is read and advanced without suspension
    when a decode settles, so units are serialized in the order their
    decodes complete, not in the order of their enqueues.  In every
    interleaving without interruption each unit starts no earlier than the
    end of the unit committed just before it.  Of two enqueues A then B: if
    A's decode settles first, A's unit is scheduled first and its start is
    not later than B's (its duration being non-negative); if B's decode
    settles first, B's unit is scheduled first and A's starts at B's end. *)
Theorem commit_order (w : World) (es : list Event)
    (pA pB : string) (tA tB dA dB : Z) :
  Uninterrupted es w → Ready w → pA ≠ "" → pB ≠ "" → 0 ≤ dA →
  Chained (newUnits w (run es w)) ∧
  (∃ a b, newUnits w (run [Arrive (audioMessage pA) tA; Arrive (audioMessage pB) tB;
                           Settle (nextInvocation w) (AudioBuffer dA);
                           Settle (S (nextInvocation w)) (AudioBuffer dB)] w) = [a; b] ∧
          unitDuration a = dA ∧ unitDuration b = dB ∧
          unitEnd a = unitStart b ∧ unitStart a ≤ unitStart b) ∧
  (∃ a b, newUnits w (run [Arrive (audioMessage pA) tA; Arrive (audioMessage pB) tB;
                           Settle (S (nextInvocation w)) (AudioBuffer dB);
                           Settle (nextInvocation w) (AudioBuffer dA)] w) = [b; a] ∧
          unitDuration a = dA ∧ unitDuration b = dB ∧
          unitStart a = unitEnd b).
Proof.
  intros Hes Hready HA HB HdA. split; [by apply run_quiet_chained|]. split.
  - eexists _, _. split; [by apply decodes_in_order|].
    unfold unitEnd. cbn. repeat split; lia.
  - eexists _, _. split; [by apply decodes_reversed|].
    unfold unitEnd. cbn. repeat split; lia.
Qed.

Lemma lateDecode_Uninterrupted : Uninterrupted lateDecode liveWorld.
Proof.
  split; [by repeat constructor|].
  destruct liveWorld_fresh as (_ & _ & _ & ->). intros h k Hk.
  by rewrite lookup_empty in Hk.
Qed.

Lemma commit_order_witness :
  Uninterrupted lateDecode liveWorld ∧ Ready liveWorld ∧
  Chained (newUnits liveWorld (run lateDecode liveWorld)).
Proof.
  split; [exact lateDecode_Uninterrupted|]. split; [exact liveWorld_Ready|].
  refine (proj1 (commit_order liveWorld lateDecode "QQ==" "Qg==" 0 0 24000 12000
                   lateDecode_Uninterrupted liveWorld_Ready _ _ _));
    [discriminate|discriminate|lia].
Defined.

(** C3, as stated, fails: A (duration 24000) is enqueued before B
    (duration 12000), B's decode settles first, and A's unit is scheduled
    later than B's. *)
Lemma late_decode_scheduled_later :
  ∃ a b, newUnits liveWorld (run lateDecode liveWorld) = [b; a] ∧
         unitDuration a = 24000 ∧ unitDuration b = 12000 ∧
         ¬ unitStart a ≤ unitStart b.
Proof.
  eexists _, _. split; [vm_compute; reflexivity|]. cbn. repeat split; lia.
Qed.

(** ** Interruption against pending decodes *)

Lemma step_interruption (m : Message) (t : Z) (w : World) :
  interrupted m = true → audioGuard m w = None → step w (Arrive m t) = reset w.
Proof. intros Hm Hg. by rewrite step_Arrive_other, Hm. Qed.

Lemma enqueue_after (w : World) (p : string) (t d : Z) :
  Ready w → p ≠ "" →
  newUnits w (run [Arrive (audioMessage p) t;
                   Settle (nextInvocation w) (AudioBuffer d)] w)
  = [ {| unitSource := nextObject w;
         unitStart := Z.max (nextStartTimeRef w) t;
         unitDuration := d |} ].
Proof.
  intros Hready Hp.
  destruct (audioGuard_Ready (audioMessage p) w Hready (truthy_audioMessage p Hp))
    as (ctx & Hg & _ & Hconn).
  rewrite run_cons, (step_Arrive_audio _ _ _ ctx Hg).
  set (k := {| heldMessage := audioMessage p; heldCtx := ctx |}).
  rewrite run_cons, (step_Settle_decoded _ k); [| |by apply Hconn].
  2:{ unfold suspend, clamped. fields. by rewrite lookup_insert_eq. }
  cbn [k heldMessage audioMessage interrupted run foldl].
  unfold newUnits.
  rewrite scheduled_committed, scheduled_resumed, scheduled_suspend, scheduled_clamped.
  by rewrite drop_app_length.
Qed.

(** C4, as amended: the interruption branch runs within one turn of the
    event loop and leaves an empty Active Playback Set and cursor 0, and
    nothing that runs later depends on the cursor it found.  It does not
    cancel the invocations suspended at their decode: such a unit is
    committed when its decode settles (its source connecting to the gain
    node of the context its handler bound), at the cursor it finds then (0
    right after the reset), joins the Active Playback Set and advances the
    cursor.
    A unit enqueued after the reset starts at max(0, output clock) when no
    other decode settles between the reset and its own commit. *)
Theorem interruption_atomic (m : Message) (t : Z) (w : World) :
  interrupted m = true → audioGuard m w = None →
  let w1 := step w (Arrive m t) in
  sourcesRef w1 = ∅ ∧ nextStartTimeRef w1 = 0 ∧
  awaitingDecode w1 = awaitingDecode w ∧
  (∀ c es, run es (step (withCursor c w) (Arrive m t)) = run es w1) ∧
  (∀ h k d, awaitingDecode w !! h = Some k → interrupted (heldMessage k) = false →
            Connects k w →
            let w2 := step w1 (Settle h (AudioBuffer d)) in
            newUnits w1 w2
            = [ {| unitSource := nextObject w; unitStart := 0; unitDuration := d |} ] ∧
            sourcesRef w2 = {[ nextObject w ]} ∧ nextStartTimeRef w2 = d) ∧
  (∀ p t' d, Ready w → p ≠ "" →
             newUnits w1 (run [Arrive (audioMessage p) t';
                               Settle (nextInvocation w1) (AudioBuffer d)] w1)
             = [ {| unitSource := nextObject w; unitStart := Z.max 0 t';
                    unitDuration := d |} ]).
Proof.
  intros Hm Hg w1. unfold w1. rewrite (step_interruption m t w Hm Hg).
  split; [reflexivity|]. split; [reflexivity|]. split; [reflexivity|].
  split; [|split].
  - intros c es. by rewrite (step_interruption m t (withCursor c w) Hm Hg).
  - intros h k d Hk Hquiet Hn. cbv zeta.
    rewrite (step_Settle_decoded h k d (reset w)) by done. rewrite Hquiet.
    unfold newUnits. rewrite scheduled_committed, scheduled_resumed.
    rewrite drop_app_length. split; [reflexivity|]. split; [|reflexivity].
    unfold committed, resumed, reset. fields. apply union_empty_r_L.
  - intros p t' d Hready Hp. by rewrite (enqueue_after (reset w)).
Qed.

Lemma interruption_atomic_witness :
  let w := step liveWorld (Arrive (audioMessage "QQ==") 0) in
  interrupted interruption = true ∧ audioGuard interruption w = None ∧
  sourcesRef (step w (Arrive interruption 7200)) = ∅.
Proof.
  intros w. split; [reflexivity|]. split; [reflexivity|].
  exact (proj1 (interruption_atomic interruption 7200 w eq_refl eq_refl)).
Defined.

(** C4, as stated, fails.  A's decode is pending when the interruption
    arrives; after the reset it settles, A's unit is started and joins the
    Active Playback Set, and the cursor leaves 0.  C, enqueued strictly
    after the reset at output clock 7200, then starts at 24000, not at
    max(0, 7200). *)
Lemma pending_decode_survives_reset :
  let w := run interruptedWhileDecoding liveWorld in
  sourcesRef (run (take 2 interruptedWhileDecoding) liveWorld) = ∅ ∧
  nextStartTimeRef (run (take 2 interruptedWhileDecoding) liveWorld) = 0 ∧
  elements (sourcesRef w) = [8%nat] ∧ nextStartTimeRef w = 24000 ∧
  ∃ c, newUnits w (run [Arrive (audioMessage "Qw==") 7200;
                        Settle 1 (AudioBuffer 9600)] w) = [c] ∧
       unitStart c = 24000 ∧ unitStart c ≠ Z.max 0 7200.
Proof.
  intros w. split; [vm_compute; reflexivity|]. split; [vm_compute; reflexivity|].
  split; [vm_compute; reflexivity|]. split; [vm_compute; reflexivity|].
  eexists. split; [vm_compute; reflexivity|]. cbn. split; lia.
Qed.

(** ** Decode failure *)

Lemma withCursor_same (w : World) : withCursor (nextStartTimeRef w) w = w.
Proof.
  destruct w as [c calls nobj aw ninv sr].
  by destruct c as [ic it er iac oac onr st pr so ian oan se nx srcs].
Qed.

Lemma cursorEquivalent_refl (t : Z) (w : World) : cursorEquivalent t w w.
Proof. exists (nextStartTimeRef w). by rewrite withCursor_same. Qed.

Lemma deliver_fails (m : Message) (t : Z) (w : World) :
  truthy (base64Audio m) = true → Ready w →
  deliver w (m, t, DecodeFails) = clamped t w.
Proof.
  intros Hm (ctx & g & Hctx & Hg & _). unfold deliver, onmessage, audioGuard. cbn [fst snd].
  by rewrite Hm, Hctx, Hg.
Qed.

Lemma deliver_equivalent (t : Z) (w1 w2 : World) (x : Message * Z * Decoded) :
  cursorEquivalent t w1 w2 → t ≤ x.1.2 →
  cursorEquivalent t (deliver w1 x) (deliver w2 x).
Proof.
  intros (c & -> & Hc) Ht. destruct x as [[m t'] r]. cbn [fst snd] in Ht.
  unfold deliver, onmessage. cbn [fst snd].
  change (audioGuard m (withCursor c w1)) with (audioGuard m w1).
  destruct (audioGuard m w1) as [ctx|].
  - unfold andThen. rewrite !clampCursor_spec.
    replace (clamped t' (withCursor c w1)) with (clamped t' w1).
    + apply cursorEquivalent_refl.
    + unfold clamped, withCursor. fields.
      replace (Z.max c t') with (Z.max (nextStartTimeRef w1) t') by lia. reflexivity.
  - rewrite !handleInterruption_spec. destruct (interrupted m).
    + rewrite reset_withCursor. apply cursorEquivalent_refl.
    + by exists c.
Qed.

Lemma deliverAll_equivalent (t : Z) (xs : list (Message * Z * Decoded)) (w1 w2 : World) :
  cursorEquivalent t w1 w2 → Forall (λ x, t ≤ x.1.2) xs →
  cursorEquivalent t (deliverAll xs w1) (deliverAll xs w2).
Proof.
  revert w1 w2; induction xs as [|x xs IH]; intros w1 w2 Heq Hxs; [done|].
  apply Forall_cons in Hxs as [Hx Hxs]. rewrite !deliverAll_cons.
  apply IH; [|done]. by apply deliver_equivalent.
Qed.

(** C6, as amended: a payload whose decode fails leaves no call on the
    host and no change in the Active Playback Set (nothing is started,
    stopped or removed); all it leaves is the cursor clamped to the output
    clock read at its arrival.  When messages are handled one after the
    other and the output clock does not go back, no later arrival can
    observe that: whatever is delivered afterwards leads to the same host
    calls (the same units, at the same start times) and the same Active
    Playback Set as if the failing payload had not been delivered, and the
    next enqueue is scheduled as usual.  The failure of a decode, at the
    moment it settles, changes nothing in any world. *)
Theorem decode_failure_contained (m : Message) (t : Z) (w : World)
    (xs : list (Message * Z * Decoded)) :
  truthy (base64Audio m) = true → Ready w → Forall (λ x, t ≤ x.1.2) xs →
  let wf := deliver w (m, t, DecodeFails) in
  hostCalls wf = hostCalls w ∧ sourcesRef wf = sourcesRef w ∧
  nextStartTimeRef wf = Z.max (nextStartTimeRef w) t ∧
  hostCalls (deliverAll xs wf) = hostCalls (deliverAll xs w) ∧
  sourcesRef (deliverAll xs wf) = sourcesRef (deliverAll xs w) ∧
  (∀ q, payload q ≠ "" → t ≤ arrival q →
        newUnits wf (deliver wf (enqueue q))
        = [ {| unitSource := nextObject w;
               unitStart := Z.max (nextStartTimeRef w) (arrival q);
               unitDuration := duration q |} ]) ∧
  (∀ v h k, awaitingDecode v !! h = Some k →
            step v (Settle h DecodeFails) = resumed h v).
Proof.
  intros Hm Hready Hxs wf. unfold wf. rewrite (deliver_fails m t w Hm Hready).
  split; [reflexivity|]. split; [reflexivity|]. split; [reflexivity|].
  assert (cursorEquivalent t w (clamped t w)) as Heq.
  { exists (Z.max (nextStartTimeRef w) t). split; [reflexivity|lia]. }
  destruct (deliverAll_equivalent t xs _ _ Heq Hxs) as (c & -> & _).
  split; [reflexivity|]. split; [reflexivity|]. split.
  - intros q Hq Ht. rewrite newUnits_one by done.
    unfold clamped. fields. f_equal. f_equal. lia.
  - intros v h k Hk. by apply (step_Settle_fails h k).
Qed.

Lemma decode_failure_contained_witness :
  truthy (base64Audio (audioMessage "!!")) = true ∧ Ready liveWorld ∧
  Forall (λ x, 4800 ≤ x.1.2) (enqueue <$> [ {| payload := "QQ=="; arrival := 4800; duration := 24000 |} ]) ∧
  hostCalls (deliver liveWorld (audioMessage "!!", 4800, DecodeFails)) = hostCalls liveWorld.
Proof.
  assert (Forall (λ x : Message * Z * Decoded, 4800 ≤ x.1.2)
            (enqueue <$> [ {| payload := "QQ=="; arrival := 4800; duration := 24000 |} ]))
    as Hxs by (repeat constructor; cbn; lia).
  split; [reflexivity|]. split; [exact liveWorld_Ready|]. split; [exact Hxs|].
  exact (proj1 (decode_failure_contained (audioMessage "!!") 4800 liveWorld _
                  eq_refl liveWorld_Ready Hxs)).
Defined.

(** C6, as stated, fails when a decode is pending at the arrival of the
    failing payload: the clamp of the cursor at that arrival is what the
    pending unit then starts from, and B, enqueued afterwards, starts at
    1.1 instead of 1.0. *)
Lemma failure_seen_by_later_payload :
  timing <$> newUnits liveWorld (run failureWhileDecoding liveWorld)
  = [(2400, 24000); (26400, 12000)] ∧
  timing <$> newUnits liveWorld (run withoutFailure liveWorld)
  = [(0, 24000); (24000, 12000)] ∧
  ∃ b b', last (newUnits liveWorld (run failureWhileDecoding liveWorld)) = Some b ∧
          last (newUnits liveWorld (run withoutFailure liveWorld)) = Some b' ∧
          unitDuration b = 12000 ∧ unitDuration b' = 12000 ∧
          unitStart b ≠ unitStart b'.
Proof.
  split; [vm_compute; reflexivity|]. split; [vm_compute; reflexivity|].
  eexists _, _. split; [vm_compute; reflexivity|]. split; [vm_compute; reflexivity|].
  cbn. repeat split; lia.
Qed.

(** ** A message carrying audio and the interruption flag *)





(** ** Stopping the session *)

Lemma closeSession_closing (p : nat) (o : Settled) (w : World) :
  tryCatch (closeSession p o) (λ e, host (ConsoleError "Error closing session" e)) w
  = Normal (set_hostCalls (hostCalls w ++ [closing p o]) w).
Proof. by destruct o as [[|]|]. Qed.

Lemma stopSession_resume_exact (p : nat) (o : Settled) (w : World) :
  stopSession_resume p o w = Normal (stopped [closing p o] w).
Proof.
  unfold stopSession_resume. unfold andThen at 1. rewrite closeSession_closing.
  unfold andThen, store, effect. rewrite cleanupAudio_spec.
  unfold stopped, releases, stops, cleared. fields. rewrite <- !app_assoc. reflexivity.
Qed.

Lemma stopSession_exact (o : Settled) (w : World) :
  stopSession o w
  = Normal (stopped (from_option (λ p, [closing p o]) [] (sessionRef w)) w).
Proof.
  unfold stopSession. unfold andThen at 1. unfold ifSome.
  destruct (sessionRef w) as [p|] eqn:Hse.
  - unfold andThen at 1. rewrite closeSession_closing.
    unfold andThen, store, effect. rewrite cleanupAudio_spec.
    unfold stopped, releases, stops, cleared. fields. rewrite <- !app_assoc. reflexivity.
  - unfold andThen, store, effect. rewrite cleanupAudio_spec.
    unfold stopped, releases, stops, cleared. fields.
    destruct w as [c calls nobj aw ninv sr].
    destruct c as [ic it er iac oac onr st pr so ian oan se nx srcs].
    fields. subst. reflexivity.
Qed.

Lemma Idle_Dormant (w : World) (h : Handler) : Idle w → Dormant h → Idle (handle w h).
Proof.
  intros Hidle Hh. pose proof Hidle as (Hc & Ht & Hse & Hst & Hi & Ho & Hp & Hs & Hsrc).
  destruct h as [|[s|]|o|p o| | |err|p b o|[m t|h [d|]|u]]; try done; cbn [handle].
  - unfold startSession_resume, tryCatch, raise, andThen, store, host, effect. fields.
    rewrite cleanupAudio_spec. unfold Idle, cleared. fields. by repeat split.
  - by destruct (stopSession_spec o w) as (w' & -> & Hidle' & _).
  - by destruct (stopSession_resume_spec p o w) as (w' & -> & Hidle' & _).
  - destruct o as [|e]; exact Hidle.
  - rewrite step_Arrive_other.
    + destruct (interrupted m); [|done]. unfold Idle, reset. fields. by repeat split.
    + unfold audioGuard. rewrite Ho. by destruct (truthy (base64Audio m)).
  - destruct (awaitingDecode w !! h) as [k|] eqn:Hk.
    + rewrite (step_Settle_fails h k w Hk). exact Hidle.
    + by rewrite step_Settle_none.
  - rewrite step_SourceEnded. unfold Idle. fields. repeat split; try done.
    rewrite Hsrc. apply set_eq. intros x. rewrite elem_of_difference.
    split; [by intros [Hx _]|]. intros Hx. by apply elem_of_empty in Hx.
Qed.

Lemma handleAll_Dormant (hs : list Handler) (w : World) :
  Idle w → Forall Dormant hs → Idle (handleAll hs w).
Proof.
  revert w; induction hs as [|h hs IH]; intros w Hidle Hhs; [done|].
  apply Forall_cons in Hhs as [Hh Hhs]. apply (IH (handle w h)); [|done].
  by apply Idle_Dormant.
Qed.

(** C5, as amended: [stopSession], from any world at all (connecting, live
    or errored) and however the awaited session promise settles, completes
    normally in an [Idle] world.  The calls it has made are, in this order:
    [close()] on the session it held, if the promise resolved and [close()]
    did not throw (the error logged otherwise), then the releases of
    [cleanupAudio]; so every track of the stream that was held has been
    stopped and both contexts that were held have been closed.  The
    component then stays [Idle] under every handler that runs later, except
    a new start request and what the stop does not cancel: the continuation
    of a start request whose microphone is granted, [onopen], and a decode
    that settles with a buffer.  The same calls are made by the continuation
    after the [await], in whatever world it resumes. *)
Theorem stop_reaches_idle (o : Settled) (w : World) :
  (∃ w', stopSession o w = Normal w' ∧ Idle w' ∧ Released w w' ∧
         hostCalls w'
         = hostCalls w ++ from_option (λ p, [closing p o]) [] (sessionRef w) ++ releases w ∧
         (∀ p, sessionRef w = Some p → o = Resolved false → SessionClose p ∈ hostCalls w') ∧
         ∀ hs, Forall Dormant hs → Idle (handleAll hs w')) ∧
  (∀ p, ∃ w', stopSession_resume p o w = Normal w' ∧ Idle w' ∧ Released w w' ∧
              hostCalls w' = hostCalls w ++ closing p o :: releases w ∧
              (o = Resolved false → SessionClose p ∈ hostCalls w') ∧
              ∀ hs, Forall Dormant hs → Idle (handleAll hs w')).
Proof.
  split.
  - destruct (stopSession_spec o w) as (w' & Hrun & Hidle & Hrel).
    exists w'. split; [exact Hrun|]. split; [exact Hidle|]. split; [exact Hrel|].
    rewrite stopSession_exact in Hrun. injection Hrun as <-.
    split; [reflexivity|]. split; [|intros hs Hhs; by apply handleAll_Dormant].
    intros p Hp ->. unfold stopped. fields. rewrite Hp. cbn [from_option closing].
    rewrite !elem_of_app. right. left. apply list_elem_of_here.
  - intros p. destruct (stopSession_resume_spec p o w) as (w' & Hrun & Hidle & Hrel).
    exists w'. split; [exact Hrun|]. split; [exact Hidle|]. split; [exact Hrel|].
    rewrite stopSession_resume_exact in Hrun. injection Hrun as <-.
    split; [reflexivity|]. split; [|intros hs Hhs; by apply handleAll_Dormant].
    intros ->. unfold stopped. fields. cbn [closing].
    rewrite !elem_of_app. right. left. apply list_elem_of_here.
Qed.

(** From the live session with source 8 playing: the session is closed,
    the track of the stream is stopped, both contexts are closed and the
    source is stopped; later callbacks leave the component [Idle]. *)
Lemma stop_reaches_idle_witness :
  ∃ w', stopSession (Resolved false) playingWorld = Normal w' ∧ Idle w' ∧
        SessionClose 5 ∈ hostCalls w' ∧
        trackStopped 100 w' ∧ contextClosed 0 w' ∧ contextClosed 1 w' ∧
        Idle (handleAll [Closes; Turn (Arrive interruption 7200);
                         Turn (Settle 1 DecodeFails)] w').
Proof.
  assert (sessionRef playingWorld = Some 5%nat) as Hse by (vm_compute; reflexivity).
  assert (streamRef playingWorld = Some {| getTracks := [100%nat] |}) as Hst
    by (vm_compute; reflexivity).
  assert (inputAudioContextRef playingWorld = Some 0%nat) as Hi by (vm_compute; reflexivity).
  assert (outputAudioContextRef playingWorld = Some 1%nat) as Ho by (vm_compute; reflexivity).
  destruct (proj1 (stop_reaches_idle (Resolved false) playingWorld))
    as (w' & Hrun & Hidle & (Htracks & Hin & Hout) & _ & Hclosed & Hstays).
  exists w'. split; [exact Hrun|]. split; [exact Hidle|]. split; [|split; [|split; [|split]]].
  - by apply Hclosed.
  - apply (Htracks {| getTracks := [100%nat] |}); [exact Hst|apply list_elem_of_here].
  - by apply Hin.
  - by apply Hout.
  - apply Hstays. by repeat constructor.
Defined.

(** Stopping is not vacuous: the worlds it is used from are not idle. *)
Example not_idle_before_stop :
  ¬ Idle connectingWorld ∧ ¬ Idle liveWorld ∧ ¬ Idle erroredWorld ∧ ¬ Idle playingWorld.
Proof. repeat split; intros (_ & _ & Hse & _); vm_compute in Hse; discriminate. Qed.

(** C5, as stated, fails in the state Connecting while the microphone
    request of [startSession] is pending.  The stop finds no stream and no
    session; it closes the two contexts and leaves the refs [Idle].  It does
    not cancel the request: when the microphone is then granted, the
    continuation of [startSession] stores the stream and opens the session
    all the same.  The component is not [Idle], the track of the stream it
    acquired is not stopped and its session is not closed. *)
Lemma stop_leaves_acquisition_pending :
  let stream := {| getTracks := [100%nat] |} in
  let w0 := handleAll [StartBegins] (boot ∅) in
  let w1 := handleAll [Stops (Resolved false)] w0 in
  let w2 := handleAll [StartResumes (Granted stream)] w1 in
  Reachable w0 ∧ Idle w1 ∧ contextClosed 0 w1 ∧ contextClosed 1 w1 ∧
  ¬ Idle w2 ∧ streamRef w2 = Some stream ∧ sessionRef w2 = Some 5%nat ∧
  LiveConnect 5 ∈ hostCalls w2 ∧ ¬ trackStopped 100 w2 ∧
  (SessionClose 5 ∉ hostCalls w2).
Proof.
  cbv zeta.
  assert (hostCalls (handleAll [StartResumes (Granted {| getTracks := [100%nat] |})]
                       (handleAll [Stops (Resolved false)]
                          (handleAll [StartBegins] (boot ∅))))
          = [NewAudioContext 0 16000; NewAudioContext 1 24000; GetUserMedia;
             ContextClose 0; ContextClose 1; LiveConnect 5]) as Hcalls
    by (vm_compute; reflexivity).
  split; [apply (reach_handle (boot ∅) StartBegins); [apply reach_boot|exact I]|].
  split.
  { unfold handleAll at 1. cbn [foldl handle].
    by destruct (stopSession_spec (Resolved false) (handleAll [StartBegins] (boot ∅)))
      as (w & -> & Hidle & _). }
  split; [apply list_elem_of_In; vm_compute; auto 10|].
  split; [apply list_elem_of_In; vm_compute; auto 10|].
  split; [intros (_ & _ & Hse & _); vm_compute in Hse; discriminate|].
  split; [vm_compute; reflexivity|]. split; [vm_compute; reflexivity|].
  unfold trackStopped. rewrite Hcalls.
  split; [rewrite !elem_of_cons; auto 10|].
  split; intros Hin; members Hin; discriminate.
Qed.

(** C9: [stopSession] never completes abruptly, whatever refs are null,
    however the awaited promise settles and whether or not
    [session.close()] throws; the teardown has run to its end ([Idle],
    resources released); and a second [stopSession] completes normally and
    leaves that world exactly as it is, host calls included. *)
Theorem stop_idempotent (o1 o2 : Settled) (w : World) :
  ∃ w', stopSession o1 w = Normal w' ∧ Idle w' ∧ Released w w' ∧
        stopSession o2 w' = Normal w' ∧ cleanupAudio w' = Normal w'.
Proof.
  destruct (stopSession_spec o1 w) as (w' & Hrun & Hidle & Hrel).
  exists w'. split; [exact Hrun|]. split; [exact Hidle|]. split; [exact Hrel|].
  split; [by apply stopSession_idle_fixpoint|].
  destruct Hidle as (_ & _ & _ & ? & ? & ? & ? & ? & ?).
  by apply cleanupAudio_idle_fixpoint.
Qed.

Lemma stop_idempotent_witness :
  ∃ w', stopSession Rejected erroredWorld = Normal w' ∧ Idle w' ∧
        stopSession (Resolved true) w' = Normal w'.
Proof.
  destruct (stop_idempotent Rejected (Resolved true) erroredWorld)
    as (w' & Hrun & Hidle & _ & Hagain & _).
  exists w'. split; [exact Hrun|]. split; [exact Hidle|exact Hagain].
Defined.

(** ** Starting without a microphone *)



Lemma initial_Idle : Idle initial.
Proof. by repeat split. Qed.


(** ** Capture *)

Lemma forEach_ext {A} (body body' : A → Action) (l : list A) (w : World) :
  (∀ x v, body x v = body' x v) → forEach l body w = forEach l body' w.
Proof.
  intros Hext. revert w; induction l as [|x l IH]; intros w; [done|].
  simpl. unfold andThen. rewrite Hext. destruct (body' x w); [apply IH|done].
Qed.

Lemma onaudioprocess_spec {Frame} (createBlob : Frame → Blob) (p : nat)
    (fo : Frame * SendOutcome) (w : World) :
  onaudioprocess Frame createBlob p (fst fo) (snd fo) w
  = host (frameCall createBlob p fo) w.
Proof. destruct fo as [f [|e]]; reflexivity. Qed.

(** C8: each capture frame results in exactly one call: the encoded frame
    is sent, or, if sending fails, the error is logged and the frame is
    gone.  Whatever fails, the callback completes normally, the component's
    state is untouched, and the frames after it are encoded and sent as
    before, in order. *)
Theorem capture_continues {Frame} (createBlob : Frame → Blob) (p : nat)
    (frames : list (Frame * SendOutcome)) (w : World) :
  ∃ w', capture Frame createBlob p frames w = Normal w' ∧
        comp w' = comp w ∧
        hostCalls w' = hostCalls w ++ (frameCall createBlob p <$> frames).
Proof.
  unfold capture.
  rewrite (forEach_ext _ (λ fo, host (frameCall createBlob p fo)))
    by apply onaudioprocess_spec.
  rewrite forEach_host. by eexists.
Qed.

Lemma capture_continues_witness :
  ∃ w', capture string (λ s, {| data := s; mimeType := "audio/pcm;rate=16000" |}) 5
                framesAroundFailure liveWorld = Normal w' ∧
        comp w' = comp liveWorld ∧
        hostCalls w'
        = hostCalls liveWorld ++
          [ ConsoleError "Error sending audio input:" InvalidStateError;
            SendRealtimeInput 5 {| data := "frame 2"; mimeType := "audio/pcm;rate=16000" |} ].
Proof.
  exact (capture_continues (λ s, {| data := s; mimeType := "audio/pcm;rate=16000" |}) 5
           framesAroundFailure liveWorld).
Defined.

(** * The component as a whole *)

(** ** The handlers in closed form *)

Lemma startSession_begin_spec (w : World) :
  startSession_begin w = Normal (acquiring w).
Proof.
  unfold startSession_begin, acquiring, andThen, fresh, store, host, effect. fields.
  rewrite <- !app_assoc. reflexivity.
Qed.

Lemma startSession_granted_spec (s : MediaStream) (w : World) :
  startSession_resume (Granted s) w = Normal (connecting s w).
Proof. reflexivity. Qed.

Lemma startSession_refused_spec (w : World) :
  startSession_resume Denied w
  = Normal (set_comp
              (cleared (setError (Some "Failed to access microphone or connect to AI.") w))
              (set_hostCalls (hostCalls w ++ ConsoleError "" NotAllowedError :: releases w) w)).
Proof.
  unfold startSession_resume, tryCatch, raise, andThen, store, host, effect. fields.
  rewrite cleanupAudio_spec. unfold releases, stops. fields.
  rewrite <- !app_assoc. reflexivity.
Qed.

(** ** What every handler keeps *)

Lemma omap_releases (w : World) : omap asUnit (releases w) = [].
Proof.
  unfold releases. rewrite !omap_app, omap_stops.
  destruct (processorRef w), (sourceRef w), (streamRef w) as [s|],
    (inputAudioContextRef w), (outputAudioContextRef w); cbn [from_option];
    try (induction (getTracks s) as [|t ts IH]; [|exact IH]); reflexivity.
Qed.

(** The clauses of [Extends] for a step that keeps the output context,
    the gain node and the suspended invocations. *)
Lemma Extends_same (w w' : World) :
  outputNodeRef w' = outputNodeRef w →
  (outputAudioContextRef w' = outputAudioContextRef w ∨ outputAudioContextRef w' = None) →
  (∀ h k, awaitingDecode w' !! h = Some k → awaitingDecode w !! h = Some k) →
  (is_Some (inputAnalyserRef w) → is_Some (inputAnalyserRef w')) →
  (is_Some (inputAudioContextRef w') →
   is_Some (inputAudioContextRef w) ∨ is_Some (inputAnalyserRef w')) →
  (nextObject w ≤ nextObject w')%nat →
  (∃ l, hostCalls w' = hostCalls w ++ l ∧ omap asUnit l = []) →
  sourcesRef w' ⊆ sourcesRef w →
  (0 ≤ nextStartTimeRef w → 0 ≤ nextStartTimeRef w') →
  Extends w w'.
Proof.
  intros Hg Hctx Haw Han Hictx Hobj Hcalls Hsub Hcur. unfold Extends.
  split; [by rewrite Hg|]. split; [done|]. split.
  { intros c Hc. left. split; [|done]. destruct Hctx as [<-|Hnone]; [done|congruence]. }
  split; [done|]. split; [intros h k Hk; left; by apply Haw|]. done.
Qed.

Lemma Extends_refl (w : World) : Extends w w.
Proof.
  apply Extends_same; auto. exists []. by rewrite app_nil_r.
Qed.

Lemma Extends_Invariant (w w' : World) : Invariant w → Extends w w' → Invariant w'.
Proof.
  intros (Hout & Hpend & Hin & Hsrc & Hcur & Hsched)
         (Hnode & Han & Hoctx & Hictx & Haw & Hobj & (l & Hcalls & Hl) & Hsub & Hcur').
  unfold Invariant. split; [|split; [|split; [|split; [|split]]]].
  - intros c Hc. destruct (Hoctx c Hc) as [[Hc' Hg]|Hnew]; [|done].
    destruct (Hout c Hc') as (Hlt & g & Hgain & Hown). split; [lia|].
    exists g. by rewrite Hg.
  - intros h k Hk. destruct (Haw h k Hk) as [Hk'|Hnew]; [|done].
    destruct (Hpend h k Hk') as [Hlt Hg]. split; [lia|auto].
  - intros H. destruct (Hictx H); auto.
  - intros u Hu. destruct (Hsrc u (Hsub u Hu)) as (Hlt & s & d & Hstart).
    split; [lia|]. exists s, d. rewrite Hcalls. apply elem_of_app. by left.
  - auto.
  - unfold scheduled. rewrite Hcalls, omap_app, Hl, app_nil_r. exact Hsched.
Qed.

Lemma Extends_trans (w1 w2 w3 : World) : Extends w1 w2 → Extends w2 w3 → Extends w1 w3.
Proof.
  intros (Hn1 & Ha1 & Ho1 & Hi1 & Hw1 & Hb1 & (l1 & Hc1 & Hl1) & Hs1 & Hr1)
         (Hn2 & Ha2 & Ho2 & Hi2 & Hw2 & Hb2 & (l2 & Hc2 & Hl2) & Hs2 & Hr2).
  unfold Extends. split; [auto|]. split; [auto|]. split.
  { intros c Hc. destruct (Ho2 c Hc) as [[Hc2' Hg2]|Hnew]; [|by right].
    destruct (Ho1 c Hc2') as [[Hc1' Hg1]|(Hlt & g & Hg & Hown)].
    - left. split; [done|congruence].
    - right. split; [lia|]. exists g. by rewrite Hg2. }
  split; [intros H; destruct (Hi2 H) as [H'|]; [destruct (Hi1 H'); auto|auto]|].
  split.
  { intros h k Hk. destruct (Hw2 h k Hk) as [Hk2|Hnew]; [|by right].
    destruct (Hw1 h k Hk2) as [Hk1|[Hlt Hg]]; [by left|].
    right. split; [lia|auto]. }
  split; [lia|]. split.
  - exists (l1 ++ l2). rewrite Hc2, Hc1, app_assoc. split; [done|].
    by rewrite omap_app, Hl1, Hl2.
  - split; [set_solver|auto].
Qed.

(** A step that leaves the component as it is and adds calls that start
    no source. *)
Lemma Extends_calls (w : World) (l : list HostCall) :
  omap asUnit l = [] → Extends w (set_hostCalls (hostCalls w ++ l) w).
Proof.
  intros Hl. apply Extends_same; fields; auto. by exists l.
Qed.

Lemma Extends_acquiring (w : World) : Extends w (acquiring w).
Proof.
  unfold Extends, acquiring. fields.
  split; [by eauto|]. split; [by eauto|]. split.
  { intros c [= <-]. right. split; [lia|]. by eexists. }
  split; [by eauto|]. split; [by auto|]. split; [lia|]. split; [by eexists|done].
Qed.

Lemma Extends_connecting (s : MediaStream) (w : World) : Extends w (connecting s w).
Proof.
  apply Extends_same; unfold connecting; fields; auto. by eexists.
Qed.

Lemma Extends_cleared (w : World) (l : list HostCall) (f : Component → Component) :
  omap asUnit l = [] →
  outputNodeRef (f w) = outputNodeRef w → inputAnalyserRef (f w) = inputAnalyserRef w →
  nextStartTimeRef (f w) = nextStartTimeRef w →
  Extends w (set_comp (cleared (f w)) (set_hostCalls (hostCalls w ++ l) w)).
Proof.
  intros Hl Hn Ha Hc. apply Extends_same; unfold cleared; fields; rewrite ?Hn, ?Ha, ?Hc; auto.
  - intros [? [=]].
  - by exists l.
  - apply empty_subseteq.
Qed.

Lemma Extends_refused (w : World) : Extends w (world_of (startSession_resume Denied w)).
Proof.
  rewrite startSession_refused_spec. cbn [world_of].
  apply Extends_cleared; [|done..]. cbn [omap]. apply omap_releases.
Qed.

Lemma Extends_stopped (pre : list HostCall) (w : World) :
  omap asUnit pre = [] → Extends w (stopped pre w).
Proof.
  intros Hpre. apply Extends_same; unfold stopped, cleared; fields; auto.
  - intros [? [=]].
  - exists (pre ++ releases w); split; [done|]. by rewrite omap_app, Hpre, omap_releases.
  - apply empty_subseteq.
Qed.

Lemma omap_closing (p : nat) (o : Settled) : omap asUnit [closing p o] = [].
Proof. by destruct o as [[|]|]. Qed.

Lemma Extends_stopSession (o : Settled) (w : World) : Extends w (world_of (stopSession o w)).
Proof.
  rewrite stopSession_exact. cbn [world_of]. apply Extends_stopped.
  destruct (sessionRef w); [apply omap_closing|done].
Qed.

Lemma Extends_stopSession_resume (p : nat) (o : Settled) (w : World) :
  Extends w (world_of (stopSession_resume p o w)).
Proof.
  rewrite stopSession_resume_exact. cbn [world_of]. apply Extends_stopped, omap_closing.
Qed.

Lemma Extends_onopen (w : World) : Extends w (world_of (onopen w)).
Proof.
  unfold onopen, andThen, fresh, store, host, effect. fields.
  destruct (inputAudioContextRef w) eqn:Hi, (streamRef w) eqn:Hs; fields;
    try (destruct (inputAnalyserRef w) eqn:Ha; fields);
    apply Extends_same; fields; rewrite ?Hi, ?Ha; auto; try lia; by eexists.
Qed.

Lemma Extends_onclose (w : World) : Extends w (world_of (onclose w)).
Proof.
  unfold onclose, andThen, store, host, effect. fields.
  apply Extends_same; fields; auto. by eexists.
Qed.

Lemma Extends_onerror (e : Exn) (w : World) : Extends w (world_of (onerror e w)).
Proof.
  unfold onerror, andThen, store, host, effect. fields.
  apply Extends_same; fields; auto. by eexists.
Qed.

Lemma Extends_onaudioprocess (p : nat) (b : Blob) (o : SendOutcome) (w : World) :
  Extends w (world_of (onaudioprocess Blob id p b o w)).
Proof.
  rewrite (onaudioprocess_spec id p (b, o)), host_eq. cbn [world_of].
  apply Extends_calls. by destruct o.
Qed.

Lemma Extends_reset (w : World) : Extends w (reset w).
Proof.
  apply Extends_same; unfold reset; fields; auto; try lia.
  - exists (stops w); split; [done|apply omap_stops].
  - apply empty_subseteq.
Qed.

Lemma Extends_clamped (t : Z) (w : World) : Extends w (clamped t w).
Proof.
  apply Extends_same; unfold clamped; fields; auto; try lia.
  exists []; by rewrite app_nil_r.
Qed.

Lemma Extends_suspend (k : Suspended) (w : World) :
  is_Some (outputNodeRef w) → (heldCtx k < nextObject w)%nat → Extends w (suspend k w).
Proof.
  intros Hn Hlt. unfold Extends, suspend. fields.
  split; [done|]. split; [done|]. split; [intros c Hc; by left|]. split; [by left|].
  split.
  { intros h k' Hk'. destruct (decide (h = nextInvocation w)) as [->|Hne].
    - rewrite lookup_insert_eq in Hk'. injection Hk' as <-. by right.
    - rewrite lookup_insert_ne in Hk' by done. by left. }
  split; [done|]. split; [|done]. exists []; by rewrite app_nil_r.
Qed.

Lemma Extends_resumed (h : nat) (w : World) : Extends w (resumed h w).
Proof.
  apply Extends_same; unfold resumed; fields; auto.
  - intros h' k Hk. by apply lookup_delete_Some in Hk as [_ Hk].
  - exists []. by rewrite app_nil_r.
Qed.

Lemma Extends_allocated (w : World) : Extends w (set_nextObject (S (nextObject w)) w).
Proof.
  apply Extends_same; fields; auto. exists []; by rewrite app_nil_r.
Qed.

Lemma Extends_onended (u : nat) (w : World) : Extends w (world_of (onended u w)).
Proof.
  unfold onended, store, effect. fields.
  apply Extends_same; fields; auto.
  - exists []; by rewrite app_nil_r.
  - apply subseteq_difference_l. done.
Qed.

Lemma Invariant_committed (d : Z) (w : World) :
  Invariant w → 0 ≤ d → Invariant (committed d w).
Proof.
  intros (Hout & Hpend & Hin & Hsrc & Hcur & Hsched) Hd.
  unfold Invariant. rewrite scheduled_committed. unfold committed. fields.
  split; [intros c Hc; destruct (Hout c Hc) as [Hlt Hg]; split; [lia|done]|].
  split; [intros h k Hk; destruct (Hpend h k Hk) as [Hlt Hg]; split; [lia|done]|].
  split; [done|]. split; [|split; [lia|]].
  - intros u Hu. apply elem_of_union in Hu as [Hu|Hu].
    + apply elem_of_singleton in Hu as ->. split; [lia|].
      exists (nextStartTimeRef w), d. apply elem_of_app. right. apply list_elem_of_here.
    + destruct (Hsrc u Hu) as (Hlt & s & d' & Hstart). split; [lia|].
      exists s, d'. apply elem_of_app. by left.
  - intros u Hu. apply elem_of_app in Hu as [Hu|Hu]; [auto|].
    apply list_elem_of_singleton in Hu as ->. exact Hcur.
Qed.

Lemma step_Invariant (w : World) (e : Event) :
  Invariant w → Physical (Turn e) → Invariant (step w e).
Proof.
  intros Hinv Hphys. destruct e as [m t|h r|u].
  - destruct (audioGuard m w) as [ctx|] eqn:Hg.
    + rewrite (step_Arrive_audio m t w ctx Hg).
      apply audioGuard_Some in Hg as (_ & Hctx & Hn).
      apply (Extends_Invariant w); [done|].
      apply (Extends_trans _ (clamped t w)); [apply Extends_clamped|].
      apply Extends_suspend; [done|]. cbn [heldCtx].
      destruct Hinv as (Hout & _). by destruct (Hout ctx Hctx).
    + rewrite (step_Arrive_other m t w Hg). destruct (interrupted m); [|done].
      apply (Extends_Invariant w); [done|apply Extends_reset].
  - destruct (awaitingDecode w !! h) as [k|] eqn:Hh.
    + destruct r as [d|].
      * destruct (Connects_dec k w) as [Hconn|Hnot].
        -- rewrite (step_Settle_decoded h k d w Hh Hconn).
           assert (Invariant (committed d (resumed h w))) as Hc.
           { apply Invariant_committed; [|exact Hphys].
             apply (Extends_Invariant w); [done|apply Extends_resumed]. }
           destruct (interrupted (heldMessage k)); [|done].
           apply (Extends_Invariant _ _ Hc), Extends_reset.
        -- rewrite (step_Settle_dropped h k d w Hh Hnot).
           apply (Extends_Invariant w); [done|].
           apply (Extends_trans _ (resumed h w)); [apply Extends_resumed|].
           apply (Extends_allocated (resumed h w)).
      * rewrite (step_Settle_fails h k w Hh).
        apply (Extends_Invariant w); [done|apply Extends_resumed].
    + by rewrite (step_Settle_none h r w Hh).
  - apply (Extends_Invariant w); [done|apply (Extends_onended u w)].
Qed.

Lemma handle_Invariant (w : World) (h : Handler) :
  Invariant w → Physical h → Invariant (handle w h).
Proof.
  intros Hinv Hphys. destruct h as [|[s|]|o|p o| | |err|p b o|e]; cbn [handle].
  - rewrite startSession_begin_spec.
    apply (Extends_Invariant w); [done|apply Extends_acquiring].
  - rewrite startSession_granted_spec.
    apply (Extends_Invariant w); [done|apply Extends_connecting].
  - apply (Extends_Invariant w); [done|apply Extends_refused].
  - apply (Extends_Invariant w); [done|apply Extends_stopSession].
  - apply (Extends_Invariant w); [done|apply Extends_stopSession_resume].
  - apply (Extends_Invariant w); [done|apply Extends_onopen].
  - apply (Extends_Invariant w); [done|apply Extends_onclose].
  - apply (Extends_Invariant w); [done|apply Extends_onerror].
  - apply (Extends_Invariant w); [done|apply Extends_onaudioprocess].
  - by apply step_Invariant.
Qed.

Lemma boot_Invariant (raising : gset nat) : Invariant (boot raising).
Proof.
  unfold Invariant, boot, initial, scheduled. fields. cbn [omap].
  split; [done|]. split; [intros h k Hk; by rewrite lookup_empty in Hk|].
  split; [intros [? [=]]|]. split; [intros u Hu; by apply elem_of_empty in Hu|].
  split; [done|]. intros u Hu. by apply elem_of_nil in Hu.
Qed.

Lemma Reachable_Invariant (w : World) : Reachable w → Invariant w.
Proof.
  induction 1 as [raising|w h _ IH Hphys]; [apply boot_Invariant|].
  by apply handle_Invariant.
Qed.

(** In the worlds the component can reach, the gain node is a node of the
    output context whenever there is one. *)
Lemma Reachable_Ready (w : World) :
  Reachable w → is_Some (outputAudioContextRef w) → Ready w.
Proof.
  intros Hw [c Hc]. destruct (Reachable_Invariant w Hw) as (Hout & _).
  destruct (Hout c Hc) as (_ & g & Hg & Hown). by exists c, g.
Qed.

Lemma liveWorld_handled :
  liveWorld
  = handleAll [StartBegins; StartResumes (Granted {| getTracks := [100%nat] |}); Opens]
      (boot ∅).
Proof. vm_compute. reflexivity. Qed.

Lemma handleAll_Reachable (hs : list Handler) (w : World) :
  Reachable w → Forall Physical hs → Reachable (handleAll hs w).
Proof.
  revert w; induction hs as [|h hs IH]; intros w Hw Hhs; [done|].
  apply Forall_cons in Hhs as [Hh Hhs]. apply (IH (handle w h)); [|done].
  by apply reach_handle.
Qed.

Lemma liveWorld_Reachable : Reachable liveWorld.
Proof.
  rewrite liveWorld_handled. apply handleAll_Reachable; [apply reach_boot|].
  by repeat constructor.
Qed.

Lemma playingWorld_Reachable : Reachable playingWorld.
Proof.
  apply handleAll_Reachable; [apply reach_boot|]. repeat constructor; cbn; lia.
Qed.

Lemma restartedWorld_Reachable : Reachable restartedWorld.
Proof.
  apply handleAll_Reachable; [apply playingWorld_Reachable|]. by repeat constructor.
Qed.

(** X1: in every world the component can reach, [onopen] completes
    normally (when it creates the capture source, the input analyser it
    connects it to is set), and when a decode settles with a buffer the
    gain node its source is connected to is not null.  The unit is started,
    at the cursor found then, exactly when that gain node belongs to the
    context the handler bound before its [await]; when it belongs to
    another context (a session was started in between), [connect] throws
    [InvalidAccessError]: the source has been created, nothing is started,
    and the cursor and the Active Playback Set stay as they are. *)
Theorem settled_decode_outcome (w : World) :
  Reachable w →
  (∃ w', onopen w = Normal w') ∧
  (∀ h k d, awaitingDecode w !! h = Some k →
            ∃ g, outputNodeRef w = Some g ∧
                 (nodeContext g = heldCtx k →
                  scheduled (step w (Settle h (AudioBuffer d)))
                  = scheduled w ++ [ {| unitSource := nextObject w;
                                        unitStart := nextStartTimeRef w;
                                        unitDuration := d |} ]) ∧
                 (nodeContext g ≠ heldCtx k →
                  onmessage_resume k (AudioBuffer d) (resumed h w)
                  = Abrupt InvalidAccessError
                      (set_nextObject (S (nextObject w)) (resumed h w)) ∧
                  step w (Settle h (AudioBuffer d))
                  = set_nextObject (S (nextObject w)) (resumed h w))).
Proof.
  intros Hw. destruct (Reachable_Invariant w Hw) as (_ & Hpend & Hin & _). split.
  - unfold onopen, andThen, fresh, store, host, effect. fields.
    destruct (inputAudioContextRef w) as [c|] eqn:Hc; [|by eexists].
    destruct (streamRef w) as [s|]; [|by eexists].
    destruct Hin as [a Ha]; [by eexists|]. fields. rewrite Ha. by eexists.
  - intros h k d Hk. destruct (Hpend h k Hk) as [_ [g Hg]]. exists g.
    split; [done|]. split.
    + intros Hown. rewrite (step_Settle_decoded h k d w Hk) by (by exists g).
      destruct (interrupted (heldMessage k));
        by rewrite ?scheduled_reset, scheduled_committed, scheduled_resumed.
    + intros Hown. split.
      * apply (onmessage_resume_foreign k d (resumed h w) g); [exact Hg|exact Hown].
      * apply (step_Settle_dropped h k d w Hk). intros (g' & Hg' & Hown'). congruence.
Qed.

(** Payload B was suspended at its decode in the first session (context 1);
    the gain node now in [outputNodeRef] is that of the second (context
    10). *)
Lemma settled_decode_outcome_witness :
  Reachable restartedWorld ∧
  awaitingDecode restartedWorld !! 1%nat
  = Some {| heldMessage := audioMessage "Qg=="; heldCtx := 1 |} ∧
  outputNodeRef restartedWorld = Some {| nodeId := 11; nodeContext := 10 |} ∧
  step restartedWorld (Settle 1 (AudioBuffer 12000))
  = set_nextObject (S (nextObject restartedWorld)) (resumed 1 restartedWorld).
Proof.
  assert (awaitingDecode restartedWorld !! 1%nat
          = Some {| heldMessage := audioMessage "Qg=="; heldCtx := 1 |}) as Hk
    by (vm_compute; reflexivity).
  assert (outputNodeRef restartedWorld = Some {| nodeId := 11; nodeContext := 10 |}) as Hg
    by (vm_compute; reflexivity).
  split; [exact restartedWorld_Reachable|]. split; [exact Hk|]. split; [exact Hg|].
  destruct (proj2 (settled_decode_outcome restartedWorld restartedWorld_Reachable)
              1%nat _ 12000 Hk) as (g & Hg' & _ & Hdrop).
  apply Hdrop. rewrite Hg in Hg'. injection Hg' as <-. cbn. lia.
Defined.

(** X2: in every world the component can reach, every source of the Active
    Playback Set has been started, and the source the next decode creates
    is not in the set yet; so a unit that is committed (its source
    connecting to the gain node of the context its handler bound) and then
    ends leaves the set as it was. *)
Theorem active_set_tracks_started_sources (w : World) :
  Reachable w →
  (∀ u, u ∈ sourcesRef w → ∃ s d, SourceStart u s d ∈ hostCalls w) ∧
  (nextObject w ∉ sourcesRef w) ∧
  (∀ h k d, awaitingDecode w !! h = Some k → interrupted (heldMessage k) = false →
            Connects k w →
            sourcesRef (step w (Settle h (AudioBuffer d))) = {[nextObject w]} ∪ sourcesRef w ∧
            sourcesRef (step (step w (Settle h (AudioBuffer d))) (SourceEnded (nextObject w)))
            = sourcesRef w).
Proof.
  intros Hw. destruct (Reachable_Invariant w Hw) as (_ & _ & _ & Hsrc & _).
  assert (nextObject w ∉ sourcesRef w) as Hfresh.
  { intros Hin. destruct (Hsrc _ Hin) as [Hlt _]. lia. }
  split; [intros u Hu; by destruct (Hsrc u Hu)|]. split; [exact Hfresh|].
  intros h k d Hk Hquiet Hn.
  rewrite (step_Settle_decoded h k d w Hk Hn), Hquiet, step_SourceEnded.
  unfold committed, resumed. fields. split; [reflexivity|].
  apply set_eq. intros x. rewrite elem_of_difference, elem_of_union, elem_of_singleton.
  split; [intros [[->|Hx] Hne]; done|].
  intros Hx. split; [by right|]. by intros ->.
Qed.

(** Source 8 is playing and payload B is suspended at its decode. *)
Lemma active_set_tracks_started_sources_witness :
  Reachable playingWorld ∧ 8%nat ∈ sourcesRef playingWorld ∧
  (∃ s d, SourceStart 8 s d ∈ hostCalls playingWorld) ∧
  sourcesRef (step (step playingWorld (Settle 1 (AudioBuffer 12000)))
                (SourceEnded (nextObject playingWorld)))
  = sourcesRef playingWorld.
Proof.
  assert (8%nat ∈ sourcesRef playingWorld) as Hin
    by (apply (bool_decide_unpack _); vm_compute; exact I).
  assert (awaitingDecode playingWorld !! 1%nat
          = Some {| heldMessage := audioMessage "Qg=="; heldCtx := 1 |}) as Hk
    by (vm_compute; reflexivity).
  assert (Connects {| heldMessage := audioMessage "Qg=="; heldCtx := 1 |} playingWorld)
    as Hconn by (eexists; split; [vm_compute; reflexivity|reflexivity]).
  destruct (active_set_tracks_started_sources playingWorld playingWorld_Reachable)
    as (Hstarted & _ & Hround).
  split; [exact playingWorld_Reachable|]. split; [exact Hin|].
  split; [exact (Hstarted 8%nat Hin)|].
  exact (proj2 (Hround 1%nat _ 12000 Hk eq_refl Hconn)).
Defined.

(** X3: the output clock and the durations of decoded buffers being
    non-negative, the cursor is never negative and no source is ever
    started at a negative time. *)
Theorem start_times_never_negative (w : World) :
  Reachable w →
  0 ≤ nextStartTimeRef w ∧ ∀ u, u ∈ scheduled w → 0 ≤ unitStart u.
Proof.
  intros Hw. by destruct (Reachable_Invariant w Hw) as (_ & _ & _ & _ & Hcur & Hsched).
Qed.

(** A world reached through two clock readings (0 and 4800) and one
    decoded buffer (24000 frames): one unit is scheduled and the cursor is
    at its end. *)
Lemma start_times_never_negative_witness :
  Reachable playingWorld ∧
  scheduled playingWorld
  = [ {| unitSource := 8; unitStart := 0; unitDuration := 24000 |} ] ∧
  nextStartTimeRef playingWorld = 24000 ∧
  0 ≤ nextStartTimeRef playingWorld ∧
  ∀ u, u ∈ scheduled playingWorld → 0 ≤ unitStart u.
Proof.
  split; [exact playingWorld_Reachable|]. split; [vm_compute; reflexivity|].
  split; [vm_compute; reflexivity|].
  exact (start_times_never_negative playingWorld playingWorld_Reachable).
Defined.

(** ** Audio contexts are accounted for *)

Lemma KeepsContexts_Accounted (w w' : World) :
  Accounted w → KeepsContexts w w' → Accounted w'.
Proof.
  intros Hacc (Hi & Ho & l & Hcalls & Hl) c rate Hnew.
  unfold contextClosed. rewrite Hi, Ho, Hcalls in *.
  apply elem_of_app in Hnew as [Hnew|Hnew]; [|by apply Hl in Hnew].
  destruct (Hacc c rate Hnew) as [Hclosed|Hheld]; [|by right].
  left. apply elem_of_app. by left.
Qed.

Lemma stops_no_context (w : World) (c : nat) (rate : Z) : NewAudioContext c rate ∉ stops w.
Proof.
  unfold stops. intros Hin. apply list_elem_of_fmap in Hin as (u & [=] & _).
Qed.

Lemma releases_no_context (w : World) (c : nat) (rate : Z) :
  NewAudioContext c rate ∉ releases w.
Proof.
  unfold releases. rewrite !elem_of_app.
  intros [Hin|[Hin|[Hin|[Hin|[Hin|Hin]]]]].
  - destruct (processorRef w); cbn in Hin; [members Hin; discriminate|by apply elem_of_nil in Hin].
  - destruct (sourceRef w); cbn in Hin; [members Hin; discriminate|by apply elem_of_nil in Hin].
  - destruct (streamRef w); cbn [from_option] in Hin; [|by apply elem_of_nil in Hin].
    by apply list_elem_of_fmap in Hin as (u & [=] & _).
  - destruct (inputAudioContextRef w); cbn in Hin;
      [members Hin; discriminate|by apply elem_of_nil in Hin].
  - destruct (outputAudioContextRef w); cbn in Hin;
      [members Hin; discriminate|by apply elem_of_nil in Hin].
  - by apply stops_no_context in Hin.
Qed.

(** A teardown closes what the refs hold. *)
Lemma Accounted_cleared (w w' : World) (pre : list HostCall) :
  Accounted w → (∀ c rate, NewAudioContext c rate ∉ pre) →
  hostCalls w' = hostCalls w ++ pre ++ releases w →
  Accounted w'.
Proof.
  intros Hacc Hpre Hcalls c rate Hnew. left.
  unfold contextClosed. rewrite Hcalls in *.
  rewrite !elem_of_app in Hnew. destruct Hnew as [Hnew|[Hnew|Hnew]];
    [|by apply Hpre in Hnew|by apply releases_no_context in Hnew].
  rewrite !elem_of_app.
  destruct (Hacc c rate Hnew) as [Hclosed|[Hheld|Hheld]]; [by left|right; right..];
    unfold releases; rewrite Hheld, !elem_of_app; cbn [from_option].
  - right; right; right; left. apply list_elem_of_here.
  - do 4 right. left. apply list_elem_of_here.
Qed.

Lemma step_KeepsContexts (w : World) (e : Event) : KeepsContexts w (step w e).
Proof.
  assert (∀ v, KeepsContexts v (reset v)) as Hreset.
  { intros v. split; [done|]. split; [done|]. exists (stops v). split; [done|].
    intros c rate. apply stops_no_context. }
  assert (∀ v, KeepsContexts v v) as Hrefl.
  { intros v. split; [done|]. split; [done|]. exists []. rewrite app_nil_r.
    split; [done|]. intros c rate Hin. by apply elem_of_nil in Hin. }
  assert (∀ d h, ∃ l, hostCalls (committed d (resumed h w)) = hostCalls w ++ l ∧
                      ∀ c rate, NewAudioContext c rate ∉ l) as Hcommit.
  { intros d h. eexists. split; [reflexivity|]. intros c rate Hin. members Hin. discriminate. }
  destruct e as [m t|h r|u].
  - destruct (audioGuard m w) as [ctx|] eqn:Hg.
    + rewrite (step_Arrive_audio m t w ctx Hg). apply (Hrefl w).
    + rewrite (step_Arrive_other m t w Hg). destruct (interrupted m); auto.
  - destruct (awaitingDecode w !! h) as [k|] eqn:Hh.
    + destruct r as [d|].
      * destruct (Connects_dec k w) as [Hconn|Hnot].
        -- rewrite (step_Settle_decoded h k d w Hh Hconn).
           destruct (Hcommit d h) as (l & Hl & Hno).
           destruct (interrupted (heldMessage k)).
           ++ split; [done|]. split; [done|].
              exists (l ++ stops (committed d (resumed h w))). split.
              ** unfold reset. fields. rewrite Hl. by rewrite <- app_assoc.
              ** intros c rate Hin. apply elem_of_app in Hin as [Hin|Hin];
                   [by apply Hno in Hin|by apply stops_no_context in Hin].
           ++ split; [done|]. split; [done|]. by exists l.
        -- rewrite (step_Settle_dropped h k d w Hh Hnot). apply (Hrefl w).
      * rewrite (step_Settle_fails h k w Hh). apply (Hrefl w).
    + rewrite (step_Settle_none h r w Hh). apply Hrefl.
  - apply (Hrefl w).
Qed.

Lemma onopen_KeepsContexts (w : World) : KeepsContexts w (world_of (onopen w)).
Proof.
  unfold onopen, andThen, fresh, store, host, effect. fields.
  destruct (inputAudioContextRef w) eqn:Hi, (streamRef w) eqn:Hs; fields;
    try (destruct (inputAnalyserRef w) eqn:Ha; fields);
    (split; [by rewrite ?Hi|]); (split; [done|]);
    (eexists; split; [reflexivity|]); intros c rate Hin; members Hin; discriminate.
Qed.

Lemma handle_Accounted (w : World) (h : Handler) :
  Accounted w →
  (h = StartBegins → inputAudioContextRef w = None ∧ outputAudioContextRef w = None) →
  Accounted (handle w h).
Proof.
  intros Hacc Hclean. destruct h as [|[s|]|o|p o| | |err|p b o|e]; cbn [handle].
  - destruct Hclean as [Hi Ho]; [done|]. rewrite startSession_begin_spec. cbn [world_of].
    intros c rate Hnew. unfold contextClosed, acquiring in *. fields.
    apply elem_of_app in Hnew as [Hnew|Hnew].
    + destruct (Hacc c rate Hnew) as [Hclosed|[Hheld|Hheld]]; [|congruence..].
      left. apply elem_of_app. by left.
    + right. members Hnew; try discriminate; injection Hnew as -> _; auto.
  - rewrite startSession_granted_spec. apply (KeepsContexts_Accounted w); [done|].
    split; [done|]. split; [done|]. eexists. split; [reflexivity|].
    intros c rate Hin. members Hin. discriminate.
  - rewrite startSession_refused_spec. cbn [world_of].
    apply (Accounted_cleared w _ [ConsoleError "" NotAllowedError]); [done| |done].
    intros c rate Hin. members Hin. discriminate.
  - rewrite stopSession_exact. cbn [world_of].
    apply (Accounted_cleared w _ (from_option (λ p, [closing p o]) [] (sessionRef w)));
      [done| |done].
    intros c rate Hin. destruct (sessionRef w); cbn in Hin; [|by apply elem_of_nil in Hin].
    members Hin. by destruct o as [[|]|].
  - rewrite stopSession_resume_exact. cbn [world_of].
    apply (Accounted_cleared w _ [closing p o]); [done| |done].
    intros c rate Hin. members Hin. by destruct o as [[|]|].
  - apply (KeepsContexts_Accounted w); [done|apply onopen_KeepsContexts].
  - apply (KeepsContexts_Accounted w); [done|].
    split; [done|]. split; [done|]. eexists. split; [reflexivity|].
    intros c rate Hin. members Hin. discriminate.
  - apply (KeepsContexts_Accounted w); [done|].
    split; [done|]. split; [done|]. eexists. split; [reflexivity|].
    intros c rate Hin. members Hin. discriminate.
  - apply (KeepsContexts_Accounted w); [done|].
    rewrite (onaudioprocess_spec id p (b, o)), host_eq. cbn [world_of].
    split; [done|]. split; [done|]. eexists. split; [reflexivity|].
    intros c rate Hin. members Hin. by destruct o.
  - apply (KeepsContexts_Accounted w); [done|apply step_KeepsContexts].
Qed.

Lemma handleAll_Accounted (hs : list Handler) (w : World) :
  Accounted w → Orderly w hs → Accounted (handleAll hs w).
Proof.
  revert w; induction hs as [|h hs IH]; intros w Hacc Hord; [done|].
  destruct Hord as [Hclean Hord]. apply (IH (handle w h)); [|done].
  by apply handle_Accounted.
Qed.

(** X4: as long as [startSession] is only entered when no audio context is
    held (from a fresh or torn-down component), every context the component
    has ever created is either closed or still referenced by one of its two
    context refs, whatever handlers run in whatever order. *)
Theorem contexts_accounted (raising : gset nat) (hs : list Handler) :
  Orderly (boot raising) hs → Accounted (handleAll hs (boot raising)).
Proof.
  apply handleAll_Accounted. intros c rate Hin. by apply elem_of_nil in Hin.
Qed.

Lemma contexts_accounted_witness :
  let hs := [StartBegins; StartResumes Denied; StartBegins;
             StartResumes (Granted {| getTracks := [100%nat] |}); Opens;
             Stops (Resolved false)] in
  Orderly (boot ∅) hs ∧ Accounted (handleAll hs (boot ∅)).
Proof.
  intros hs.
  assert (Orderly (boot ∅) hs) as Hord
    by (vm_compute; repeat split; intros; discriminate).
  split; [exact Hord|]. exact (contexts_accounted ∅ hs Hord).
Defined.

(** Pressing Start a second time before the session is connected (the
    button is shown as long as [isConnected] is false) overwrites both
    context refs: the first input context is then neither closed nor
    referenced, also after [stopSession]. *)
Example second_start_leaks :
  let w := handleAll [StartBegins; StartBegins; StartResumes Denied; Stops Rejected]
             (boot ∅) in
  NewAudioContext 0 16000 ∈ hostCalls w ∧ ¬ contextClosed 0 w ∧
  inputAudioContextRef w = None ∧ outputAudioContextRef w = None.
Proof.
  cbv zeta. unfold contextClosed.
  assert (hostCalls (handleAll [StartBegins; StartBegins; StartResumes Denied; Stops Rejected]
                       (boot ∅))
          = [NewAudioContext 0 16000; NewAudioContext 1 24000; GetUserMedia;
             NewAudioContext 5 16000; NewAudioContext 6 24000; GetUserMedia;
             ConsoleError "" NotAllowedError; ContextClose 5; ContextClose 6]) as ->
    by (vm_compute; reflexivity).
  split; [apply list_elem_of_here|]. split; [|split; vm_compute; reflexivity].
  intros Hin. members Hin; discriminate.
Qed.

(** ** Stopping, restarting, and what arrives late *)

Lemma onopen_scheduler_refs (w : World) :
  outputAudioContextRef (world_of (onopen w)) = outputAudioContextRef w ∧
  outputNodeRef (world_of (onopen w)) = outputNodeRef w ∧
  nextStartTimeRef (world_of (onopen w)) = nextStartTimeRef w ∧
  sourcesRef (world_of (onopen w)) = sourcesRef w.
Proof.
  unfold onopen, andThen, fresh, store, host, effect. fields.
  destruct (inputAudioContextRef w), (streamRef w); fields;
    try (destruct (inputAnalyserRef w); fields); done.
Qed.

(** X5: neither [stopSession] nor [startSession] resets the cursor.  After
    End Call and a new Start in the same mounted component, the Active
    Playback Set is empty but the cursor is where the previous session left
    it, and the first payload of the new session starts at the maximum of
    that cursor and the clock of the new output context. *)
Theorem restart_keeps_cursor (o : Settled) (s : MediaStream) (w : World) (q : Request) :
  payload q ≠ "" →
  let w' := handleAll [Stops o; StartBegins; StartResumes (Granted s); Opens] w in
  nextStartTimeRef w' = nextStartTimeRef w ∧ sourcesRef w' = ∅ ∧
  newUnits w' (deliver w' (enqueue q))
  = [ {| unitSource := nextObject w';
         unitStart := Z.max (nextStartTimeRef w) (arrival q);
         unitDuration := duration q |} ].
Proof.
  intros Hq w'.
  set (w3 := handleAll [Stops o; StartBegins; StartResumes (Granted s)] w).
  assert (w' = world_of (onopen w3)) as Hw' by reflexivity.
  assert (outputAudioContextRef w3 = Some (S (nextObject w)) ∧
          outputNodeRef w3 = Some {| nodeId := S (S (nextObject w));
                                     nodeContext := S (nextObject w) |} ∧
          nextStartTimeRef w3 = nextStartTimeRef w ∧ sourcesRef w3 = ∅)
    as (Hctx & Hnode & Hcur & Hsrc).
  { unfold w3, handleAll. cbn [foldl handle].
    rewrite stopSession_exact. cbn [world_of].
    rewrite startSession_begin_spec. cbn [world_of].
    rewrite startSession_granted_spec. cbn [world_of].
    unfold connecting, acquiring, stopped, cleared. fields. done. }
  destruct (onopen_scheduler_refs w3) as (Hctx' & Hnode' & Hcur' & Hsrc').
  rewrite <- Hw' in *.
  assert (Ready w') as Hready.
  { eexists _, _. rewrite Hctx', Hctx, Hnode', Hnode. done. }
  split; [congruence|]. split; [congruence|].
  rewrite newUnits_one by done. by rewrite Hcur', Hcur.
Qed.

Lemma restart_keeps_cursor_witness :
  let q := {| payload := "Qg=="; arrival := 0; duration := 12000 |} in
  let w := deliverAll (enqueue <$> scenarioAB) liveWorld in
  let w' := handleAll [Stops (Resolved false); StartBegins;
                       StartResumes (Granted {| getTracks := [101%nat] |}); Opens] w in
  payload q ≠ "" ∧ nextStartTimeRef w' = nextStartTimeRef w.
Proof.
  intros q w w'. assert (payload q ≠ "") as Hq by discriminate.
  split; [exact Hq|].
  exact (proj1 (restart_keeps_cursor (Resolved false) {| getTracks := [101%nat] |} w q Hq)).
Defined.

Lemma onopen_keeps_pending (w : World) :
  awaitingDecode (world_of (onopen w)) = awaitingDecode w.
Proof.
  unfold onopen, andThen, fresh, store, host, effect. fields.
  destruct (inputAudioContextRef w), (streamRef w); fields;
    try (destruct (inputAnalyserRef w); fields); done.
Qed.

(** X19: a decode that is still pending when the session is ended and a
    new one is started is dropped.  In any world the component can reach,
    after End Call and a new Start the invocation is still suspended; the
    context it bound is the old one, and [outputNodeRef] now holds the gain
    node of the new one.  When its decode settles with a buffer, the source
    is created and [connect] throws: no unit is started, and the cursor and
    the Active Playback Set of the new session are left as they are. *)
Theorem pending_decode_dropped_by_restart (o : Settled) (s : MediaStream) (w : World)
    (h : nat) (k : Suspended) (d : Z) :
  Reachable w → awaitingDecode w !! h = Some k →
  let w' := handleAll [Stops o; StartBegins; StartResumes (Granted s); Opens] w in
  let w'' := step w' (Settle h (AudioBuffer d)) in
  awaitingDecode w' !! h = Some k ∧
  (∃ g, outputNodeRef w' = Some g ∧ outputAudioContextRef w' = Some (nodeContext g) ∧
        (heldCtx k < nodeContext g)%nat) ∧
  onmessage_resume k (AudioBuffer d) (resumed h w')
  = Abrupt InvalidAccessError (set_nextObject (S (nextObject w')) (resumed h w')) ∧
  scheduled w'' = scheduled w' ∧ nextStartTimeRef w'' = nextStartTimeRef w' ∧
  sourcesRef w'' = sourcesRef w' ∧ awaitingDecode w'' !! h = None.
Proof.
  intros Hw Hk. cbv zeta.
  destruct (Reachable_Invariant w Hw) as (_ & Hpend & _).
  destruct (Hpend h k Hk) as [Hlt _].
  assert (∃ g, awaitingDecode
                 (handleAll [Stops o; StartBegins; StartResumes (Granted s); Opens] w)
               = awaitingDecode w ∧
               outputNodeRef
                 (handleAll [Stops o; StartBegins; StartResumes (Granted s); Opens] w)
               = Some g ∧
               outputAudioContextRef
                 (handleAll [Stops o; StartBegins; StartResumes (Granted s); Opens] w)
               = Some (nodeContext g) ∧
               nodeContext g = S (nextObject w)) as (g & Haw & Hnode & Hctx & Hown).
  { exists {| nodeId := S (S (nextObject w)); nodeContext := S (nextObject w) |}.
    unfold handleAll. cbn [foldl handle].
    rewrite onopen_keeps_pending.
    destruct (onopen_scheduler_refs
                (world_of (startSession_resume (Granted s)
                   (world_of (startSession_begin (world_of (stopSession o w)))))))
      as (-> & -> & _).
    rewrite stopSession_exact. cbn [world_of].
    rewrite startSession_begin_spec. cbn [world_of].
    rewrite startSession_granted_spec. cbn [world_of].
    unfold connecting, acquiring, stopped, cleared. fields. done. }
  revert Haw Hnode Hctx.
  generalize (handleAll [Stops o; StartBegins; StartResumes (Granted s); Opens] w).
  intros w' Haw Hnode Hctx.
  assert (awaitingDecode w' !! h = Some k) as Hk' by (by rewrite Haw).
  assert (nodeContext g ≠ heldCtx k) as Hne by lia.
  assert (¬ Connects k w') as Hnot.
  { intros (g' & Hg' & Hown'). congruence. }
  rewrite (step_Settle_dropped h k d w' Hk' Hnot).
  split; [done|]. split; [exists g; split; [done|]; split; [done|lia]|].
  split; [apply (onmessage_resume_foreign k d (resumed h w') g); [exact Hnode|exact Hne]|].
  split; [done|]. split; [done|]. split; [done|].
  unfold resumed. fields. apply lookup_delete_eq.
Qed.

(** Payload B, suspended in the first session, settles in the second. *)
Lemma pending_decode_dropped_by_restart_witness :
  Reachable playingWorld ∧
  awaitingDecode playingWorld !! 1%nat
  = Some {| heldMessage := audioMessage "Qg=="; heldCtx := 1 |} ∧
  scheduled (step restartedWorld (Settle 1 (AudioBuffer 12000))) = scheduled restartedWorld.
Proof.
  assert (awaitingDecode playingWorld !! 1%nat
          = Some {| heldMessage := audioMessage "Qg=="; heldCtx := 1 |}) as Hk
    by (vm_compute; reflexivity).
  split; [exact playingWorld_Reachable|]. split; [exact Hk|].
  exact (proj1 (proj2 (proj2 (proj2
           (pending_decode_dropped_by_restart (Resolved false) {| getTracks := [101%nat] |}
              playingWorld 1%nat _ 12000 playingWorld_Reachable Hk))))).
Defined.

(** X6: [stopSession] stops every source of the Active Playback Set whose
    [stop()] does not raise, disconnects the capture processor and source
    nodes it holds, and calls [session.close()] exactly when a session
    promise is held and resolves; when the promise is rejected or
    [close()] throws, the error is logged instead.  It makes no other call
    than these and the releases of [cleanupAudio]. *)
Theorem stop_cancels_everything (o : Settled) (w : World) :
  let w' := world_of (stopSession o w) in
  (∀ u, u ∈ sourcesRef w → u ∉ stopRaises w → SourceStop u ∈ hostCalls w') ∧
  (∀ n, processorRef w = Some n → NodeDisconnect n ∈ hostCalls w') ∧
  (∀ n, sourceRef w = Some n → NodeDisconnect n ∈ hostCalls w') ∧
  (∀ p, sessionRef w = Some p →
        hostCalls w'
        = hostCalls w ++
          match o with
          | Resolved false => SessionClose p
          | Resolved true => ConsoleError "Error closing session" InvalidStateError
          | Rejected => ConsoleError "Error closing session" SessionError
          end :: releases w) ∧
  (sessionRef w = None → hostCalls w' = hostCalls w ++ releases w).
Proof.
  cbv zeta. rewrite stopSession_exact. cbn [world_of]. unfold stopped. fields.
  split; [|split; [|split; [|split]]].
  - intros u Hin Hok. rewrite !elem_of_app. right; right.
    unfold releases. rewrite !elem_of_app. do 5 right. by apply stop_logged.
  - intros n Hn. rewrite !elem_of_app. right; right.
    unfold releases. rewrite Hn, !elem_of_app. left. apply list_elem_of_here.
  - intros n Hn. rewrite !elem_of_app. right; right.
    unfold releases. rewrite Hn, !elem_of_app. right; left. apply list_elem_of_here.
  - intros p ->. by destruct o as [[|]|].
  - by intros ->.
Qed.

(** X7: the interruption branch stops every source of the Active Playback
    Set whose [stop()] does not raise (a [stop()] that raises does not keep
    the others from being stopped), makes no other call, and touches no
    ref but the set and the cursor. *)
Theorem interruption_stops_active (m : Message) (t : Z) (w : World) :
  interrupted m = true → audioGuard m w = None →
  let w' := step w (Arrive m t) in
  (∀ u, u ∈ sourcesRef w → u ∉ stopRaises w → SourceStop u ∈ hostCalls w') ∧
  (∀ h, h ∈ hostCalls w' →
        h ∈ hostCalls w ∨ ∃ u, h = SourceStop u ∧ u ∈ sourcesRef w ∧ u ∉ stopRaises w) ∧
  set_sourcesRef ∅ (set_nextStartTimeRef 0 w) = comp w'.
Proof.
  intros Hm Hg. cbv zeta. rewrite (step_interruption m t w Hm Hg).
  unfold reset. fields. split; [|split; [|reflexivity]].
  - intros u Hin Hok. apply elem_of_app. right. by apply stop_logged.
  - intros h Hh. apply elem_of_app in Hh as [Hh|Hh]; [by left|right].
    unfold stops in Hh. apply list_elem_of_fmap in Hh as (u & -> & Hu).
    apply list_elem_of_filter in Hu as [Hok Hu]. apply elem_of_elements in Hu.
    by exists u.
Qed.

Lemma interruption_stops_active_witness :
  let w := deliver liveWorld (enqueue {| payload := "QQ=="; arrival := 0; duration := 24000 |}) in
  interrupted interruption = true ∧ audioGuard interruption w = None ∧
  ∀ u, u ∈ sourcesRef w → u ∉ stopRaises w →
       SourceStop u ∈ hostCalls (step w (Arrive interruption 7200)).
Proof.
  intros w. split; [reflexivity|]. split; [reflexivity|].
  exact (proj1 (interruption_stops_active interruption 7200 w eq_refl eq_refl)).
Defined.

(** X8: a message is not scheduled when its payload is absent or the empty
    string, or when the output context ref or the gain node ref is null (as
    in every world [stopSession] leaves): the cursor is not clamped, no
    call is made for it and nothing is suspended; only the interruption
    branch runs, if the flag is set. *)
Theorem message_not_scheduled (m : Message) (t : Z) (r : Decoded) (w : World) :
  base64Audio m = None ∨ base64Audio m = Some "" ∨
  outputAudioContextRef w = None ∨ outputNodeRef w = None →
  onmessage m t r w = Normal (if interrupted m then reset w else w) ∧
  step w (Arrive m t) = (if interrupted m then reset w else w) ∧
  scheduled (world_of (onmessage m t r w)) = scheduled w.
Proof.
  intros Hcase.
  assert (audioGuard m w = None) as Hg.
  { unfold audioGuard, truthy.
    destruct Hcase as [->|[->|[Hc|Hn]]]; [done|done|..].
    - rewrite Hc. by destruct (base64Audio m) as [x|]; [destruct (negb (x =? "")%string)|].
    - rewrite Hn. destruct (base64Audio m) as [x|]; [|done].
      by destruct (negb (x =? "")%string), (outputAudioContextRef w). }
  unfold onmessage. rewrite Hg, handleInterruption_spec, (step_Arrive_other m t w Hg).
  split; [done|]. split; [done|]. cbn [world_of].
  destruct (interrupted m); [apply scheduled_reset|done].
Qed.

Lemma message_not_scheduled_witness :
  let m := {| base64Audio := Some ""; interrupted := false |} in
  (base64Audio m = None ∨ base64Audio m = Some "" ∨
   outputAudioContextRef liveWorld = None ∨ outputNodeRef liveWorld = None) ∧
  scheduled (world_of (onmessage m 4800 (AudioBuffer 24000) liveWorld))
  = scheduled liveWorld.
Proof.
  intros m.
  assert (base64Audio m = None ∨ base64Audio m = Some "" ∨
          outputAudioContextRef liveWorld = None ∨ outputNodeRef liveWorld = None)
    as Hcase by (right; left; reflexivity).
  split; [exact Hcase|].
  exact (proj2 (proj2 (message_not_scheduled m 4800 (AudioBuffer 24000) liveWorld Hcase))).
Defined.

(** X9: [onerror] and [onclose] release nothing: they log, set the flags
    ([onerror] shows its message and clears [isConnected] only, [onclose]
    clears [isConnected] and [isTalking]) and leave every ref as it is.
    The message of [onerror] stays through a following [stopSession], which
    brings the component to [Idle], and is cleared by the next
    [startSession]. *)
Theorem session_callbacks_release_nothing (err : Exn) (o : Settled) (w : World) :
  let w1 := world_of (onerror err w) in
  let w2 := world_of (onclose w) in
  comp w1 = setIsConnected false (setError (Some "Connection error. Please try again.") w) ∧
  hostCalls w1 = hostCalls w ++ [ConsoleError "" err] ∧
  comp w2 = setIsTalking false (setIsConnected false w) ∧
  hostCalls w2 = hostCalls w ++ [ConsoleLog "Session closed"] ∧
  Idle (world_of (stopSession o w1)) ∧
  error (world_of (stopSession o w1)) = Some "Connection error. Please try again." ∧
  error (world_of (startSession_begin (world_of (stopSession o w1)))) = None.
Proof.
  cbv zeta. split; [reflexivity|]. split; [reflexivity|].
  split; [reflexivity|]. split; [reflexivity|].
  destruct (stopSession_spec o (world_of (onerror err w))) as (w' & Hrun & Hidle & _).
  rewrite Hrun. cbn [world_of]. split; [exact Hidle|].
  rewrite stopSession_exact in Hrun. injection Hrun as <-.
  split; [reflexivity|]. by rewrite startSession_begin_spec.
Qed.

(** X10: [stopSession] does not cancel an invocation of [onmessage] that
    is suspended at its decode, and [cleanupAudio] leaves [outputNodeRef]
    as it is.  When the decode settles after the stop, with the gain node
    of the context the handler bound still in [outputNodeRef], its unit is
    started at the cursor and added to the Active Playback Set: the
    component, [Idle] after the stop, is not [Idle] any more. *)
Theorem decode_after_stop (o : Settled) (w : World) (h : nat) (k : Suspended) (d : Z) :
  awaitingDecode w !! h = Some k → interrupted (heldMessage k) = false →
  Connects k w →
  let w1 := world_of (stopSession o w) in
  let w2 := step w1 (Settle h (AudioBuffer d)) in
  Idle w1 ∧
  newUnits w1 w2
  = [ {| unitSource := nextObject w; unitStart := nextStartTimeRef w;
         unitDuration := d |} ] ∧
  sourcesRef w2 = {[ nextObject w ]} ∧ ¬ Idle w2.
Proof.
  intros Hk Hquiet Hn. cbv zeta.
  destruct (stopSession_spec o w) as (w1 & Hrun & Hidle & _).
  rewrite Hrun. cbn [world_of]. split; [exact Hidle|].
  rewrite stopSession_exact in Hrun. injection Hrun as <-.
  rewrite (step_Settle_decoded h k d) by done. rewrite Hquiet.
  unfold newUnits. rewrite scheduled_committed, scheduled_resumed, drop_app_length.
  assert (sourcesRef (committed d (resumed h
            (stopped (from_option (λ p, [closing p o]) [] (sessionRef w)) w)))
          = {[ nextObject w ]}) as Hsrc.
  { unfold committed, resumed, stopped, cleared. fields. apply union_empty_r_L. }
  split; [reflexivity|]. split; [exact Hsrc|].
  intros (_ & _ & _ & _ & _ & _ & _ & _ & Hempty). rewrite Hsrc in Hempty.
  assert (nextObject w ∈ (∅ : gset nat)) as Hin by (rewrite <- Hempty; by apply elem_of_singleton).
  by apply elem_of_empty in Hin.
Qed.

Lemma decode_after_stop_witness :
  let w := step liveWorld (Arrive (audioMessage "QQ==") 0) in
  awaitingDecode w !! O = Some {| heldMessage := audioMessage "QQ=="; heldCtx := 1 |} ∧
  ¬ Idle (step (world_of (stopSession (Resolved false) w)) (Settle 0 (AudioBuffer 24000))).
Proof.
  intros w.
  assert (awaitingDecode w !! O
          = Some {| heldMessage := audioMessage "QQ=="; heldCtx := 1 |}) as Hk
    by (vm_compute; reflexivity).
  assert (Connects {| heldMessage := audioMessage "QQ=="; heldCtx := 1 |} w) as Hn
    by (eexists; split; [vm_compute; reflexivity|reflexivity]).
  split; [exact Hk|].
  exact (proj2 (proj2 (proj2 (decode_after_stop (Resolved false) w O _ 24000 Hk eq_refl Hn)))).
Defined.

(** * The application shell *)

Lemma showsLive_spec (key : string) (tab : AppMode) :
  showsLive key tab = true ↔ key ≠ "" ∧ tab = LIVE_CONVERSATION.
Proof.
  unfold showsLive. destruct (String.eqb_spec key "") as [->|Hne].
  - split; [discriminate|]. by intros [Hkey _].
  - destruct tab.
    + by split.
    + split; [discriminate|]. intros [_ Htab]. discriminate.
    + split; [discriminate|]. intros [_ Htab]. discriminate.
Qed.

(** ** [stopSession] around its [await] *)

Lemma stopSession_begin_sync (o : Settled) (w : World) :
  sessionRef w = None → stopSession_begin w = stopSession o w.
Proof.
  intros Hse. unfold stopSession, stopSession_begin, andThen at 3, ifSome.
  by rewrite Hse.
Qed.

Lemma stopSession_begin_suspended (p : nat) (w : World) :
  sessionRef w = Some p → stopSession_begin w = Normal w.
Proof. intros Hse. unfold stopSession_begin. by rewrite Hse. Qed.

(** ** Callbacks release nothing *)

Lemma KeepsSession_refl (w : World) : KeepsSession w w.
Proof. split; [done|]. split; [done|]. exists []. by rewrite app_nil_r. Qed.

Lemma KeepsSession_trans (w1 w2 w3 : World) :
  KeepsSession w1 w2 → KeepsSession w2 w3 → KeepsSession w1 w3.
Proof.
  intros (Hst1 & Hse1 & l1 & Hc1 & Hl1) (Hst2 & Hse2 & l2 & Hc2 & Hl2).
  split; [congruence|]. split; [congruence|]. exists (l1 ++ l2).
  split; [by rewrite Hc2, Hc1, app_assoc|]. by apply Forall_app.
Qed.

Lemma stops_not_releasing (w : World) : Forall (λ c, releasing c = false) (stops w).
Proof. unfold stops. apply Forall_fmap, Forall_forall. by intros u _. Qed.

Lemma KeepsSession_reset (w : World) : KeepsSession w (reset w).
Proof.
  split; [done|]. split; [done|]. exists (stops w). split; [done|].
  apply stops_not_releasing.
Qed.

Lemma KeepsSession_committed (d : Z) (w : World) : KeepsSession w (committed d w).
Proof.
  split; [done|]. split; [done|]. eexists. split; [reflexivity|]. by repeat constructor.
Qed.

Lemma step_KeepsSession (w : World) (e : Event) : KeepsSession w (step w e).
Proof.
  destruct e as [m t|h r|u].
  - destruct (audioGuard m w) as [ctx|] eqn:Hg.
    + rewrite (step_Arrive_audio m t w ctx Hg). apply (KeepsSession_refl w).
    + rewrite (step_Arrive_other m t w Hg).
      destruct (interrupted m); [apply KeepsSession_reset|apply KeepsSession_refl].
  - destruct (awaitingDecode w !! h) as [k|] eqn:Hh.
    + destruct r as [d|].
      * destruct (Connects_dec k w) as [Hconn|Hnot].
        -- rewrite (step_Settle_decoded h k d w Hh Hconn).
           pose proof (KeepsSession_committed d (resumed h w)) as Hc.
           destruct (interrupted (heldMessage k)); [|exact Hc].
           apply (KeepsSession_trans _ (committed d (resumed h w))); [exact Hc|].
           apply KeepsSession_reset.
        -- rewrite (step_Settle_dropped h k d w Hh Hnot). apply (KeepsSession_refl w).
      * rewrite (step_Settle_fails h k w Hh). apply (KeepsSession_refl w).
    + rewrite (step_Settle_none h r w Hh). apply KeepsSession_refl.
  - apply (KeepsSession_refl w).
Qed.

Lemma handle_KeepsSession (w : World) (h : Handler) :
  Callback h → KeepsSession w (handle w h).
Proof.
  intros Hh. destruct h as [|a|o|p o| | |err|p b o|e]; try done; cbn [handle].
  - unfold onopen, andThen, fresh, store, host, effect. fields.
    destruct (inputAudioContextRef w), (streamRef w) eqn:Hs; fields;
      try (destruct (inputAnalyserRef w); fields);
      (split; [by rewrite ?Hs|]); (split; [done|]);
      (eexists; split; [reflexivity|]); by repeat constructor.
  - split; [done|]. split; [done|]. eexists. split; [reflexivity|]. by repeat constructor.
  - split; [done|]. split; [done|]. eexists. split; [reflexivity|]. by repeat constructor.
  - rewrite (onaudioprocess_spec id p (b, o)), host_eq. cbn [world_of].
    split; [done|]. split; [done|]. eexists. split; [reflexivity|].
    destruct o; by repeat constructor.
  - apply step_KeepsSession.
Qed.

Lemma handleAllUnmounted_KeepsSession (hs : list Handler) (w : World) :
  Forall Callback hs → KeepsSession w (handleAllUnmounted hs w).
Proof.
  revert w; induction hs as [|h hs IH]; intros w Hhs; [apply KeepsSession_refl|].
  apply Forall_cons in Hhs as [Hh Hhs].
  apply (KeepsSession_trans _ (handleUnmounted w h)).
  - destruct (handle_KeepsSession w h Hh) as (Hst & Hse & Hcalls). by split.
  - by apply (IH (handleUnmounted w h)).
Qed.

Lemma Callback_background (h : Handler) : Callback h → background h = true.
Proof. by destruct h. Qed.

(** ** Instances that have left the screen *)

Lemma Idle_Torn (before w : World) : Idle w → Torn (keepState before w).
Proof. intros (_ & _ & Hrefs). exact Hrefs. Qed.

Lemma Released_keepState (held before w : World) :
  Released held w → Released held (keepState before w).
Proof. intros Hrel. exact Hrel. Qed.

Lemma appRun_cons (e : AppEvent) (es : list AppEvent) (a : App) :
  appRun (e :: es) a = appRun es (appStep a e).
Proof. reflexivity. Qed.

Lemma appRun_unmounted (i : nat) (hs : list Handler) (a : App) (v : World) :
  unmounted a !! i = Some v → Forall (λ h, background h = true) hs →
  unmounted (appRun (InUnmounted i <$> hs) a) !! i = Some (handleAllUnmounted hs v).
Proof.
  revert a v; induction hs as [|h hs IH]; intros a v Hv Hhs; [done|].
  apply Forall_cons in Hhs as [Hh Hhs]. rewrite fmap_cons, appRun_cons.
  apply IH; [|done]. cbn [appStep unmounted]. rewrite Hh.
  by rewrite list_lookup_alter_eq, Hv.
Qed.

(** X11: an instance of [LiveConversation] that is unmounted while the
    microphone request of its [startSession] is pending keeps the
    microphone.  With no session promise in [sessionRef], the cleanup of
    the effect runs [stopSession] to its end in the turn of the unmount,
    and leaves the refs of the instance empty with what it held released.
    It does not cancel the request: when the microphone is granted, the
    continuation of [startSession] stores the stream and opens a session
    in the instance that is no longer on the screen, and whatever
    callbacks run for it afterwards, the stream and the session stay in
    its refs and no call is made that stops a track, closes a session or a
    context, or disconnects a node. *)
Theorem unmount_keeps_pending_acquisition (a : App) (w : World) (tab : AppMode)
    (raising : gset nat) (s : MediaStream) (hs : list Handler) :
  liveConversation a = Some w → apiKey a ≠ "" → tab ≠ LIVE_CONVERSATION →
  sessionRef w = None → Forall Callback hs →
  let i := length (unmounted a) in
  let a1 := setActiveTab tab raising a in
  let a2 := appRun (InUnmounted i (StartResumes (Granted s)) :: (InUnmounted i <$> hs)) a1 in
  ∃ (w1 w2 : World) (l : list HostCall),
    liveConversation a1 = None ∧
    unmounted a1 !! i = Some w1 ∧ Torn w1 ∧ Released w w1 ∧
    hostCalls w1 = hostCalls w ++ releases w ∧
    unmounted a2 !! i = Some w2 ∧
    streamRef w2 = Some s ∧ sessionRef w2 = Some (nextObject w1) ∧
    hostCalls w2 = hostCalls w1 ++ LiveConnect (nextObject w1) :: l ∧
    Forall (λ c, releasing c = false) l.
Proof.
  intros Hlive Hkey Htab Hse Hhs. cbv zeta.
  assert (showsLive (apiKey a) tab = false) as Hshow.
  { destruct (showsLive (apiKey a) tab) eqn:Hshow; [|done].
    apply showsLive_spec in Hshow. by destruct Hshow. }
  destruct (stopSession_spec Rejected w) as (v & Hrun & Hidle & Hrel).
  pose proof Hrun as Hexact. rewrite stopSession_exact, Hse in Hexact.
  rewrite <- (stopSession_begin_sync Rejected w Hse) in Hrun.
  set (w1 := keepState w v).
  assert (setActiveTab tab raising a
          = {| apiKey := apiKey a; activeTab := tab; liveConversation := None;
               unmounted := unmounted a ++ [w1] |}) as ->.
  { unfold setActiveTab. by rewrite Hlive, Hshow, Hrun. }
  rewrite appRun_cons. cbn [appStep unmounted background liveConversation apiKey activeTab].
  assert (alter (λ v, handleUnmounted v (StartResumes (Granted s))) (length (unmounted a))
            (unmounted a ++ [w1])
          = unmounted a ++ [keepState w1 (connecting s w1)]) as ->.
  { replace (length (unmounted a)) with (length (unmounted a) + 0)%nat at 1 by lia.
    by rewrite alter_app_r. }
  destruct (handleAllUnmounted_KeepsSession hs (keepState w1 (connecting s w1)) Hhs)
    as (Hst & Hses & l & Hcalls & Hl).
  exists w1, (handleAllUnmounted hs (keepState w1 (connecting s w1))), l.
  split; [done|]. split; [by rewrite lookup_app_r, Nat.sub_diag by lia|].
  split; [by apply Idle_Torn|]. split; [by apply Released_keepState|].
  split; [by injection Hexact as <-|]. split.
  { apply appRun_unmounted.
    - cbn [unmounted]. by rewrite lookup_app_r, Nat.sub_diag by lia.
    - eapply Forall_impl; [exact Hhs|]. apply Callback_background. }
  split; [by rewrite Hst|]. split; [by rewrite Hses|]. split; [|exact Hl].
  rewrite Hcalls. unfold connecting, keepState. fields. by rewrite <- app_assoc.
Qed.

(** Start is clicked, the Chat tab is selected while the microphone
    request is pending, the microphone is granted, and the session opens
    and delivers a message. *)
Lemma unmount_keeps_pending_acquisition_witness :
  let a := appRun [InLive StartBegins] (launch "key" ∅) in
  let stream := {| getTracks := [100%nat] |} in
  let a2 := appRun (InUnmounted 0 (StartResumes (Granted stream))
                    :: (InUnmounted 0 <$> [Opens; Turn (Arrive interruption 0)]))
              (setActiveTab SMART_CHAT ∅ a) in
  liveConversation a = Some (handle (boot ∅) StartBegins) ∧
  sessionRef (handle (boot ∅) StartBegins) = None ∧
  ∃ (w1 w2 : World) (l : list HostCall),
    liveConversation (setActiveTab SMART_CHAT ∅ a) = None ∧
    unmounted (setActiveTab SMART_CHAT ∅ a) !! 0%nat = Some w1 ∧ Torn w1 ∧
    Released (handle (boot ∅) StartBegins) w1 ∧
    hostCalls w1
    = hostCalls (handle (boot ∅) StartBegins) ++ releases (handle (boot ∅) StartBegins) ∧
    unmounted a2 !! 0%nat = Some w2 ∧
    streamRef w2 = Some stream ∧ sessionRef w2 = Some (nextObject w1) ∧
    hostCalls w2 = hostCalls w1 ++ LiveConnect (nextObject w1) :: l ∧
    Forall (λ c, releasing c = false) l.
Proof.
  intros a stream a2.
  assert (liveConversation a = Some (handle (boot ∅) StartBegins)) as Hlive by reflexivity.
  assert (sessionRef (handle (boot ∅) StartBegins) = None) as Hse by reflexivity.
  split; [exact Hlive|]. split; [exact Hse|].
  refine (unmount_keeps_pending_acquisition a (handle (boot ∅) StartBegins) SMART_CHAT ∅
            stream [Opens; Turn (Arrive interruption 0)] Hlive _ _ Hse _);
    [discriminate|discriminate|by repeat constructor].
Defined.

(** X12: selecting another tab while [LiveConversation] is mounted
    unmounts it, and the cleanup of its effect calls [stopSession].  With
    no session promise held, [stopSession] runs to its end in that turn:
    the refs of the instance are empty, the tracks of its stream have been
    stopped and both its contexts closed.  With a session promise held,
    [stopSession] is suspended at its [await] and nothing is released in
    that turn; once the promise settles, whatever way, its continuation
    calls [close()] on the session (or logs the failure to), stops the
    tracks, closes both contexts and leaves the refs empty.  Selecting the
    Talk tab while it is shown leaves the instance as it is. *)
Theorem leaving_talk_releases (a : App) (w : World) (tab : AppMode) (raising : gset nat) :
  liveConversation a = Some w → apiKey a ≠ "" →
  (tab = LIVE_CONVERSATION →
   liveConversation (setActiveTab tab raising a) = Some w ∧
   unmounted (setActiveTab tab raising a) = unmounted a) ∧
  (tab ≠ LIVE_CONVERSATION →
   let a' := setActiveTab tab raising a in
   liveConversation a' = None ∧ activeTab a' = tab ∧
   (sessionRef w = None →
    ∃ w', unmounted a' = unmounted a ++ [w'] ∧ Torn w' ∧ Released w w' ∧
          hostCalls w' = hostCalls w ++ releases w) ∧
   (∀ p, sessionRef w = Some p →
         unmounted a' = unmounted a ++ [w] ∧
         ∀ o, ∃ w',
           unmounted (appStep a' (InUnmounted (length (unmounted a)) (StopResumes p o)))
           = unmounted a ++ [w'] ∧
           Torn w' ∧ Released w w' ∧
           hostCalls w' = hostCalls w ++ closing p o :: releases w)).
Proof.
  intros Hlive Hkey. split.
  - intros ->. unfold setActiveTab. rewrite Hlive.
    assert (showsLive (apiKey a) LIVE_CONVERSATION = true) as ->; [|done].
    by apply showsLive_spec.
  - intros Htab. cbv zeta.
    assert (showsLive (apiKey a) tab = false) as Hshow.
    { destruct (showsLive (apiKey a) tab) eqn:Hshow; [|done].
      apply showsLive_spec in Hshow. by destruct Hshow. }
    assert (setActiveTab tab raising a
            = {| apiKey := apiKey a; activeTab := tab; liveConversation := None;
                 unmounted := unmounted a ++ [keepState w (world_of (stopSession_begin w))] |})
      as ->.
    { unfold setActiveTab. by rewrite Hlive, Hshow. }
    split; [done|]. split; [done|]. split.
    + intros Hse. destruct (stopSession_spec Rejected w) as (w' & Hrun & Hidle & Hrel).
      exists (keepState w w'). rewrite (stopSession_begin_sync Rejected w Hse), Hrun.
      split; [done|]. split; [by apply Idle_Torn|]. split; [by apply Released_keepState|].
      rewrite stopSession_exact, Hse in Hrun. by injection Hrun as <-.
    + intros p Hse. rewrite (stopSession_begin_suspended p w Hse). split.
      { cbn [world_of unmounted]. f_equal. f_equal.
        destruct w as [c calls nobj aw ninv sr].
        by destruct c as [ic it er iac oac onr st pr so ian oan se nx srcs]. }
      intros o. destruct (stopSession_resume_spec p o w) as (w' & Hrun & Hidle & Hrel).
      exists (keepState w w'). cbn [appStep unmounted background world_of].
      replace (length (unmounted a)) with (length (unmounted a) + 0)%nat by lia.
      rewrite alter_app_r. cbn [alter list_alter]. unfold handleUnmounted. cbn [handle].
      assert (keepState w w = w) as Hsame.
      { destruct w as [c calls nobj aw ninv sr].
        by destruct c as [ic it er iac oac onr st pr so ian oan se nx srcs]. }
      rewrite Hsame, Hrun. cbn [world_of].
      split; [done|]. split; [by apply Idle_Torn|]. split; [by apply Released_keepState|].
      rewrite stopSession_resume_exact in Hrun. by injection Hrun as <-.
Qed.

(** The Chat tab is selected during a live session; the session promise
    then resolves and [close()] succeeds. *)
Lemma leaving_talk_releases_witness :
  let a := appRun [InLive StartBegins;
                   InLive (StartResumes (Granted {| getTracks := [100%nat] |}));
                   InLive Opens] (launch "key" ∅) in
  let a' := setActiveTab SMART_CHAT ∅ a in
  liveConversation a = Some liveWorld ∧ apiKey a ≠ "" ∧ sessionRef liveWorld = Some 5%nat ∧
  liveConversation a' = None ∧ unmounted a' = unmounted a ++ [liveWorld] ∧
  ∃ w', unmounted (appStep a' (InUnmounted (length (unmounted a))
                                 (StopResumes 5 (Resolved false))))
        = unmounted a ++ [w'] ∧
        Torn w' ∧ Released liveWorld w' ∧
        hostCalls w' = hostCalls liveWorld ++ closing 5 (Resolved false) :: releases liveWorld.
Proof.
  intros a a'.
  assert (liveConversation a = Some liveWorld) as Hlive by (vm_compute; reflexivity).
  assert (apiKey a ≠ "") as Hkey by discriminate.
  assert (sessionRef liveWorld = Some 5%nat) as Hse by (vm_compute; reflexivity).
  assert (SMART_CHAT ≠ LIVE_CONVERSATION) as Htab by discriminate.
  destruct (proj2 (leaving_talk_releases a liveWorld SMART_CHAT ∅ Hlive Hkey) Htab)
    as (Hnone & _ & _ & Hheld).
  destruct (Hheld 5%nat Hse) as [Hsame Hlater].
  split; [exact Hlive|]. split; [exact Hkey|]. split; [exact Hse|].
  split; [exact Hnone|]. split; [exact Hsame|]. exact (Hlater (Resolved false)).
Defined.

(** * The visualizer *)

Lemma draw_outstanding (n : nat) (data : nat → Z) (v : Visualizer) :
  requested v = ∅ →
  animationId (draw n data v) = Some (nextRequest v) ∧
  requested (draw n data v) = {[ nextRequest v ]}.
Proof. intros Hreq. unfold draw. cbn. rewrite Hreq. split; [done|]. apply union_empty_r_L. Qed.

Lemma frame_outstanding (n : nat) (v : Visualizer) (f : nat * (nat → Z)) :
  (∃ id, animationId v = Some id ∧ requested v = {[ id ]}) →
  ∃ id, animationId (frame n v f) = Some id ∧ requested (frame n v f) = {[ id ]}.
Proof.
  intros (id & Hid & Hreq). unfold frame. destruct (decide (f.1 ∈ requested v)) as [Hin|Hout].
  - eexists. apply draw_outstanding. cbn. rewrite Hreq in *.
    apply elem_of_singleton in Hin as ->. apply difference_diag_L.
  - by exists id.
Qed.

Lemma frames_outstanding (n : nat) (fs : list (nat * (nat → Z))) (v : Visualizer) :
  (∃ id, animationId v = Some id ∧ requested v = {[ id ]}) →
  ∃ id, animationId (frames n fs v) = Some id ∧ requested (frames n fs v) = {[ id ]}.
Proof.
  revert v; induction fs as [|f fs IH]; intros v Hv; [done|].
  apply (IH (frame n v f)). by apply frame_outstanding.
Qed.

Lemma frames_nothing_requested (n : nat) (fs : list (nat * (nat → Z))) (v : Visualizer) :
  requested v = ∅ → frames n fs v = v.
Proof.
  intros Hreq. induction fs as [|f fs IH]; [done|].
  unfold frames in *. cbn [foldl]. unfold frame at 2.
  rewrite decide_False; [exact IH|]. rewrite Hreq. apply not_elem_of_empty.
Qed.

(** X13: the effect of the visualizer starts the animation loop exactly
    when the canvas is mounted, the analyser is not null, the visualizer is
    active and the canvas gives a 2d context.  Then the loop has, after any
    number of frames, exactly one frame request outstanding, the one
    [animationId] holds; so the cleanup of the effect cancels the loop: no
    request is left, no later frame draws or samples anything, and the last
    call on the canvas is the clear.  In every other case (missing canvas
    or context, null analyser, inactive) the effect returns no cleanup, and
    has requested no frame and drawn nothing. *)
Theorem visualizer_loop_cancelled (props : VisualizerProps)
    (data : nat → Z) (fs later : list (nat * (nat → Z))) :
  match runEffect props data idleVisualizer with
  | (v0, true) =>
      ∃ n, analyser props = Some n ∧ canvasMounted props = true ∧
           isActive props = true ∧ context2d props = true ∧
           let v := frames n fs v0 in
           (∃ id, animationId v = Some id ∧ requested v = {[ id ]}) ∧
           requested (cleanupEffect v) = ∅ ∧
           frames n later (cleanupEffect v) = cleanupEffect v ∧
           last (canvasCalls (cleanupEffect v)) = Some ClearRect
  | (v0, false) =>
      v0 = idleVisualizer ∧
      (canvasMounted props = false ∨ analyser props = None ∨
       isActive props = false ∨ context2d props = false)
  end.
Proof.
  unfold runEffect.
  destruct (canvasMounted props); [|by auto].
  destruct (analyser props) as [n|]; [|by auto].
  destruct (isActive props); [|by auto 10].
  destruct (context2d props); [|by auto 10].
  exists n. split; [done|]. split; [done|]. split; [done|]. split; [done|]. cbv zeta.
  destruct (frames_outstanding n fs (draw n data idleVisualizer)) as (id & Hid & Hreq).
  { eexists. by apply draw_outstanding. }
  assert (requested (cleanupEffect (frames n fs (draw n data idleVisualizer))) = ∅) as Hnone.
  { unfold cleanupEffect. cbn. rewrite Hid, Hreq. apply difference_diag_L. }
  split; [by exists id|]. split; [exact Hnone|]. split.
  - by apply frames_nothing_requested.
  - unfold cleanupEffect. cbn. apply last_snoc.
Qed.

(** The effect with a null analyser starts nothing; with an analyser of
    four bins, the loop is cancelled after two frames. *)
Lemma visualizer_loop_cancelled_witness :
  runEffect {| canvasMounted := true; context2d := true; analyser := None;
               isActive := true |} (λ _, 128) idleVisualizer
  = (idleVisualizer, false) ∧
  ∃ n, Some 4%nat = Some n ∧ true = true ∧ true = true ∧ true = true ∧
       let v := frames n [(O, λ _, 255); (1%nat, λ _, 0)] (draw 4 (λ _, 128) idleVisualizer) in
       (∃ id, animationId v = Some id ∧ requested v = {[ id ]}) ∧
       requested (cleanupEffect v) = ∅ ∧
       frames n [] (cleanupEffect v) = cleanupEffect v ∧
       last (canvasCalls (cleanupEffect v)) = Some ClearRect.
Proof.
  split; [reflexivity|].
  exact (visualizer_loop_cancelled
           {| canvasMounted := true; context2d := true; analyser := Some 4%nat;
              isActive := true |} (λ _, 128) [(O, λ _, 255); (1%nat, λ _, 0)] []).
Defined.

(** * The chat *)

Lemma trimStart_head (s : SmartChat.JsString) :
  SmartChat.trimStart s = [] ∨
  ∃ c t, SmartChat.trimStart s = c :: t ∧ SmartChat.isWhiteSpace c = false.
Proof.
  induction s as [|c s IH]; [by left|]. cbn [SmartChat.trimStart].
  destruct (SmartChat.isWhiteSpace c) eqn:Hc; [exact IH|]. right. by exists c, s.
Qed.

Lemma trimStart_nil (s : SmartChat.JsString) :
  SmartChat.trimStart s = [] ↔ forallb SmartChat.isWhiteSpace s = true.
Proof.
  induction s as [|c s IH]; [done|]. cbn [SmartChat.trimStart forallb].
  destruct (SmartChat.isWhiteSpace c); [exact IH|]. by split.
Qed.

Lemma trim_nil (s : SmartChat.JsString) :
  SmartChat.trim s = [] ↔ forallb SmartChat.isWhiteSpace s = true.
Proof.
  rewrite <- trimStart_nil. unfold SmartChat.trim. split.
  - intros Hrev. apply (f_equal (@rev N)) in Hrev. rewrite rev_involutive in Hrev.
    cbn [rev] in Hrev. apply trimStart_nil in Hrev.
    destruct (trimStart_head s) as [Hnil|(c & t & Hct & Hc)]; [done|].
    rewrite Hct in Hrev. rewrite forallb_forall in Hrev.
    rewrite (Hrev c) in Hc; [done|]. apply in_rev. rewrite rev_involutive. by left.
  - by intros ->.
Qed.

Lemma prepare_requests (thinking : bool) (e : SmartChat.Env) :
  requestsOf (SmartChat.prepare thinking e).2 = [].
Proof.
  unfold SmartChat.prepare. destruct thinking; [done|].
  by destruct (SmartChat.geolocation e) as [[pos|]|].
Qed.

(** One accepted send, in closed form. *)
Lemma handleSend_accepted (e : SmartChat.Env) (s : SmartChat.State) :
  SmartChat.trim (SmartChat.input s) ≠ [] → SmartChat.isLoading s = false →
  ∃ user reply request,
    SmartChat.messages (SmartChat.handleSend e s).1
    = SmartChat.messages s ++ [user; reply] ∧
    SmartChat.role user = SmartChat.USER ∧ SmartChat.text user = SmartChat.input s ∧
    SmartChat.role reply = SmartChat.MODEL ∧
    SmartChat.input (SmartChat.handleSend e s).1 = [] ∧
    SmartChat.isLoading (SmartChat.handleSend e s).1 = false ∧
    SmartChat.useThinking (SmartChat.handleSend e s).1 = SmartChat.useThinking s ∧
    requestsOf (SmartChat.handleSend e s).2 = [request] ∧
    SmartChat.contents request = SmartChat.toContent <$> SmartChat.messages s.
Proof.
  intros Hinput Hloading. unfold SmartChat.handleSend.
  rewrite bool_decide_eq_false_2 by done. rewrite Hloading. cbn [orb].
  pose proof (prepare_requests (SmartChat.useThinking s) e) as Hprep.
  destruct (SmartChat.prepare (SmartChat.useThinking s) e) as [[model config] calls].
  cbn [snd] in Hprep.
  destruct (SmartChat.response e) as [r|]; cbn [fst snd];
    eexists _, _, _;
    (split; [reflexivity|]); (split; [reflexivity|]); (split; [reflexivity|]);
    (split; [reflexivity|]); (split; [reflexivity|]); (split; [reflexivity|]);
    (split; [reflexivity|]);
    (split; [unfold requestsOf in *; rewrite omap_app, Hprep; reflexivity|reflexivity]).
Qed.

Lemma handleSend_refused (e : SmartChat.Env) (s : SmartChat.State) :
  SmartChat.trim (SmartChat.input s) = [] ∨ SmartChat.isLoading s = true →
  SmartChat.handleSend e s = (s, []).
Proof.
  intros Hcase. unfold SmartChat.handleSend.
  destruct Hcase as [Hblank|Hloading].
  - by rewrite bool_decide_eq_true_2.
  - rewrite Hloading. by rewrite orb_true_r.
Qed.

(** X14: a send is refused, leaving the state as it is and calling
    nothing, exactly when a send is in progress or the input consists of
    nothing but white space and line terminators (the empty input
    included).  An accepted send records the input as typed, untrimmed. *)
Theorem blank_input_is_not_sent (e : SmartChat.Env) (s : SmartChat.State) :
  (forallb SmartChat.isWhiteSpace (SmartChat.input s) = true ∨
   SmartChat.isLoading s = true →
   SmartChat.handleSend e s = (s, [])) ∧
  (forallb SmartChat.isWhiteSpace (SmartChat.input s) = false →
   SmartChat.isLoading s = false →
   ∃ user reply,
     SmartChat.messages (SmartChat.handleSend e s).1
     = SmartChat.messages s ++ [user; reply] ∧
     SmartChat.text user = SmartChat.input s).
Proof.
  split.
  - intros [Hblank|Hloading]; apply handleSend_refused; [left|by right].
    by apply trim_nil.
  - intros Hblank Hloading.
    destruct (handleSend_accepted e s) as (user & reply & request & Hm & _ & Ht & _);
      [|done|by exists user, reply].
    intros Htrim. apply trim_nil in Htrim. congruence.
Qed.

Lemma rolesOf_user_reply (ms : list SmartChat.ChatMessage) (user reply : SmartChat.ChatMessage) :
  SmartChat.role user = SmartChat.USER → SmartChat.role reply = SmartChat.MODEL →
  rolesOf (ms ++ [user; reply]) = rolesOf ms ++ ["user"; "model"]%string.
Proof.
  intros Hu Hr. unfold rolesOf, SmartChat.toContent. rewrite fmap_app. cbn.
  by rewrite Hu, Hr.
Qed.

Lemma act_ChatAfter (n : nat) (sc : SmartChat.State * list SmartChat.Call)
    (a : SmartChat.Action) :
  ChatAfter n sc → ChatAfter n (SmartChat.act sc a) ∨ ChatAfter (S n) (SmartChat.act sc a).
Proof.
  intros (Hroles & Hloading & Hreqs). destruct a as [value| |e]; [by left|by left|].
  destruct (decide (SmartChat.trim (SmartChat.input sc.1) = [])) as [Hblank|Htyped].
  - left. unfold SmartChat.act. rewrite handleSend_refused by (by left).
    cbn [fst snd]. by rewrite app_nil_r.
  - right. unfold SmartChat.act.
    destruct (handleSend_accepted e sc.1 Htyped Hloading)
      as (user & reply & request & Hm & Hu & _ & Hr & _ & Hl & _ & Hreq & Hcontents).
    unfold ChatAfter. cbn [fst snd]. rewrite Hm, Hl. split; [|split; [done|]].
    + rewrite (rolesOf_user_reply _ _ _ Hu Hr), Hroles. reflexivity.
    + unfold requestsOf in *. rewrite omap_app, fmap_app, Hreqs, Hreq, seq_S, fmap_app.
      cbn. unfold requestRoles at 1. rewrite Hcontents, <- list_fmap_compose.
      by rewrite <- Hroles.
Qed.

Lemma foldl_ChatAfter (actions : list SmartChat.Action) (n : nat)
    (sc : SmartChat.State * list SmartChat.Call) :
  ChatAfter n sc → ∃ n', ChatAfter n' (foldl SmartChat.act sc actions).
Proof.
  revert n sc; induction actions as [|a actions IH]; intros n sc Hsc; [by exists n|].
  cbn [foldl]. destruct (act_ChatAfter n sc a Hsc) as [H|H]; eapply IH; exact H.
Qed.

(** X15: the request of a send carries the history as it was before the
    send: the message being sent is not part of it.  In every session, the
    request of the send number [i] (counting the accepted ones from 0)
    carries the greeting and the [i] earlier exchanges, so its last turn is
    the model's, never the user's question; the history itself alternates
    from the greeting on, two messages per accepted send, and no send is
    left in progress. *)
Theorem chat_request_omits_question (now : Z) (actions : list SmartChat.Action) :
  let sc := SmartChat.session now actions in
  ∃ n, rolesOf (SmartChat.messages sc.1) = SmartChat.turns n ∧
       length (SmartChat.messages sc.1) = S (2 * n) ∧
       SmartChat.isLoading sc.1 = false ∧
       length (requestsOf sc.2) = n ∧
       ∀ i request, requestsOf sc.2 !! i = Some request →
                    requestRoles request = SmartChat.turns i ∧
                    last (requestRoles request) = Some "model"%string ∧
                    length (SmartChat.contents request) = S (2 * i).
Proof.
  cbv zeta. unfold SmartChat.session.
  destruct (foldl_ChatAfter actions O (SmartChat.initialState now, [])) as (n & Hroles & Hl & Hreqs);
    [done|].
  assert (∀ k, length (SmartChat.turns k) = S (2 * k)) as Hlen.
  { induction k as [|k IH]; [done|]. cbn [SmartChat.turns]. rewrite length_app, IH. cbn. lia. }
  assert (∀ k, last (SmartChat.turns k) = Some "model"%string) as Hlast.
  { destruct k; [done|]. cbn [SmartChat.turns].
    by rewrite last_app. }
  exists n. split; [exact Hroles|]. split.
  { rewrite <- (Hlen n), <- Hroles. unfold rolesOf. by rewrite length_fmap. }
  split; [exact Hl|]. split.
  { rewrite <- (length_fmap requestRoles), Hreqs, length_fmap. apply length_seq. }
  intros i request Hi.
  assert (requestRoles request = SmartChat.turns i) as Hr.
  { assert ((requestRoles <$> requestsOf (foldl SmartChat.act
               (SmartChat.initialState now, []) actions).2) !! i
            = Some (requestRoles request)) as Hi' by (by rewrite list_lookup_fmap, Hi).
    rewrite Hreqs, list_lookup_fmap in Hi'.
    destruct (seq 0 n !! i) as [j|] eqn:Hj; [|done].
    apply lookup_seq in Hj as [-> _]. cbn in Hi'. congruence. }
  split; [exact Hr|]. split; [by rewrite Hr|].
  rewrite <- (Hlen i), <- Hr. unfold requestRoles. by rewrite length_fmap.
Qed.

(** The first question of a session: the request carries the greeting
    alone. *)
Example first_question_not_sent :
  let e := {| SmartChat.userIdTime := 1000; SmartChat.userTime := 1000;
              SmartChat.replyIdTime := 2000; SmartChat.replyTime := 2000;
              SmartChat.geolocation := None;
              SmartChat.response := Some {| SmartChat.responseText := Some (SmartChat.js "Hello");
                                            SmartChat.responseGrounding := None |} |} in
  let sc := SmartChat.session 0 [SmartChat.SetInput (SmartChat.js "Hi"); SmartChat.Send e] in
  (SmartChat.text <$> SmartChat.messages sc.1) !! 1%nat = Some (SmartChat.js "Hi") ∧
  (SmartChat.contents <$> requestsOf sc.2)
  = [[("model"%string,
       SmartChat.js "Namaste! Ask me anything. I can check Google Maps for places or Search for news.")]].
Proof. split; vm_compute; reflexivity. Qed.

(** * Grounding sources *)

Lemma filter_length_zero {A} (P : A → Prop) `{∀ x, Decision (P x)} (l : list A) :
  length (filter P l) = O ↔ Forall (λ x, ¬ P x) l.
Proof.
  induction l as [|x l IH]; [by split|]. rewrite filter_cons.
  destruct (decide (P x)) as [Hx|Hx]; cbn.
  - split; [done|]. intros Hall. apply Forall_cons in Hall as [Hnx _]. done.
  - rewrite IH. split; [by constructor|]. intros Hall. by apply Forall_cons in Hall as [_ Hall].
Qed.

Lemma omap_web_filter (chunks : list SmartChat.GroundingChunk) :
  omap SmartChat.web (filter (λ c, is_Some (SmartChat.web c)) chunks)
  = omap SmartChat.web chunks.
Proof.
  induction chunks as [|c chunks IH]; [done|]. rewrite filter_cons.
  destruct (decide (is_Some (SmartChat.web c))) as [[x Hx]|Hnone]; cbn.
  - by rewrite Hx, IH.
  - destruct (SmartChat.web c) eqn:Hw; [exfalso; apply Hnone; by eexists|]. exact IH.
Qed.

Lemma omap_web_nil (chunks : list SmartChat.GroundingChunk) :
  omap SmartChat.web chunks = [] ↔ Forall (λ c, SmartChat.web c = None) chunks.
Proof.
  induction chunks as [|c chunks IH]; [by split|]. cbn.
  destruct (SmartChat.web c) as [l|] eqn:Hw.
  - split; [done|]. intros Hall. apply Forall_cons in Hall as [Hc _]. congruence.
  - rewrite IH. split; [by constructor|]. intros Hall. by apply Forall_cons in Hall as [_ Hall].
Qed.

(** X16: [renderGroundingSource] renders nothing when the metadata has no
    chunk list or when no chunk has [web] or [maps]; otherwise it renders
    the Sources block with one link per chunk that has [web], in order, and
    none for the chunks that only have [maps]: metadata with map chunks
    only gives the Sources heading with no link under it. *)
Theorem grounding_sources_rendered (metadata : SmartChat.GroundingMetadata) :
  match SmartChat.renderGroundingSource metadata with
  | None =>
      SmartChat.groundingChunks metadata = None ∨
      ∃ chunks, SmartChat.groundingChunks metadata = Some chunks ∧
                Forall (λ c, SmartChat.web c = None ∧ SmartChat.maps c = false) chunks
  | Some links =>
      ∃ chunks, SmartChat.groundingChunks metadata = Some chunks ∧
                links = omap SmartChat.web chunks ∧
                Exists (λ c, is_Some (SmartChat.web c) ∨ SmartChat.maps c = true) chunks ∧
                (links = [] ↔ Forall (λ c, SmartChat.web c = None) chunks)
  end.
Proof.
  unfold SmartChat.renderGroundingSource.
  destruct (SmartChat.groundingChunks metadata) as [chunks|]; [|by left].
  cbv zeta. case_bool_decide as Hempty.
  - right. exists chunks. split; [done|]. destruct Hempty as [Hweb Hmaps].
    apply filter_length_zero in Hweb, Hmaps. rewrite Forall_forall in *.
    intros c Hc. specialize (Hweb c Hc). specialize (Hmaps c Hc). split.
    + destruct (SmartChat.web c); [exfalso; apply Hweb; by eexists|done].
    + by destruct (SmartChat.maps c).
  - exists chunks. split; [done|]. split; [apply omap_web_filter|]. split.
    + destruct (decide (Exists (λ c, is_Some (SmartChat.web c) ∨ SmartChat.maps c = true)
                          chunks)) as [Hex|Hnone]; [exact Hex|].
      exfalso. apply Hempty. rewrite <- Forall_Exists_neg in Hnone.
      split; apply filter_length_zero; eapply Forall_impl; try exact Hnone;
        cbn; intros c Hc; tauto.
    + rewrite omap_web_filter. apply omap_web_nil.
Qed.

(** * The data URL of a recording *)

Lemma split_not_nil (sep : N) (s : list N) : PracticeTools.split sep s ≠ [].
Proof.
  induction s as [|c s IH]; [done|]. cbn [PracticeTools.split].
  destruct (c =? sep)%N; [done|]. by destruct (PracticeTools.split sep s).
Qed.

Lemma split_without (sep : N) (s : list N) : sep ∉ s → PracticeTools.split sep s = [s].
Proof.
  induction s as [|c s IH]; [done|]. intros Hnot. cbn [PracticeTools.split].
  apply not_elem_of_cons in Hnot as [Hne Hnot].
  destruct (N.eqb_spec c sep) as [->|_]; [done|]. by rewrite IH.
Qed.

Lemma split_at (sep : N) (header rest : list N) :
  sep ∉ header →
  PracticeTools.split sep (header ++ sep :: rest) = header :: PracticeTools.split sep rest.
Proof.
  induction header as [|c header IH]; intros Hnot.
  - cbn. by rewrite N.eqb_refl.
  - apply not_elem_of_cons in Hnot as [Hne Hnot]. cbn.
    destruct (N.eqb_spec c sep) as [->|_]; [done|]. by rewrite IH.
Qed.

(** X17: [base64data.split(',')[1]] gives back the payload of a data URL
    whole: for a header and a payload without comma (a media type and
    base64 text have none), the content taken from [header,payload] is the
    payload, the empty payload of an empty recording included; taken from a
    string without comma it is [undefined]. *)
Theorem data_url_payload (header payload : list N) :
  PracticeTools.comma ∉ header → PracticeTools.comma ∉ payload →
  PracticeTools.base64Content (header ++ PracticeTools.comma :: payload) = Some payload ∧
  PracticeTools.base64Content header = None.
Proof.
  intros Hh Hp. unfold PracticeTools.base64Content.
  rewrite (split_at _ _ _ Hh), (split_without _ _ Hp), (split_without _ _ Hh). done.
Qed.

Lemma data_url_payload_witness :
  let header := SmartChat.js "data:audio/wav;base64" in
  (PracticeTools.comma ∉ header) ∧ (PracticeTools.comma ∉ SmartChat.js "UklGRg==") ∧
  PracticeTools.base64Content (header ++ PracticeTools.comma :: SmartChat.js "UklGRg==")
  = Some (SmartChat.js "UklGRg==").
Proof.
  intros header.
  assert (PracticeTools.comma ∉ header) as Hh
    by (apply (bool_decide_unpack _); vm_compute; exact I).
  assert (PracticeTools.comma ∉ SmartChat.js "UklGRg==") as Hp
    by (apply (bool_decide_unpack _); vm_compute; exact I).
  split; [exact Hh|]. split; [exact Hp|].
  exact (proj1 (data_url_payload header (SmartChat.js "UklGRg==") Hh Hp)).
Defined.

(** * A complete call *)

Lemma onopen_capturing (w : World) (i a : nat) (st : MediaStream) :
  inputAudioContextRef w = Some i → streamRef w = Some st → inputAnalyserRef w = Some a →
  let w' := world_of (onopen w) in
  sourceRef w' = Some (nextObject w) ∧ processorRef w' = Some (S (nextObject w)) ∧
  sessionRef w' = sessionRef w ∧ streamRef w' = Some st ∧
  inputAudioContextRef w' = Some i ∧
  outputAudioContextRef w' = outputAudioContextRef w ∧
  sourcesRef w' = sourcesRef w ∧ nextStartTimeRef w' = nextStartTimeRef w ∧
  hostCalls w' = hostCalls w ++ [ConsoleLog "Session connected"].
Proof.
  intros Hi Hs Ha. cbv zeta.
  unfold onopen, andThen, fresh, store, host, effect. fields.
  rewrite Hi, Hs. fields. rewrite Ha. fields. done.
Qed.

(** X18: a complete call from [Idle] (Start with the microphone granted,
    the session opening, End Call) makes exactly these calls, in this
    order: both contexts created, the microphone requested, the session
    connected, the connection logged, the session closed (or the failure to
    close it logged), the capture processor and source disconnected, every
    track of the stream stopped, both contexts closed.  It ends in [Idle]
    with the cursor where it was. *)
Theorem call_round_trip (s : MediaStream) (o : Settled) (w : World) :
  Idle w →
  let w' := handleAll [StartBegins; StartResumes (Granted s); Opens; Stops o] w in
  Idle w' ∧ nextStartTimeRef w' = nextStartTimeRef w ∧
  hostCalls w'
  = hostCalls w ++
    [ NewAudioContext (nextObject w) 16000; NewAudioContext (S (nextObject w)) 24000;
      GetUserMedia; LiveConnect (5 + nextObject w);
      ConsoleLog "Session connected";
      closing (5 + nextObject w) o;
      NodeDisconnect (7 + nextObject w); NodeDisconnect (6 + nextObject w) ] ++
    (TrackStop <$> getTracks s) ++
    [ ContextClose (nextObject w); ContextClose (S (nextObject w)) ].
Proof.
  intros (_ & _ & _ & _ & _ & _ & _ & _ & Hsrc). cbv zeta.
  unfold handleAll. cbn [foldl handle].
  rewrite startSession_begin_spec. cbn [world_of].
  rewrite startSession_granted_spec. cbn [world_of].
  assert (inputAudioContextRef (connecting s (acquiring w)) = Some (nextObject w) ∧
          outputAudioContextRef (connecting s (acquiring w)) = Some (S (nextObject w)) ∧
          inputAnalyserRef (connecting s (acquiring w)) = Some (4 + nextObject w)%nat ∧
          streamRef (connecting s (acquiring w)) = Some s ∧
          sessionRef (connecting s (acquiring w)) = Some (5 + nextObject w)%nat ∧
          nextObject (connecting s (acquiring w)) = (6 + nextObject w)%nat ∧
          sourcesRef (connecting s (acquiring w)) = sourcesRef w ∧
          nextStartTimeRef (connecting s (acquiring w)) = nextStartTimeRef w ∧
          hostCalls (connecting s (acquiring w))
          = hostCalls w ++
            [ NewAudioContext (nextObject w) 16000;
              NewAudioContext (S (nextObject w)) 24000;
              GetUserMedia; LiveConnect (5 + nextObject w) ])
    as (Hi2 & Ho2 & Ha2 & Hst2 & Hse2 & Hn2 & Hs2 & Hc2 & Hh2).
  { unfold connecting, acquiring. fields. rewrite <- !app_assoc. done. }
  destruct (onopen_capturing _ _ _ _ Hi2 Hst2 Ha2)
    as (Hso & Hp & Hse & Hst & Hi & Ho & Hs & Hn & Hh).
  generalize dependent (world_of (onopen (connecting s (acquiring w)))).
  generalize dependent (connecting s (acquiring w)).
  intros w2 Hi2 Ho2 Ha2 Hst2 Hse2 Hn2 Hs2 Hc2 Hh2 w3 Hso Hp Hse Hst Hi Ho Hs Hn Hh.
  split.
  { destruct (stopSession_spec o w3) as (w' & -> & Hidle & _). exact Hidle. }
  rewrite stopSession_exact. cbn [world_of].
  unfold stopped, releases, stops, cleared. fields.
  rewrite Hse, Hse2, Hp, Hso, Hst, Hi, Ho, Ho2, Hs, Hs2, Hsrc, Hh, Hh2, Hn2, elements_empty.
  split; [congruence|]. cbn [from_option fmap list_fmap].
  rewrite <- !app_assoc. cbn [app]. reflexivity.
Qed.

Lemma call_round_trip_witness :
  Idle initial ∧
  Idle (handleAll [StartBegins; StartResumes (Granted {| getTracks := [100%nat] |}); Opens;
                   Stops (Resolved false)] initial).
Proof.
  split; [exact initial_Idle|].
  exact (proj1 (call_round_trip {| getTracks := [100%nat] |} (Resolved false) initial
                  initial_Idle)).
Defined.
